(** * EmuFlight, src/main/common/maths.c: a shallow embedding and its properties

    The numeric kernel of the flight controller: trigonometric approximations,
    dead band and range scaling, running statistics (Welford), quaternion
    algebra and the median filters built from sorting networks.

    Floating-point data is IEEE 754 binary32 ([float] of the C code), taken
    from the executable specification of the Standard Library
    ([SpecFloat], precision 24, emax 128, round to nearest even); every
    [float] operation of the C code is one correctly rounded binary32
    operation (no excess precision, no contraction into fused operations).
    The format has one NaN: the sign and the payload of a NaN are not
    modelled, and nothing is stated about them.
    Machine integers are [Z] with the two's complement wrap-around written
    out. *)

From Stdlib Require Import ZArith List Lia Bool Permutation.
From Stdlib Require Import Floats.SpecFloat.
Import ListNotations.
Open Scope Z_scope.

(* ================================================================== *)
(** * Machine integers *)

Module Int.

(** A [bits]-wide two's complement integer holding the value [z]. *)
Definition wrap (bits : Z) (z : Z) : Z :=
  (z + 2 ^ (bits - 1)) mod 2 ^ bits - 2 ^ (bits - 1).

Definition in_range (bits : Z) (z : Z) : Prop :=
  - 2 ^ (bits - 1) <= z < 2 ^ (bits - 1).

Definition in_rangeb (bits : Z) (z : Z) : bool :=
  (- 2 ^ (bits - 1) <=? z) && (z <? 2 ^ (bits - 1)).

Definition INT32_MIN : Z := - 2 ^ 31.
Definition INT32_MAX : Z := 2 ^ 31 - 1.

Definition wrap32 : Z -> Z := wrap 32.
Definition int32 : Z -> Prop := in_range 32.

End Int.

(* ================================================================== *)
(** * Single-precision floats *)

Module F32.

Definition prec : Z := 24.
Definition emax : Z := 128.

Definition float : Type := spec_float.

Definition add : float -> float -> float := SFadd prec emax.
Definition sub : float -> float -> float := SFsub prec emax.
Definition mul : float -> float -> float := SFmul prec emax.
Definition div : float -> float -> float := SFdiv prec emax.
Definition sqrtf : float -> float := SFsqrt prec emax.
Definition neg : float -> float := SFopp.
Definition fabsf : float -> float := SFabs.

(** The C comparisons; each is false when an operand is a NaN, except
    [!=], which is then true. *)
Definition lt (a b : float) : bool := SFltb a b.
Definition gt (a b : float) : bool := SFltb b a.
Definition le (a b : float) : bool := SFleb a b.
Definition ge (a b : float) : bool := SFleb b a.
Definition eq (a b : float) : bool := SFeqb a b.
Definition ne (a b : float) : bool := negb (SFeqb a b).

Definition zero : float := S754_zero false.

(** A value of this format: the mantissa has at most 24 bits and is
    normalised for its exponent, which lies between -149 and 104. *)
Definition valid (x : float) : bool := valid_binary prec emax x.

Definition finite (x : float) : bool :=
  match x with
  | S754_zero _ | S754_finite _ _ _ => true
  | _ => false
  end.

Definition is_nan (x : float) : bool :=
  match x with S754_nan => true | _ => false end.

(** Conversion of an integer to float ([(float) n]), rounded to nearest. *)
Definition of_int (n : Z) : float := binary_normalize prec emax n 0 false.

(** The decimal literal [m]e[e10] with suffix [f]: the binary32 number
    nearest to m * 10^e10. *)
Definition of_decimal (m e10 : Z) : float :=
  match m with
  | Z0 => zero
  | Zpos p =>
      if 0 <=? e10 then binary_normalize prec emax (m * 10 ^ e10) 0 false
      else div (S754_finite false p 0)
               (S754_finite false (Z.to_pos (10 ^ (- e10))) 0)
  | Zneg p =>
      if 0 <=? e10 then binary_normalize prec emax (m * 10 ^ e10) 0 false
      else div (S754_finite true p 0)
               (S754_finite false (Z.to_pos (10 ^ (- e10))) 0)
  end.

(** Integer part of a float, rounding toward zero; [None] for infinities
    and NaN. *)
Definition trunc (x : float) : option Z :=
  match x with
  | S754_zero _ => Some 0
  | S754_finite s m e =>
      Some (cond_Zopp s
              (match e with
               | Z0 => Zpos m
               | Zpos _ => Zpos m * 2 ^ e
               | Zneg _ => Zpos m / 2 ^ (- e)
               end))
  | _ => None
  end.

(** Conversion of a float to [int32_t].  The value is truncated toward
    zero.  When the truncated value does not fit (or [x] is an infinity or
    a NaN) ISO C leaves the conversion undefined; [oor x] stands for
    whatever the platform then delivers. *)
Definition to_int32 (oor : float -> Z) (x : float) : Z :=
  match trunc x with
  | Some n => if Int.in_rangeb 32 n then n else Int.wrap32 (oor x)
  | None => Int.wrap32 (oor x)
  end.

(** Whether the conversion of [x] to [int32_t] is defined by ISO C: the
    truncated value is representable. *)
Definition fits_int32 (x : float) : bool :=
  match trunc x with
  | Some n => Int.in_rangeb 32 n
  | None => false
  end.

(** The conversion of the ARM VFP instruction VCVT (round toward zero)
    used on the Cortex-M flight controllers: saturation, and 0 for NaN. *)
Definition vcvt_oor (x : float) : Z :=
  match x with
  | S754_nan => 0
  | S754_infinity s | S754_finite s _ _ => if s then Int.INT32_MIN else Int.INT32_MAX
  | S754_zero _ => 0
  end.

(** The exact value of a finite float, scaled by 2^149 (every finite
    binary32 number is an integer multiple of 2^-149). *)
Definition scaled (x : float) : Z :=
  match x with
  | S754_finite s m e => cond_Zopp s (Zpos m * 2 ^ (e + 149))
  | _ => 0
  end.

End F32.

Definition float : Type := F32.float.

(* ================================================================== *)
(** * Constants and macros of maths.h *)

(** Modelled from the spec: [M_PIf] is defined in maths.h, which is not
    among the sources; it is pi written as a single-precision literal,
    [3.14159265358979323846f]. *)
Definition M_PIf : float := Eval vm_compute in F32.of_decimal 314159265358979323846 (-20).

(** Modelled from the spec: the macros [MIN] and [MAX] of maths.h (not among
    the sources), the smaller and the larger of two values, written with one
    comparison: [a < b ? a : b] and [a > b ? a : b]. *)
Definition MIN (a b : float) : float := if F32.lt a b then a else b.
Definition MAX (a b : float) : float := if F32.gt a b then a else b.

(** Modelled from the spec: the macro [ABS] of maths.h (not among the
    sources) is the spec's |value|, the absolute value of its operand. *)
Definition ABS (x : Z) : Z := Z.abs x.

(** Modelled from the spec: the accumulator [stdev_t] of maths.h (not among
    the sources): the sample count, the old and new running mean and the old
    and new sum of squared deviations. *)
Record stdev_t : Type := mk_stdev {
  m_oldM : float;
  m_newM : float;
  m_oldS : float;
  m_newS : float;
  m_n : Z
}.

(** Modelled from the spec: [struct fp_vector] of maths.h, three floats
    X, Y, Z. *)
Record fp_vector : Type := mk_vector {
  vec_X : float;
  vec_Y : float;
  vec_Z : float
}.

(** Modelled from the spec: [quaternion] of maths.h, four floats
    w, x, y, z. *)
Record quaternion : Type := mk_quaternion {
  q_w : float;
  q_x : float;
  q_y : float;
  q_z : float
}.

(* ================================================================== *)
(** * Fast transcendental approximations *)

(** The build selects one of two coefficient sets ([VERY_FAST_MATH] or
    [FAST_MATH]). *)
Inductive math_mode : Type := VERY_FAST_MATH | FAST_MATH.

Definition sinPolyCoef3_very_fast : float := Eval vm_compute in F32.of_decimal (-1666568107) (-10).
Definition sinPolyCoef5_very_fast : float := Eval vm_compute in F32.of_decimal 8312366210 (-12).
Definition sinPolyCoef7_very_fast : float := Eval vm_compute in F32.of_decimal (-1849218155) (-13).
Definition sinPolyCoef9_very_fast : float := Eval vm_compute in F32.of_int 0.

Definition sinPolyCoef3_fast : float := Eval vm_compute in F32.of_decimal (-1666665710) (-10).
Definition sinPolyCoef5_fast : float := Eval vm_compute in F32.of_decimal 8333017292 (-12).
Definition sinPolyCoef7_fast : float := Eval vm_compute in F32.of_decimal (-1980661520) (-13).
Definition sinPolyCoef9_fast : float := Eval vm_compute in F32.of_decimal 2600054768 (-15).

Definition sinPolyCoef3 (mode : math_mode) : float :=
  match mode with
  | VERY_FAST_MATH => sinPolyCoef3_very_fast
  | FAST_MATH => sinPolyCoef3_fast
  end.

Definition sinPolyCoef5 (mode : math_mode) : float :=
  match mode with
  | VERY_FAST_MATH => sinPolyCoef5_very_fast
  | FAST_MATH => sinPolyCoef5_fast
  end.

Definition sinPolyCoef7 (mode : math_mode) : float :=
  match mode with
  | VERY_FAST_MATH => sinPolyCoef7_very_fast
  | FAST_MATH => sinPolyCoef7_fast
  end.

Definition sinPolyCoef9 (mode : math_mode) : float :=
  match mode with
  | VERY_FAST_MATH => sinPolyCoef9_very_fast
  | FAST_MATH => sinPolyCoef9_fast
  end.

Definition two : float := Eval vm_compute in F32.of_decimal 20 (-1).
Definition half : float := Eval vm_compute in F32.of_decimal 5 (-1).
Definition one : float := Eval vm_compute in F32.of_decimal 10 (-1).

Definition TWO_PI : float := Eval vm_compute in F32.mul two M_PIf.
Definition HALF_PI : float := Eval vm_compute in F32.mul half M_PIf.

(** [while (x > M_PIf) x -= (2.0f * M_PIf);] with a bound on the number of
    iterations; [None] when the bound is exhausted with the loop still
    running. *)
Fixpoint wrap_above (fuel : nat) (x : float) : option float :=
  if F32.gt x M_PIf then
    match fuel with
    | O => None
    | S fuel' => wrap_above fuel' (F32.sub x TWO_PI)
    end
  else Some x.

(** [while (x < -M_PIf) x += (2.0f * M_PIf);] *)
Fixpoint wrap_below (fuel : nat) (x : float) : option float :=
  if F32.lt x (F32.neg M_PIf) then
    match fuel with
    | O => None
    | S fuel' => wrap_below fuel' (F32.add x TWO_PI)
    end
  else Some x.

Section Sine.

Variable mode : math_mode.
(** What an out-of-range conversion to [int32_t] delivers. *)
Variable oor : float -> Z.

(** The reflection into -90..+90 degrees and the polynomial. *)
Definition sin_poly (x : float) : float :=
  let x :=
    if F32.gt x HALF_PI then F32.sub HALF_PI (F32.sub x HALF_PI)
    else if F32.lt x (F32.neg HALF_PI)
         then F32.sub (F32.neg HALF_PI) (F32.add HALF_PI x)
         else x in
  let x2 := F32.mul x x in
  F32.add x
    (F32.mul (F32.mul x x2)
       (F32.add (sinPolyCoef3 mode)
          (F32.mul x2
             (F32.add (sinPolyCoef5 mode)
                (F32.mul x2
                   (F32.add (sinPolyCoef7 mode)
                      (F32.mul x2 (sinPolyCoef9 mode)))))))).

Definition sin_approx (fuel : nat) (x : float) : option float :=
  let xint := F32.to_int32 oor x in
  if (xint <? -32) || (xint >? 32) then Some F32.zero
  else
    match wrap_above fuel x with
    | None => None
    | Some x =>
        match wrap_below fuel x with
        | None => None
        | Some x => Some (sin_poly x)
        end
    end.

Definition cos_approx (fuel : nat) (x : float) : option float :=
  sin_approx fuel (F32.add x HALF_PI).

End Sine.

Definition atanPolyCoef1 : float := Eval vm_compute in F32.of_decimal 314551665884836 (-21).
Definition atanPolyCoef2 : float := Eval vm_compute in F32.of_decimal 99997356613987 (-14).
Definition atanPolyCoef3 : float := Eval vm_compute in F32.of_decimal 14744007058297684 (-17).
Definition atanPolyCoef4 : float := Eval vm_compute in F32.of_decimal 3099814292351353 (-16).
Definition atanPolyCoef5 : float := Eval vm_compute in F32.of_decimal 5030176425872175 (-17).
Definition atanPolyCoef6 : float := Eval vm_compute in F32.of_decimal 1471039133652469 (-16).
Definition atanPolyCoef7 : float := Eval vm_compute in F32.of_decimal 6444640676891548 (-16).

(** [atan2_approx], instrumented: the value returned, and the divisors of
    the divisions the call executes, in the order of execution. *)
Definition atan2_approx_run (y x : float) : float * list float :=
  let absX := F32.fabsf x in
  let absY := F32.fabsf y in
  let res := MAX absX absY in
  let '(res, divisors) :=
    if F32.ne res F32.zero
    then (F32.div (MIN absX absY) res, [res])
    else (F32.zero, []) in
  let denominator :=
    F32.add (F32.mul (F32.add (F32.mul atanPolyCoef7 res) atanPolyCoef6) res) one in
  let res :=
    F32.div
      (F32.neg
         (F32.sub
            (F32.mul
               (F32.sub
                  (F32.mul
                     (F32.sub
                        (F32.mul (F32.sub (F32.mul atanPolyCoef5 res) atanPolyCoef4) res)
                        atanPolyCoef3)
                     res)
                  atanPolyCoef2)
               res)
            atanPolyCoef1))
      denominator in
  let divisors := divisors ++ [denominator] in
  let res := if F32.gt absY absX then F32.sub (F32.div M_PIf two) res else res in
  let res := if F32.lt x F32.zero then F32.sub M_PIf res else res in
  let res := if F32.lt y F32.zero then F32.neg res else res in
  (res, divisors).

Definition atan2_approx (y x : float) : float := fst (atan2_approx_run y x).

(* ================================================================== *)
(** * Scalar utilities *)

Definition applyDeadband (value deadband : Z) : Z :=
  if ABS value <? deadband then 0
  else if value >=? 0 then Int.wrap32 (value - deadband)
       else Int.wrap32 (value + deadband).

Definition fapplyDeadband (value deadband : float) : float :=
  if F32.lt (F32.fabsf value) deadband then F32.zero
  else if F32.ge value F32.zero then F32.sub value deadband
       else F32.add value deadband.

(** The width of [long int] is fixed by the data model of the target:
    32 bits on the ILP32 microcontrollers, 64 bits on an LP64 host. *)
Inductive data_model : Type := ILP32 | LP64.

Definition LONG_BITS (dm : data_model) : Z :=
  match dm with ILP32 => 32 | LP64 => 64 end.

Definition scaleRange (dm : data_model) (x srcFrom srcTo destFrom destTo : Z) : Z :=
  let long := Int.wrap (LONG_BITS dm) in
  let a := long (long (destTo - destFrom) * long (x - srcFrom)) in
  let b := long (srcTo - srcFrom) in
  Int.wrap32 (long (long (Z.quot a b) + destFrom)).

Definition scaleRangef (x srcFrom srcTo destFrom destTo : float) : float :=
  let a := F32.mul (F32.sub destTo destFrom) (F32.sub x srcFrom) in
  let b := F32.sub srcTo srcFrom in
  F32.add (F32.div a b) destFrom.

(* ================================================================== *)
(** * Running statistics *)

Definition devClear (dev : stdev_t) : stdev_t :=
  {| m_oldM := m_oldM dev; m_newM := m_newM dev;
     m_oldS := m_oldS dev; m_newS := m_newS dev; m_n := 0 |}.

Definition devPush (dev : stdev_t) (x : float) : stdev_t :=
  let n := Int.wrap32 (m_n dev + 1) in
  if n =? 1 then
    {| m_oldM := x; m_newM := x; m_oldS := F32.zero; m_newS := m_newS dev; m_n := n |}
  else
    let newM := F32.add (m_oldM dev) (F32.div (F32.sub x (m_oldM dev)) (F32.of_int n)) in
    let newS := F32.add (m_oldS dev) (F32.mul (F32.sub x (m_oldM dev)) (F32.sub x newM)) in
    {| m_oldM := newM; m_newM := newM; m_oldS := newS; m_newS := newS; m_n := n |}.

Definition devVariance (dev : stdev_t) : float :=
  if m_n dev >? 1
  then F32.div (m_newS dev) (F32.of_int (Int.wrap32 (m_n dev - 1)))
  else F32.zero.

Definition devStandardDeviation (dev : stdev_t) : float :=
  F32.sqrtf (devVariance dev).

(** The accumulator after [devClear] and one [devPush] per sample. *)
Definition devPushAll (dev : stdev_t) (xs : list float) : stdev_t :=
  fold_left devPush xs (devClear dev).

(* ================================================================== *)
(** * Objects passed by address *)

(** The functions below receive pointers and write through them.  An
    address is either an object of the caller or a local variable of the
    running function; a heap gives the contents of every object. *)
Inductive ptr : Type :=
  | Caller (a : nat)
  | Frame (slot : nat).

Definition ptr_eqb (p q : ptr) : bool :=
  match p, q with
  | Caller a, Caller b => Nat.eqb a b
  | Frame a, Frame b => Nat.eqb a b
  | _, _ => false
  end.

Definition heap (A : Type) : Type := ptr -> A.

Definition write {A : Type} (p : ptr) (v : A) (h : heap A) : heap A :=
  fun p' => if ptr_eqb p' p then v else h p'.

(** Assignment to one field of the object at [p]. *)
Definition set_X (p : ptr) (a : float) (h : heap fp_vector) : heap fp_vector :=
  write p {| vec_X := a; vec_Y := vec_Y (h p); vec_Z := vec_Z (h p) |} h.
Definition set_Y (p : ptr) (a : float) (h : heap fp_vector) : heap fp_vector :=
  write p {| vec_X := vec_X (h p); vec_Y := a; vec_Z := vec_Z (h p) |} h.
Definition set_Z (p : ptr) (a : float) (h : heap fp_vector) : heap fp_vector :=
  write p {| vec_X := vec_X (h p); vec_Y := vec_Y (h p); vec_Z := a |} h.

Definition set_w (p : ptr) (a : float) (h : heap quaternion) : heap quaternion :=
  write p {| q_w := a; q_x := q_x (h p); q_y := q_y (h p); q_z := q_z (h p) |} h.
Definition set_x (p : ptr) (a : float) (h : heap quaternion) : heap quaternion :=
  write p {| q_w := q_w (h p); q_x := a; q_y := q_y (h p); q_z := q_z (h p) |} h.
Definition set_y (p : ptr) (a : float) (h : heap quaternion) : heap quaternion :=
  write p {| q_w := q_w (h p); q_x := q_x (h p); q_y := a; q_z := q_z (h p) |} h.
Definition set_z (p : ptr) (a : float) (h : heap quaternion) : heap quaternion :=
  write p {| q_w := q_w (h p); q_x := q_x (h p); q_y := q_y (h p); q_z := a |} h.

(* ================================================================== *)
(** * Vectors *)

(** The [length] that [normalizeV] computes for the vector at [src]. *)
Definition vector_length (v : fp_vector) : float :=
  F32.sqrtf
    (F32.add
       (F32.add (F32.mul (vec_X v) (vec_X v)) (F32.mul (vec_Y v) (vec_Y v)))
       (F32.mul (vec_Z v) (vec_Z v))).

Definition normalizeV (src dest : ptr) (h : heap fp_vector) : heap fp_vector :=
  let length := vector_length (h src) in
  if F32.ne length F32.zero then
    let h := set_X dest (F32.div (vec_X (h src)) length) h in
    let h := set_Y dest (F32.div (vec_Y (h src)) length) h in
    let h := set_Z dest (F32.div (vec_Z (h src)) length) h in
    h
  else h.

(* ================================================================== *)
(** * Quaternions *)

(** The four products that [quaternionMultiply] computes from its operands
    [l] and [r] before it writes the result. *)
Definition hamilton (l r : quaternion) : quaternion :=
  {| q_w :=
       F32.sub
         (F32.sub
            (F32.sub (F32.mul (q_w l) (q_w r)) (F32.mul (q_x l) (q_x r)))
            (F32.mul (q_y l) (q_y r)))
         (F32.mul (q_z l) (q_z r));
     q_x :=
       F32.sub
         (F32.add
            (F32.add (F32.mul (q_w l) (q_x r)) (F32.mul (q_x l) (q_w r)))
            (F32.mul (q_y l) (q_z r)))
         (F32.mul (q_z l) (q_y r));
     q_y :=
       F32.add
         (F32.add
            (F32.sub (F32.mul (q_w l) (q_y r)) (F32.mul (q_x l) (q_z r)))
            (F32.mul (q_y l) (q_w r)))
         (F32.mul (q_z l) (q_x r));
     q_z :=
       F32.add
         (F32.sub
            (F32.add (F32.mul (q_w l) (q_z r)) (F32.mul (q_x l) (q_y r)))
            (F32.mul (q_y l) (q_x r)))
         (F32.mul (q_z l) (q_w r)) |}.

Definition quaternionMultiply (l r o : ptr) (h : heap quaternion) : heap quaternion :=
  let w := q_w (hamilton (h l) (h r)) in
  let x := q_x (hamilton (h l) (h r)) in
  let y := q_y (hamilton (h l) (h r)) in
  let z := q_z (hamilton (h l) (h r)) in
  let h := set_w o w h in
  let h := set_x o x h in
  let h := set_y o y h in
  let h := set_z o z h in
  h.

(** The conjugate as a value: what [quaternionConjugate] leaves in [*o]. *)
Definition conjugate (q : quaternion) : quaternion :=
  {| q_w := q_w q; q_x := F32.neg (q_x q);
     q_y := F32.neg (q_y q); q_z := F32.neg (q_z q) |}.

Definition quaternionCopy (s d : ptr) (h : heap quaternion) : heap quaternion :=
  let h := set_w d (q_w (h s)) h in
  let h := set_x d (q_x (h s)) h in
  let h := set_y d (q_y (h s)) h in
  let h := set_z d (q_z (h s)) h in
  h.

Definition quaternionConjugate (i o : ptr) (h : heap quaternion) : heap quaternion :=
  let h := set_w o (q_w (h i)) h in
  let h := set_x o (F32.neg (q_x (h i))) h in
  let h := set_y o (F32.neg (q_y (h i))) h in
  let h := set_z o (F32.neg (q_z (h i))) h in
  h.

Definition quaternionNorm (q : ptr) (h : heap quaternion) : float :=
  F32.add
    (F32.add
       (F32.add (F32.mul (q_w (h q)) (q_w (h q))) (F32.mul (q_x (h q)) (q_x (h q))))
       (F32.mul (q_y (h q)) (q_y (h q))))
    (F32.mul (q_z (h q)) (q_z (h q))).

Definition quaternionModulus (q : ptr) (h : heap quaternion) : float :=
  F32.sqrtf (quaternionNorm q h).

Definition quaternionNormalize (q : ptr) (h : heap quaternion) : heap quaternion :=
  let modulus := quaternionModulus q h in
  if F32.eq modulus F32.zero then h
  else
    let h := set_w q (F32.div (q_w (h q)) modulus) h in
    let h := set_x q (F32.div (q_x (h q)) modulus) h in
    let h := set_y q (F32.div (q_y (h q)) modulus) h in
    let h := set_z q (F32.div (q_z (h q)) modulus) h in
    h.

Definition quaternionInitQuaternion (i : ptr) (h : heap quaternion) : heap quaternion :=
  let h := set_w i (F32.of_int 1) h in
  let h := set_x i (F32.of_int 0) h in
  let h := set_y i (F32.of_int 0) h in
  let h := set_z i (F32.of_int 0) h in
  h.

(** The two local quaternions of the frame transforms. *)
Definition qVectorBuffer : ptr := Frame 0.
Definition qReferenceConjugate : ptr := Frame 1.

Definition quaternionTransformVectorBodyToEarth
    (qVector qReference : ptr) (h : heap quaternion) : heap quaternion :=
  let h := set_w qVector (F32.of_int 0) h in
  let h := quaternionCopy qVector qVectorBuffer h in
  let h := quaternionConjugate qReference qReferenceConjugate h in
  let h := quaternionMultiply qReference qVectorBuffer qVectorBuffer h in
  let h := quaternionMultiply qVectorBuffer qReferenceConjugate qVector h in
  h.

Definition quaternionTransformVectorEarthToBody
    (qVector qReference : ptr) (h : heap quaternion) : heap quaternion :=
  let h := set_w qVector (F32.of_int 0) h in
  let h := quaternionCopy qVector qVectorBuffer h in
  let h := quaternionConjugate qReference qReferenceConjugate h in
  let h := quaternionMultiply qReferenceConjugate qVectorBuffer qVectorBuffer h in
  let h := quaternionMultiply qVectorBuffer qReference qVector h in
  h.

(* ================================================================== *)
(** * Median filters *)

(** An array of [int32_t] is a list; [p[i]] is [nth i p 0] and the
    assignment [p[i] = v] is [upd i v p]. *)
Fixpoint upd (i : nat) (v : Z) (p : list Z) : list Z :=
  match p, i with
  | [], _ => []
  | _ :: t, O => v :: t
  | a :: t, S i' => a :: upd i' v t
  end.

(** [QMF_SWAP(p[a], p[b])]: temp = p[a]; p[a] = p[b]; p[b] = temp. *)
Definition QMF_SWAP (a b : nat) (p : list Z) : list Z :=
  let temp := nth a p 0 in
  let p := upd a (nth b p 0) p in
  upd b temp p.

(** [QMF_SORT(p[a], p[b])]. *)
Definition QMF_SORT (a b : nat) (p : list Z) : list Z :=
  if nth a p 0 >? nth b p 0 then QMF_SWAP a b p else p.

(** [QMF_COPY(p, v, n)]: the first [n] elements of [v]. *)
Definition QMF_COPY (v : list Z) (n : nat) : list Z :=
  map (fun i => nth i v 0) (seq 0 n).

Definition quickMedianFilter3 (v : list Z) : Z :=
  let p := QMF_COPY v 3 in
  let p := QMF_SORT 0 1 p in
  let p := QMF_SORT 1 2 p in
  let p := QMF_SORT 0 1 p in
  nth 1 p 0.

Definition quickMedianFilter5 (v : list Z) : Z :=
  let p := QMF_COPY v 5 in
  let p := QMF_SORT 0 1 p in
  let p := QMF_SORT 3 4 p in
  let p := QMF_SORT 0 3 p in
  let p := QMF_SORT 1 4 p in
  let p := QMF_SORT 1 2 p in
  let p := QMF_SORT 2 3 p in
  let p := QMF_SORT 1 2 p in
  nth 2 p 0.

Definition quickMedianFilter7 (v : list Z) : Z :=
  let p := QMF_COPY v 7 in
  let p := QMF_SORT 0 5 p in
  let p := QMF_SORT 0 3 p in
  let p := QMF_SORT 1 6 p in
  let p := QMF_SORT 2 4 p in
  let p := QMF_SORT 0 1 p in
  let p := QMF_SORT 3 5 p in
  let p := QMF_SORT 2 6 p in
  let p := QMF_SORT 2 3 p in
  let p := QMF_SORT 3 6 p in
  let p := QMF_SORT 4 5 p in
  let p := QMF_SORT 1 4 p in
  let p := QMF_SORT 1 3 p in
  let p := QMF_SORT 3 4 p in
  nth 3 p 0.

Definition quickMedianFilter9 (v : list Z) : Z :=
  let p := QMF_COPY v 9 in
  let p := QMF_SORT 1 2 p in
  let p := QMF_SORT 4 5 p in
  let p := QMF_SORT 7 8 p in
  let p := QMF_SORT 0 1 p in
  let p := QMF_SORT 3 4 p in
  let p := QMF_SORT 6 7 p in
  let p := QMF_SORT 1 2 p in
  let p := QMF_SORT 4 5 p in
  let p := QMF_SORT 7 8 p in
  let p := QMF_SORT 0 3 p in
  let p := QMF_SORT 5 8 p in
  let p := QMF_SORT 4 7 p in
  let p := QMF_SORT 3 6 p in
  let p := QMF_SORT 1 4 p in
  let p := QMF_SORT 2 5 p in
  let p := QMF_SORT 4 7 p in
  let p := QMF_SORT 4 2 p in
  let p := QMF_SORT 6 4 p in
  let p := QMF_SORT 4 2 p in
  nth 4 p 0.

(** ** The median of the specification

    The elements in ascending order (insertion sort), and the middle one
    of them. *)
Fixpoint insert (x : Z) (l : list Z) : list Z :=
  match l with
  | [] => [x]
  | y :: t => if x <=? y then x :: y :: t else y :: insert x t
  end.

Fixpoint sort (l : list Z) : list Z :=
  match l with
  | [] => []
  | x :: t => insert x (sort t)
  end.

Definition median (l : list Z) : Z :=
  nth (Nat.div (length l) 2) (sort l) 0.

(** A comparator network run from a table of index pairs, for the proofs. *)
Definition network (net : list (nat * nat)) (p : list Z) : list Z :=
  fold_left (fun p ab => QMF_SORT (fst ab) (snd ab) p) net p.

Definition net3 : list (nat * nat) := [(0,1); (1,2); (0,1)]%nat.
Definition net5 : list (nat * nat) :=
  [(0,1); (3,4); (0,3); (1,4); (1,2); (2,3); (1,2)]%nat.
Definition net7 : list (nat * nat) :=
  [(0,5); (0,3); (1,6); (2,4); (0,1); (3,5); (2,6); (2,3); (3,6); (4,5);
   (1,4); (1,3); (3,4)]%nat.
Definition net9 : list (nat * nat) :=
  [(1,2); (4,5); (7,8); (0,1); (3,4); (6,7); (1,2); (4,5); (7,8); (0,3);
   (5,8); (4,7); (3,6); (1,4); (2,5); (4,7); (4,2); (6,4); (4,2)]%nat.

(** The two-valued image of an element under the threshold [t]. *)
Definition threshold (t x : Z) : Z := if t <=? x then 1 else 0.

(** All lists of zeros and ones of a given length. *)
Fixpoint bits (n : nat) : list (list Z) :=
  match n with
  | O => [[]]
  | S n' => map (cons 0) (bits n') ++ map (cons 1) (bits n')
  end.

(** The network [net] selects, on every list of [n] zeros and ones, the
    element of rank [k]. *)
Definition selects_on_bits (net : list (nat * nat)) (n k : nat) : bool :=
  forallb (fun b => nth k (network net b) 0 =? nth k (sort b) 0) (bits n).

Definition in_bounds (n : nat) (net : list (nat * nat)) : bool :=
  forallb (fun ab => Nat.ltb (fst ab) n && Nat.ltb (snd ab) n) net.

(* ================================================================== *)
(** * Notions used in the statements *)

(** The samples of the running-statistics example. *)
Definition samples : list float := map F32.of_int [2; 4; 4; 4; 5; 5; 7; 9].

(** The value [scaleRange] is meant to compute, in unbounded integers; the
    division truncates toward zero. *)
Definition scaled_exactly (x srcFrom srcTo destFrom destTo : Z) : Z :=
  Z.quot ((destTo - destFrom) * (x - srcFrom)) (srcTo - srcFrom) + destFrom.

Definition monotone (f : Z -> Z) : Prop := forall x y, x <= y -> f x <= f y.

(** The head of [l], when there is one, is not below [y]. *)
Definition head_ge (y : Z) (l : list Z) : Prop :=
  match l with [] => True | z :: _ => y <= z end.

Fixpoint ascending (l : list Z) : Prop :=
  match l with
  | [] => True
  | y :: t => head_ge y t /\ ascending t
  end.

(** A mantissa before rounding, with nothing shifted out yet. *)
Definition exact_rec (M : positive) : shr_record :=
  {| shr_m := Zpos M; shr_r := false; shr_s := false |}.

Definition is_zero (z : float) : Prop := exists s, z = S754_zero s.

(** [r] carries the value of [a]: the same number, or a zero for a zero. *)
Definition keeps (a r : float) : Prop :=
  (r = a /\ exists s m e, a = S754_finite s m e) \/ (is_zero r /\ is_zero a).

(** A finite number of the binary32 format. *)
Definition number (a : float) : Prop := F32.valid a = true /\ F32.finite a = true.

Definition number_quaternion (q : quaternion) : Prop :=
  number (q_w q) /\ number (q_x q) /\ number (q_y q) /\ number (q_z q).

(** Equality of quaternions as float values ([==] on every component). *)
Definition float_eq_quaternion (p q : quaternion) : Prop :=
  F32.eq (q_w p) (q_w q) = true /\ F32.eq (q_x p) (q_x q) = true /\
  F32.eq (q_y p) (q_y q) = true /\ F32.eq (q_z p) (q_z q) = true.

(** What [quaternionInitQuaternion] stores. *)
Definition identity_quaternion : quaternion :=
  {| q_w := one; q_x := F32.zero; q_y := F32.zero; q_z := F32.zero |}.

(* ================================================================== *)
(** * The other functions of maths.c *)

(** ** acos_approx *)

Definition acosCoef0 : float := Eval vm_compute in F32.of_decimal 15707288 (-7).
Definition acosCoef1 : float := Eval vm_compute in F32.of_decimal (-2121144) (-7).
Definition acosCoef2 : float := Eval vm_compute in F32.of_decimal 742610 (-7).
Definition acosCoef3 : float := Eval vm_compute in F32.of_decimal (-187293) (-7).

Definition acos_approx (x : float) : float :=
  let xa := F32.fabsf x in
  let result :=
    F32.mul (F32.sqrtf (F32.sub one xa))
      (F32.add acosCoef0
         (F32.mul xa
            (F32.add acosCoef1
               (F32.mul xa (F32.add acosCoef2 (F32.mul acosCoef3 xa)))))) in
  if F32.lt x F32.zero then F32.sub M_PIf result else result.

(** ** gcd

    The recursion, bounded by [fuel] calls; [None] when the bound is
    exhausted.  [%] is the remainder of the division that truncates toward
    zero. *)
Fixpoint gcd (fuel : nat) (num denom : Z) : option Z :=
  if denom =? 0 then Some num
  else
    match fuel with
    | O => None
    | S fuel' => gcd fuel' denom (Int.wrap32 (Z.rem num denom))
    end.

(** ** Fixed point with 12 fractional bits

    Modelled from the spec: [fix12_t] of maths.h (not among the sources), a
    signed fixed-point scalar with 12 fractional bits held in a 32-bit
    integer.  The results declared [int16_t] are converted by wrapping,
    [>>] on a negative number is the arithmetic shift, and [<< 12] is the
    multiplication by 2^12 in 32 bits. *)
Definition wrap16 : Z -> Z := Int.wrap 16.
Definition int16 : Z -> Prop := Int.in_range 16.

Definition qPercent (q : Z) : Z :=
  wrap16 (Z.shiftr (Int.wrap32 (100 * q)) 12).

Definition qMultiply (q input : Z) : Z :=
  wrap16 (Z.shiftr (Int.wrap32 (input * q)) 12).

Definition qConstruct (num den : Z) : Z :=
  Int.wrap32 (Z.quot (Int.wrap32 (Z.shiftl num 12)) den).

(** ** arraySubInt32

    The arrays live in a memory of [int32_t] cells addressed by integers;
    a pointer is the address of the first cell. *)
Definition imem : Type := Z -> Z.

Definition store_int (a v : Z) (m : imem) : imem :=
  fun a' => if a' =? a then v else m a'.

(** The iterations [i], [i + 1], ... of the loop, [n] of them. *)
Fixpoint arraySubInt32_from (n : nat) (i : Z) (dest array1 array2 : Z) (m : imem) : imem :=
  match n with
  | O => m
  | S n' =>
      arraySubInt32_from n' (i + 1) dest array1 array2
        (store_int (dest + i) (Int.wrap32 (m (array1 + i) - m (array2 + i))) m)
  end.

Definition arraySubInt32 (dest array1 array2 : Z) (count : Z) (m : imem) : imem :=
  arraySubInt32_from (Z.to_nat count) 0 dest array1 array2 m.

(** ** Rotation by Euler angles *)

(** Modelled from the spec: [fp_angles_t] of maths.h, the three angles
    roll, pitch and yaw. *)
Record fp_angles_t : Type := mk_angles {
  roll : float;
  pitch : float;
  yaw : float
}.

(** The array [float matrix[3][3]]: three rows, each indexed by the axes
    X, Y and Z. *)
Record matrix33 : Type := mk_matrix {
  row0 : fp_vector;
  row1 : fp_vector;
  row2 : fp_vector
}.

Notation "x <- e ;; k" :=
  (match e with Some x => k | None => None end)
  (at level 61, e at next level, right associativity).

Section Rotation.

Variable mode : math_mode.
Variable oor : float -> Z.
Variable fuel : nat.

Definition buildRotationMatrix (delta : fp_angles_t) : option matrix33 :=
  cosx <- cos_approx mode oor fuel (roll delta) ;;
  sinx <- sin_approx mode oor fuel (roll delta) ;;
  cosy <- cos_approx mode oor fuel (pitch delta) ;;
  siny <- sin_approx mode oor fuel (pitch delta) ;;
  cosz <- cos_approx mode oor fuel (yaw delta) ;;
  sinz <- sin_approx mode oor fuel (yaw delta) ;;
  let coszcosx := F32.mul cosz cosx in
  let sinzcosx := F32.mul sinz cosx in
  let coszsinx := F32.mul sinx cosz in
  let sinzsinx := F32.mul sinx sinz in
  Some
    {| row0 := {| vec_X := F32.mul cosz cosy;
                  vec_Y := F32.mul (F32.neg cosy) sinz;
                  vec_Z := siny |};
       row1 := {| vec_X := F32.add sinzcosx (F32.mul coszsinx siny);
                  vec_Y := F32.sub coszcosx (F32.mul sinzsinx siny);
                  vec_Z := F32.mul (F32.neg sinx) cosy |};
       row2 := {| vec_X := F32.sub sinzsinx (F32.mul coszcosx siny);
                  vec_Y := F32.add coszsinx (F32.mul sinzcosx siny);
                  vec_Z := F32.mul cosy cosx |} |}.

Definition rotateV (v : ptr) (delta : fp_angles_t) (h : heap fp_vector)
  : option (heap fp_vector) :=
  let v_tmp := h v in
  matrix <- buildRotationMatrix delta ;;
  let h :=
    set_X v
      (F32.add
         (F32.add (F32.mul (vec_X v_tmp) (vec_X (row0 matrix)))
                  (F32.mul (vec_Y v_tmp) (vec_X (row1 matrix))))
         (F32.mul (vec_Z v_tmp) (vec_X (row2 matrix)))) h in
  let h :=
    set_Y v
      (F32.add
         (F32.add (F32.mul (vec_X v_tmp) (vec_Y (row0 matrix)))
                  (F32.mul (vec_Y v_tmp) (vec_Y (row1 matrix))))
         (F32.mul (vec_Z v_tmp) (vec_Y (row2 matrix)))) h in
  let h :=
    set_Z v
      (F32.add
         (F32.add (F32.mul (vec_X v_tmp) (vec_Z (row0 matrix)))
                  (F32.mul (vec_Y v_tmp) (vec_Z (row1 matrix))))
         (F32.mul (vec_Z v_tmp) (vec_Z (row2 matrix)))) h in
  Some h.

End Rotation.

(** ** Median filters on floats *)

Fixpoint updF (i : nat) (v : float) (p : list float) : list float :=
  match p, i with
  | [], _ => []
  | _ :: t, O => v :: t
  | a :: t, S i' => a :: updF i' v t
  end.

(** [QMF_SWAPF(p[a], p[b])]. *)
Definition QMF_SWAPF (a b : nat) (p : list float) : list float :=
  let temp := nth a p F32.zero in
  let p := updF a (nth b p F32.zero) p in
  updF b temp p.

(** [QMF_SORTF(p[a], p[b])]. *)
Definition QMF_SORTF (a b : nat) (p : list float) : list float :=
  if F32.gt (nth a p F32.zero) (nth b p F32.zero) then QMF_SWAPF a b p else p.

(** [QMF_COPY(p, v, n)] on floats. *)
Definition QMF_COPYF (v : list float) (n : nat) : list float :=
  map (fun i => nth i v F32.zero) (seq 0 n).

Definition quickMedianFilter3f (v : list float) : float :=
  let p := QMF_COPYF v 3 in
  let p := QMF_SORTF 0 1 p in
  let p := QMF_SORTF 1 2 p in
  let p := QMF_SORTF 0 1 p in
  nth 1 p F32.zero.

Definition quickMedianFilter5f (v : list float) : float :=
  let p := QMF_COPYF v 5 in
  let p := QMF_SORTF 0 1 p in
  let p := QMF_SORTF 3 4 p in
  let p := QMF_SORTF 0 3 p in
  let p := QMF_SORTF 1 4 p in
  let p := QMF_SORTF 1 2 p in
  let p := QMF_SORTF 2 3 p in
  let p := QMF_SORTF 1 2 p in
  nth 2 p F32.zero.

Definition quickMedianFilter7f (v : list float) : float :=
  let p := QMF_COPYF v 7 in
  let p := QMF_SORTF 0 5 p in
  let p := QMF_SORTF 0 3 p in
  let p := QMF_SORTF 1 6 p in
  let p := QMF_SORTF 2 4 p in
  let p := QMF_SORTF 0 1 p in
  let p := QMF_SORTF 3 5 p in
  let p := QMF_SORTF 2 6 p in
  let p := QMF_SORTF 2 3 p in
  let p := QMF_SORTF 3 6 p in
  let p := QMF_SORTF 4 5 p in
  let p := QMF_SORTF 1 4 p in
  let p := QMF_SORTF 1 3 p in
  let p := QMF_SORTF 3 4 p in
  nth 3 p F32.zero.

Definition quickMedianFilter9f (v : list float) : float :=
  let p := QMF_COPYF v 9 in
  let p := QMF_SORTF 1 2 p in
  let p := QMF_SORTF 4 5 p in
  let p := QMF_SORTF 7 8 p in
  let p := QMF_SORTF 0 1 p in
  let p := QMF_SORTF 3 4 p in
  let p := QMF_SORTF 6 7 p in
  let p := QMF_SORTF 1 2 p in
  let p := QMF_SORTF 4 5 p in
  let p := QMF_SORTF 7 8 p in
  let p := QMF_SORTF 0 3 p in
  let p := QMF_SORTF 5 8 p in
  let p := QMF_SORTF 4 7 p in
  let p := QMF_SORTF 3 6 p in
  let p := QMF_SORTF 1 4 p in
  let p := QMF_SORTF 2 5 p in
  let p := QMF_SORTF 4 7 p in
  let p := QMF_SORTF 4 2 p in
  let p := QMF_SORTF 6 4 p in
  let p := QMF_SORTF 4 2 p in
  nth 4 p F32.zero.

(** The float network run from a table of index pairs, for the proofs. *)
Definition networkF (net : list (nat * nat)) (p : list float) : list float :=
  fold_left (fun p ab => QMF_SORTF (fst ab) (snd ab) p) net p.

(** ** More quaternion operations *)

Definition quaternionAdd (l r o : ptr) (h : heap quaternion) : heap quaternion :=
  let h := set_w o (F32.add (q_w (h l)) (q_w (h r))) h in
  let h := set_x o (F32.add (q_x (h l)) (q_x (h r))) h in
  let h := set_y o (F32.add (q_y (h l)) (q_y (h r))) h in
  let h := set_z o (F32.add (q_z (h l)) (q_z (h r))) h in
  h.

Definition quaternionDotProduct (l r : ptr) (h : heap quaternion) : float :=
  F32.add
    (F32.add
       (F32.add (F32.mul (q_w (h l)) (q_w (h r))) (F32.mul (q_x (h l)) (q_x (h r))))
       (F32.mul (q_y (h l)) (q_y (h r))))
    (F32.mul (q_z (h l)) (q_z (h r))).

Definition quaternionInitVector (i : ptr) (h : heap quaternion) : heap quaternion :=
  let h := set_w i (F32.of_int 0) h in
  let h := set_x i (F32.of_int 0) h in
  let h := set_y i (F32.of_int 0) h in
  let h := set_z i (F32.of_int 0) h in
  h.

(** ** The products of a quaternion's components *)

(** Modelled from the spec: [quaternionProducts] of maths.h (not among the
    sources), ten floats: the pairwise products ww, wx, wy, wz, xx, xy, xz,
    yy, yz, zz of the components of a quaternion. *)
Record quaternionProducts : Type := mk_products {
  p_ww : float;
  p_wx : float;
  p_wy : float;
  p_wz : float;
  p_xx : float;
  p_xy : float;
  p_xz : float;
  p_yy : float;
  p_yz : float;
  p_zz : float
}.

(** The ten assignments go to the ten fields of [*qPout], an object of
    another type than [*qIn], so that none of them changes what a later
    one reads; together they overwrite the whole of [*qPout]. *)
Definition quaternionComputeProducts (qIn qPout : ptr)
    (h : heap quaternion) (hp : heap quaternionProducts) : heap quaternionProducts :=
  write qPout
    {| p_ww := F32.mul (q_w (h qIn)) (q_w (h qIn));
       p_wx := F32.mul (q_w (h qIn)) (q_x (h qIn));
       p_wy := F32.mul (q_w (h qIn)) (q_y (h qIn));
       p_wz := F32.mul (q_w (h qIn)) (q_z (h qIn));
       p_xx := F32.mul (q_x (h qIn)) (q_x (h qIn));
       p_xy := F32.mul (q_x (h qIn)) (q_y (h qIn));
       p_xz := F32.mul (q_x (h qIn)) (q_z (h qIn));
       p_yy := F32.mul (q_y (h qIn)) (q_y (h qIn));
       p_yz := F32.mul (q_y (h qIn)) (q_z (h qIn));
       p_zz := F32.mul (q_z (h qIn)) (q_z (h qIn)) |} hp.

(* ================================================================== *)
(** * More notions used in the statements *)

(** The sign and kind of a result that is not a NaN: a zero, a finite
    number or an infinity of sign [s]. *)
Definition signed_as (s : bool) (x : float) : Prop :=
  x = S754_zero s \/ (exists m e, x = S754_finite s m e) \/ x = S754_infinity s.

(** The position of a float in the order of [<], as an integer: the exact
    value in units of 2^-149, with the infinities beyond every finite
    number. *)
Definition rank (x : float) : Z :=
  match x with
  | S754_infinity s => if s then - 2 ^ 300 else 2 ^ 300
  | _ => F32.scaled x
  end.

(** A value of the format that is not a NaN. *)
Definition ordered (x : float) : Prop := F32.valid x = true /\ F32.is_nan x = false.

(** The guard of [sin_approx] stops at [x]: its conversion to [int32_t]
    is below -32 or above 32. *)
Definition rejected (oor : float -> Z) (x : float) : Prop :=
  F32.to_int32 oor x < -32 \/ 32 < F32.to_int32 oor x.

(** What holds of the accumulator after [k] pushes of the same value [x]:
    the count is [k], the two means agree and carry the value of [x], and
    the sums of squared deviations are +0 (the new one from the second
    push on, the first push does not write it). *)
Definition constant_state (x : float) (k : Z) (d : stdev_t) : Prop :=
  m_n d = k /\ keeps x (m_oldM d) /\ m_newM d = m_oldM d /\
  m_oldS d = F32.zero /\ (2 <= k -> m_newS d = F32.zero).

(** No component is a NaN. *)
Definition nan_free (q : quaternion) : Prop :=
  F32.is_nan (q_w q) = false /\ F32.is_nan (q_x q) = false /\
  F32.is_nan (q_y q) = false /\ F32.is_nan (q_z q) = false.

(** Every component is a zero or a finite number. *)
Definition finite_quaternion (q : quaternion) : Prop :=
  F32.finite (q_w q) = true /\ F32.finite (q_x q) = true /\
  F32.finite (q_y q) = true /\ F32.finite (q_z q) = true.

(** A magnitude of at least 2^-74: the square of such a number does not
    underflow to zero. *)
Definition not_tiny (x : float) : Prop := 2 ^ 75 <= Z.abs (F32.scaled x).

(** A number other than zero, of sign [s] and with an exponent of the
    format, or the infinity of sign [s]. *)
Definition signed_nonzero (s : bool) (x : float) : Prop :=
  (exists m e, x = S754_finite s m e /\ -149 <= e) \/ x = S754_infinity s.

(** What rounding a magnitude with the sign [s] can give: the zero of that
    sign, or a number or infinity as above. *)
Definition rounded (s : bool) (x : float) : Prop :=
  x = S754_zero s \/ signed_nonzero s x.

(* ================================================================== *)
(** * Median filters: the zero-one principle *)

Section Networks.

Lemma upd_length i v p : length (upd i v p) = length p.
Proof.
  revert i; induction p as [|a t IH]; intros [|i]; simpl; auto.
Qed.

Lemma nth_upd_same i v p : (i < length p)%nat -> nth i (upd i v p) 0 = v.
Proof.
  revert i; induction p as [|a t IH]; intros [|i] H; simpl in *; try lia; auto.
  apply IH; lia.
Qed.

Lemma nth_upd_other i j v p : i <> j -> nth j (upd i v p) 0 = nth j p 0.
Proof.
  revert i j; induction p as [|a t IH]; intros [|i] [|j] H; simpl; auto; try congruence.
Qed.

Lemma upd_nth_id i v p : nth i p 0 = v -> upd i v p = p.
Proof.
  revert i; induction p as [|a t IH]; intros [|i] H; simpl in *; auto.
  - congruence.
  - f_equal; auto.
Qed.

Lemma map_upd f i v p : map f (upd i v p) = upd i (f v) (map f p).
Proof.
  revert i; induction p as [|a t IH]; intros [|i]; simpl; auto.
  f_equal; apply IH.
Qed.

Lemma nth_map_lt f i p : (i < length p)%nat -> nth i (map f p) 0 = f (nth i p 0).
Proof.
  intros H. rewrite (nth_indep _ 0 (f 0)) by (rewrite length_map; exact H).
  apply map_nth.
Qed.

Lemma QMF_SWAP_length a b p : length (QMF_SWAP a b p) = length p.
Proof. unfold QMF_SWAP. now rewrite !upd_length. Qed.

Lemma QMF_SORT_length a b p : length (QMF_SORT a b p) = length p.
Proof.
  unfold QMF_SORT. destruct (_ >? _); auto using QMF_SWAP_length.
Qed.

Lemma QMF_SWAP_map f a b p :
  (a < length p)%nat -> (b < length p)%nat ->
  QMF_SWAP a b (map f p) = map f (QMF_SWAP a b p).
Proof.
  intros Ha Hb. unfold QMF_SWAP.
  rewrite !map_upd, !nth_map_lt by assumption. reflexivity.
Qed.

Lemma QMF_SWAP_equal a b p :
  nth a p 0 = nth b p 0 -> QMF_SWAP a b p = p.
Proof.
  intros E. unfold QMF_SWAP.
  rewrite (upd_nth_id a) by exact E.
  apply upd_nth_id. symmetry; exact E.
Qed.

Lemma QMF_SORT_map f a b p :
  monotone f -> (a < length p)%nat -> (b < length p)%nat ->
  QMF_SORT a b (map f p) = map f (QMF_SORT a b p).
Proof.
  intros Hf Ha Hb. unfold QMF_SORT.
  rewrite !nth_map_lt by assumption.
  destruct (Z.gtb_spec (nth a p 0) (nth b p 0)) as [Hgt|Hle];
    destruct (Z.gtb_spec (f (nth a p 0)) (f (nth b p 0))) as [Hfgt|Hfle].
  - now apply QMF_SWAP_map.
  - assert (E : f (nth a p 0) = f (nth b p 0)).
    { apply Z.le_antisymm; [exact Hfle | apply Hf; lia]. }
    rewrite <- QMF_SWAP_map by assumption.
    symmetry. apply QMF_SWAP_equal.
    now rewrite !nth_map_lt by assumption.
  - specialize (Hf _ _ Hle). lia.
  - reflexivity.
Qed.

Lemma network_length net p : length (network net p) = length p.
Proof.
  unfold network. revert p; induction net as [|[a b] net IH]; intros p; simpl; auto.
  rewrite IH. apply QMF_SORT_length.
Qed.

Lemma network_map f net p :
  monotone f -> in_bounds (length p) net = true ->
  network net (map f p) = map f (network net p).
Proof.
  intros Hf. unfold network. revert p.
  induction net as [|[a b] net IH]; intros p Hb; simpl in *; auto.
  apply andb_prop in Hb as [Hab Hb]. apply andb_prop in Hab as [Ha Hb'].
  apply Nat.ltb_lt in Ha, Hb'.
  rewrite QMF_SORT_map by assumption.
  apply IH. now rewrite QMF_SORT_length.
Qed.


Lemma threshold_monotone t : monotone (threshold t).
Proof.
  intros x y H. unfold threshold.
  destruct (Z.leb_spec t x), (Z.leb_spec t y); lia.
Qed.

Lemma threshold_bit t x : threshold t x = 0 \/ threshold t x = 1.
Proof. unfold threshold. destruct (t <=? x); auto. Qed.

Lemma insert_head_ge y x l : y <= x -> head_ge y l -> head_ge y (insert x l).
Proof.
  destruct l as [|z t]; simpl; intros; auto.
  destruct (x <=? z); simpl; auto.
Qed.

Lemma insert_ascending x l : ascending l -> ascending (insert x l).
Proof.
  induction l as [|y t IH]; simpl; intros H; auto.
  destruct H as [Hh Ht].
  destruct (Z.leb_spec x y); simpl; auto.
  split; [apply insert_head_ge; [lia | exact Hh] | auto].
Qed.

Lemma sort_ascending l : ascending (sort l).
Proof. induction l; simpl; auto using insert_ascending. Qed.

Lemma insert_length x l : length (insert x l) = S (length l).
Proof.
  induction l as [|y t IH]; simpl; auto.
  destruct (x <=? y); simpl; auto.
Qed.

Lemma sort_length l : length (sort l) = length l.
Proof. induction l; simpl; auto. rewrite insert_length; auto. Qed.

Lemma insert_front x l : head_ge x l -> insert x l = x :: l.
Proof.
  destruct l as [|z t]; simpl; auto.
  intros H. destruct (Z.leb_spec x z); auto; lia.
Qed.

Lemma head_ge_map f y l : monotone f -> head_ge y l -> head_ge (f y) (map f l).
Proof. destruct l; simpl; auto. Qed.

Lemma insert_map f x l :
  monotone f -> ascending l -> insert (f x) (map f l) = map f (insert x l).
Proof.
  intros Hf. induction l as [|y t IH]; simpl; intros H; auto.
  destruct H as [Hh Ht].
  destruct (Z.leb_spec x y) as [Hxy|Hxy];
    destruct (Z.leb_spec (f x) (f y)) as [Hf1|Hf1]; simpl.
  - reflexivity.
  - specialize (Hf _ _ Hxy). lia.
  - assert (E : f x = f y) by (apply Z.le_antisymm; [exact Hf1 | apply Hf; lia]).
    rewrite <- IH by exact Ht.
    rewrite insert_front.
    + now rewrite E.
    + rewrite E. now apply head_ge_map.
  - now rewrite IH.
Qed.

Lemma sort_map f l : monotone f -> sort (map f l) = map f (sort l).
Proof.
  intros Hf. induction l as [|x t IH]; simpl; auto.
  rewrite IH. apply insert_map; auto using sort_ascending.
Qed.

Lemma bits_complete l :
  Forall (fun x => x = 0 \/ x = 1) l -> In l (bits (length l)).
Proof.
  induction 1 as [|x t Hx Ht IH]; simpl; auto.
  apply in_or_app. destruct Hx as [-> | ->]; [left | right]; now apply in_map.
Qed.

Lemma map_threshold_bits t l : In (map (threshold t) l) (bits (length l)).
Proof.
  rewrite <- (length_map (threshold t)). apply bits_complete.
  apply Forall_forall. intros x Hx. apply in_map_iff in Hx as [y [<- _]].
  apply threshold_bit.
Qed.

(** Zero-one principle for selection: a comparator network that selects
    the element of rank [k] on all lists of zeros and ones selects it on
    all lists. *)
Lemma network_selects net n k l :
  selects_on_bits net n k = true -> in_bounds n net = true ->
  length l = n -> (k < n)%nat ->
  nth k (network net l) 0 = nth k (sort l) 0.
Proof.
  intros Hsel Hb Hlen Hk. subst n.
  assert (T : forall t, threshold t (nth k (network net l) 0)
                        = threshold t (nth k (sort l) 0)).
  { intros t.
    rewrite <- (nth_map_lt (threshold t)) by (now rewrite network_length).
    rewrite <- (nth_map_lt (threshold t) k (sort l)) by (now rewrite sort_length).
    rewrite <- network_map by auto using threshold_monotone.
    rewrite <- sort_map by apply threshold_monotone.
    unfold selects_on_bits in Hsel. rewrite forallb_forall in Hsel.
    apply Z.eqb_eq, Hsel, map_threshold_bits. }
  pose proof (T (nth k (network net l) 0)) as T1.
  pose proof (T (nth k (sort l) 0)) as T2.
  unfold threshold in T1, T2.
  rewrite Z.leb_refl in T1, T2.
  destruct (Z.leb_spec (nth k (network net l) 0) (nth k (sort l) 0));
    destruct (Z.leb_spec (nth k (sort l) 0) (nth k (network net l) 0)); lia.
Qed.

Lemma QMF_COPY_all v : QMF_COPY v (length v) = v.
Proof.
  unfold QMF_COPY. apply nth_ext with (d := 0) (d' := 0).
  - now rewrite length_map, length_seq.
  - intros i Hi. rewrite length_map, length_seq in Hi.
    rewrite (nth_indep _ 0 (nth 0 v 0)) by (now rewrite length_map, length_seq).
    rewrite (map_nth (fun i => nth i v 0) (seq 0 (length v)) 0%nat i).
    now rewrite seq_nth.
Qed.

Lemma net3_ok : selects_on_bits net3 3 1 = true. Proof. vm_compute. reflexivity. Qed.
Lemma net5_ok : selects_on_bits net5 5 2 = true. Proof. vm_compute. reflexivity. Qed.
Lemma net7_ok : selects_on_bits net7 7 3 = true. Proof. vm_compute. reflexivity. Qed.
Lemma net9_ok : selects_on_bits net9 9 4 = true. Proof. vm_compute. reflexivity. Qed.

Lemma filter_selects net n k v :
  selects_on_bits net n k = true -> in_bounds n net = true ->
  length v = n -> (k < n)%nat ->
  nth k (network net (QMF_COPY v n)) 0 = nth k (sort v) 0.
Proof.
  intros Hs Hb Hl Hk. subst n. rewrite QMF_COPY_all.
  now apply (network_selects net (length v) k).
Qed.

Lemma in_bounds_nets :
  in_bounds 3 net3 = true /\ in_bounds 5 net5 = true /\
  in_bounds 7 net7 = true /\ in_bounds 9 net9 = true.
Proof. repeat split; vm_compute; reflexivity. Qed.

Lemma quickMedianFilter3_network v :
  quickMedianFilter3 v = nth 1 (network net3 (QMF_COPY v 3)) 0.
Proof. cbv [quickMedianFilter3 network net3 fold_left fst snd]. reflexivity. Qed.

Lemma quickMedianFilter5_network v :
  quickMedianFilter5 v = nth 2 (network net5 (QMF_COPY v 5)) 0.
Proof. cbv [quickMedianFilter5 network net5 fold_left fst snd]. reflexivity. Qed.

Lemma quickMedianFilter7_network v :
  quickMedianFilter7 v = nth 3 (network net7 (QMF_COPY v 7)) 0.
Proof. cbv [quickMedianFilter7 network net7 fold_left fst snd]. reflexivity. Qed.

Lemma quickMedianFilter9_network v :
  quickMedianFilter9 v = nth 4 (network net9 (QMF_COPY v 9)) 0.
Proof. cbv [quickMedianFilter9 network net9 fold_left fst snd]. reflexivity. Qed.


(** [sort] really sorts: its result is ascending and has the elements of
    its argument. *)
Lemma insert_permutation x l : Permutation (x :: l) (insert x l).
Proof.
  induction l as [|y t IH]; simpl; auto.
  destruct (x <=? y); auto.
  eapply perm_trans; [apply perm_swap|]. now apply perm_skip.
Qed.

Lemma sort_permutation l : Permutation l (sort l).
Proof.
  induction l as [|x t IH]; simpl; auto.
  eapply perm_trans; [apply perm_skip, IH | apply insert_permutation].
Qed.

End Networks.

(** Claim C1.  For N = 3, 5, 7 and 9 and every array of N [int32_t] values,
    duplicates included, [quickMedianFilterN] returns the median of the N
    values: the middle element of the values in ascending order.  On
    [5; 3; 1; 4; 2] [quickMedianFilter5] returns 3.  (The comparisons do no
    arithmetic, so the statement holds for all integers, the 32-bit ones
    among them.) *)
Theorem median_filters_correct :
  (forall v, length v = 3%nat -> quickMedianFilter3 v = median v) /\
  (forall v, length v = 5%nat -> quickMedianFilter5 v = median v) /\
  (forall v, length v = 7%nat -> quickMedianFilter7 v = median v) /\
  (forall v, length v = 9%nat -> quickMedianFilter9 v = median v) /\
  quickMedianFilter5 [5; 3; 1; 4; 2] = 3.
Proof.
  destruct in_bounds_nets as (B3 & B5 & B7 & B9).
  split; [|split; [|split; [|split]]].
  - intros v H. rewrite quickMedianFilter3_network. unfold median. rewrite H.
    apply filter_selects; [exact net3_ok | exact B3 | exact H | apply Nat.ltb_lt; reflexivity].
  - intros v H. rewrite quickMedianFilter5_network. unfold median. rewrite H.
    apply filter_selects; [exact net5_ok | exact B5 | exact H | apply Nat.ltb_lt; reflexivity].
  - intros v H. rewrite quickMedianFilter7_network. unfold median. rewrite H.
    apply filter_selects; [exact net7_ok | exact B7 | exact H | apply Nat.ltb_lt; reflexivity].
  - intros v H. rewrite quickMedianFilter9_network. unfold median. rewrite H.
    apply filter_selects; [exact net9_ok | exact B9 | exact H | apply Nat.ltb_lt; reflexivity].
  - vm_compute. reflexivity.
Qed.

(** The theorem at two arrays, one with a repeated value. *)
Lemma median_filters_correct_witness :
  quickMedianFilter3 [7; 7; 1] = median [7; 7; 1] /\
  quickMedianFilter9 [9; 1; 8; 2; 7; 3; 6; 4; 5] = median [9; 1; 8; 2; 7; 3; 6; 4; 5].
Proof.
  split.
  - apply (proj1 median_filters_correct). reflexivity.
  - apply (proj1 (proj2 (proj2 (proj2 median_filters_correct)))). reflexivity.
Defined.

(* ================================================================== *)
(** * Objects passed by address: reading after writing *)

Lemma ptr_eqb_refl p : ptr_eqb p p = true.
Proof. destruct p; simpl; apply Nat.eqb_refl. Qed.

Lemma ptr_eqb_eq p q : ptr_eqb p q = true <-> p = q.
Proof.
  destruct p, q; simpl; split; intros H; try discriminate;
    try (apply Nat.eqb_eq in H; now subst);
    injection H as ->; apply Nat.eqb_refl.
Qed.

Lemma write_same {A} p (v : A) h : write p v h p = v.
Proof. unfold write. now rewrite ptr_eqb_refl. Qed.

Lemma write_other {A} p q (v : A) h : q <> p -> write p v h q = h q.
Proof.
  intros H. unfold write. destruct (ptr_eqb q p) eqn:E; auto.
  apply ptr_eqb_eq in E. contradiction.
Qed.

Lemma set_w_at p a h : set_w p a h p = {| q_w := a; q_x := q_x (h p); q_y := q_y (h p); q_z := q_z (h p) |}.
Proof. unfold set_w. apply write_same. Qed.
Lemma set_x_at p a h : set_x p a h p = {| q_w := q_w (h p); q_x := a; q_y := q_y (h p); q_z := q_z (h p) |}.
Proof. unfold set_x. apply write_same. Qed.
Lemma set_y_at p a h : set_y p a h p = {| q_w := q_w (h p); q_x := q_x (h p); q_y := a; q_z := q_z (h p) |}.
Proof. unfold set_y. apply write_same. Qed.
Lemma set_z_at p a h : set_z p a h p = {| q_w := q_w (h p); q_x := q_x (h p); q_y := q_y (h p); q_z := a |}.
Proof. unfold set_z. apply write_same. Qed.
Lemma set_x_other p a h q : q <> p -> set_x p a h q = h q.
Proof. intros H. unfold set_x. now rewrite write_other. Qed.
Lemma set_y_other p a h q : q <> p -> set_y p a h q = h q.
Proof. intros H. unfold set_y. now rewrite write_other. Qed.
Lemma set_z_other p a h q : q <> p -> set_z p a h q = h q.
Proof. intros H. unfold set_z. now rewrite write_other. Qed.
Lemma set_w_other p a h q : q <> p -> set_w p a h q = h q.
Proof. intros H. unfold set_w. now rewrite write_other. Qed.

Lemma quaternionMultiply_at l r o h :
  quaternionMultiply l r o h o = hamilton (h l) (h r).
Proof.
  unfold quaternionMultiply.
  rewrite set_z_at, set_y_at, set_x_at, set_w_at. simpl. reflexivity.
Qed.

Lemma quaternionMultiply_other l r o h p :
  p <> o -> quaternionMultiply l r o h p = h p.
Proof.
  intros H. unfold quaternionMultiply.
  now rewrite set_z_other, set_y_other, set_x_other, set_w_other by exact H.
Qed.

Lemma quaternionCopy_at s d h : quaternionCopy s d h d = h s.
Proof.
  unfold quaternionCopy.
  rewrite set_z_at, set_y_at, set_x_at, set_w_at. simpl.
  destruct (ptr_eqb s d) eqn:E.
  - apply ptr_eqb_eq in E. subst.
    rewrite set_y_at, !set_x_at, !set_w_at. simpl. now destruct (h d).
  - assert (N : s <> d) by (intros ->; now rewrite ptr_eqb_refl in E).
    rewrite !set_y_other, !set_x_other, !set_w_other by exact N. now destruct (h s).
Qed.

Lemma quaternionCopy_other s d h p : p <> d -> quaternionCopy s d h p = h p.
Proof.
  intros H. unfold quaternionCopy.
  now rewrite set_z_other, set_y_other, set_x_other, set_w_other by exact H.
Qed.

Lemma quaternionConjugate_at i o h : quaternionConjugate i o h o = conjugate (h i).
Proof.
  unfold quaternionConjugate, conjugate.
  rewrite set_z_at, set_y_at, set_x_at, set_w_at. simpl.
  destruct (ptr_eqb i o) eqn:E.
  - apply ptr_eqb_eq in E. subst.
    rewrite set_y_at, !set_x_at, !set_w_at. reflexivity.
  - assert (N : i <> o) by (intros ->; now rewrite ptr_eqb_refl in E).
    now rewrite !set_y_other, !set_x_other, !set_w_other by exact N.
Qed.

Lemma quaternionConjugate_other i o h p : p <> o -> quaternionConjugate i o h p = h p.
Proof.
  intros H. unfold quaternionConjugate.
  now rewrite set_z_other, set_y_other, set_x_other, set_w_other by exact H.
Qed.


Ltac heap_simpl :=
  repeat first
    [ rewrite quaternionMultiply_at
    | rewrite quaternionConjugate_at
    | rewrite quaternionCopy_at
    | rewrite quaternionMultiply_other by (discriminate || assumption)
    | rewrite quaternionConjugate_other by (discriminate || assumption)
    | rewrite quaternionCopy_other by (discriminate || assumption)
    | rewrite set_w_other by (discriminate || assumption) ].

Lemma ptr_cases (p q : ptr) : p = q \/ p <> q.
Proof.
  destruct (ptr_eqb p q) eqn:E.
  - left. now apply ptr_eqb_eq.
  - right. intros ->. now rewrite ptr_eqb_refl in E.
Qed.


(* ================================================================== *)
(** * Frame transforms *)

(** Claim C3.  [quaternionTransformVectorBodyToEarth] first overwrites the
    [w] field of the vector argument with 0 (the other fields keep their
    values), then leaves in the vector argument the product
    qReference * v * conjugate(qReference); [quaternionTransformVectorEarthToBody]
    forces [w] to 0 likewise and leaves conjugate(qReference) * v * qReference.
    The products are those of [quaternionMultiply] ([hamilton]), taken from
    the left, and [v] and [qReference] are read after the overwrite, so the
    statement covers a reference that is the vector itself.  No other object
    of the caller changes. *)
Theorem frame_transforms (a b : nat) (h : heap quaternion) :
  let qVector := Caller a in
  let qReference := Caller b in
  let h0 := set_w qVector F32.zero h in
  (q_w (h0 qVector) = F32.zero /\ q_x (h0 qVector) = q_x (h qVector) /\
   q_y (h0 qVector) = q_y (h qVector) /\ q_z (h0 qVector) = q_z (h qVector)) /\
  quaternionTransformVectorBodyToEarth qVector qReference h qVector
    = hamilton (hamilton (h0 qReference) (h0 qVector)) (conjugate (h0 qReference)) /\
  quaternionTransformVectorEarthToBody qVector qReference h qVector
    = hamilton (hamilton (conjugate (h0 qReference)) (h0 qVector)) (h0 qReference) /\
  (forall c, c <> a ->
     quaternionTransformVectorBodyToEarth qVector qReference h (Caller c) = h (Caller c) /\
     quaternionTransformVectorEarthToBody qVector qReference h (Caller c) = h (Caller c)).
Proof.
  intros qVector qReference h0.
  split; [|split; [|split]].
  - unfold h0. rewrite set_w_at. simpl. auto.
  - unfold quaternionTransformVectorBodyToEarth, qVectorBuffer, qReferenceConjugate.
    change (F32.of_int 0) with F32.zero. fold h0.
    unfold qVector, qReference. heap_simpl. reflexivity.
  - unfold quaternionTransformVectorEarthToBody, qVectorBuffer, qReferenceConjugate.
    change (F32.of_int 0) with F32.zero. fold h0.
    unfold qVector, qReference. heap_simpl. reflexivity.
  - intros c Hc.
    assert (Hp : Caller c <> Caller a) by congruence.
    unfold quaternionTransformVectorBodyToEarth, quaternionTransformVectorEarthToBody,
      qVectorBuffer, qReferenceConjugate, qVector, qReference.
    heap_simpl. auto.
Qed.

(** The theorem at a vector, a distinct reference and a third object. *)
Lemma frame_transforms_witness :
  let h : heap quaternion :=
    fun p => match p with
             | Caller 0 => {| q_w := one; q_x := one; q_y := two; q_z := half |}
             | _ => {| q_w := half; q_x := half; q_y := half; q_z := half |}
             end in
  quaternionTransformVectorBodyToEarth (Caller 0) (Caller 1) h (Caller 2) = h (Caller 2) /\
  quaternionTransformVectorEarthToBody (Caller 0) (Caller 1) h (Caller 2) = h (Caller 2).
Proof.
  intros h.
  apply (proj2 (proj2 (proj2 (frame_transforms 0 1 h))) 2%nat).
  discriminate.
Defined.

(* ================================================================== *)
(** * Running statistics *)

Lemma wrap32_id z : Int.int32 z -> Int.wrap32 z = z.
Proof.
  unfold Int.int32, Int.in_range, Int.wrap32, Int.wrap. simpl.
  intros H. rewrite Z.mod_small; lia.
Qed.

Lemma devPush_count dev x :
  0 <= m_n dev < 2 ^ 31 - 1 -> m_n (devPush dev x) = m_n dev + 1.
Proof.
  intros H. unfold devPush.
  rewrite wrap32_id by (unfold Int.int32, Int.in_range; simpl; lia).
  destruct (m_n dev + 1 =? 1); reflexivity.
Qed.

Lemma fold_devPush_count xs : forall dev,
  0 <= m_n dev -> m_n dev + Z.of_nat (length xs) < 2 ^ 31 ->
  m_n (fold_left devPush xs dev) = m_n dev + Z.of_nat (length xs).
Proof.
  induction xs as [|x xs IH]; intros dev H0 H; simpl length in *.
  - simpl. lia.
  - simpl fold_left. rewrite IH; rewrite devPush_count; lia.
Qed.

Lemma devPushAll_count dev xs :
  Z.of_nat (length xs) < 2 ^ 31 ->
  m_n (devPushAll dev xs) = Z.of_nat (length xs).
Proof.
  intros H. unfold devPushAll. rewrite fold_devPush_count; simpl; lia.
Qed.

Lemma devPush_accumulator dev x :
  1 <= m_n dev < 2 ^ 31 - 1 -> m_newS (devPush dev x) = m_oldS (devPush dev x).
Proof.
  intros H. unfold devPush.
  rewrite wrap32_id by (unfold Int.int32, Int.in_range; simpl; lia).
  destruct (Z.eqb_spec (m_n dev + 1) 1); [lia | reflexivity].
Qed.

Lemma devPushAll_accumulator dev xs :
  2 <= Z.of_nat (length xs) < 2 ^ 31 ->
  m_newS (devPushAll dev xs) = m_oldS (devPushAll dev xs).
Proof.
  intros H. destruct (exists_last (l := xs)) as (ys & y & ->).
  { intros ->. simpl in H. lia. }
  rewrite length_app in H. simpl in H.
  unfold devPushAll. rewrite fold_left_app. simpl.
  apply devPush_accumulator.
  fold (devPushAll dev ys). rewrite devPushAll_count; lia.
Qed.

(** Claim C4.  [devVariance] is 0 when the count is at most 1 and otherwise
    the accumulator [m_newS] divided by (count - 1).  After [devClear] and
    any sequence of [devPush] calls (fewer than 2^31, the range of the
    counter) the count is the number of samples, the variance is 0 for no
    sample or one sample, and for two or more it is the sum-of-squared-
    deviations accumulator (old and new copy agree) divided by (count - 1).
    Pushing 2, 4, 4, 4, 5, 5, 7, 9 gives a variance of 9586981 * 2^-21
    (4.5714288), within 0.0005 of 4.571, and a standard deviation of
    8967799 * 2^-22 (2.138105), within 0.0005 of 2.138. *)
Theorem devVariance_spec :
  (forall dev,
     Int.int32 (m_n dev) ->
     devVariance dev =
       if m_n dev >? 1 then F32.div (m_newS dev) (F32.of_int (m_n dev - 1)) else F32.zero) /\
  (forall dev xs,
     Z.of_nat (length xs) < 2 ^ 31 ->
     let n := Z.of_nat (length xs) in
     let d := devPushAll dev xs in
     m_n d = n /\
     (n <= 1 -> devVariance d = F32.zero) /\
     (2 <= n ->
        m_newS d = m_oldS d /\
        devVariance d = F32.div (m_newS d) (F32.of_int (n - 1)))) /\
  (forall dev,
     let d := devPushAll dev samples in
     devVariance d = S754_finite false 9586981 (-21) /\
     F32.lt (F32.of_decimal 45705 (-4)) (devVariance d) = true /\
     F32.lt (devVariance d) (F32.of_decimal 45715 (-4)) = true /\
     devStandardDeviation d = S754_finite false 8967799 (-22) /\
     F32.lt (F32.of_decimal 21375 (-4)) (devStandardDeviation d) = true /\
     F32.lt (devStandardDeviation d) (F32.of_decimal 21385 (-4)) = true).
Proof.
  assert (G : forall dev,
     Int.int32 (m_n dev) ->
     devVariance dev =
       if m_n dev >? 1 then F32.div (m_newS dev) (F32.of_int (m_n dev - 1)) else F32.zero).
  { intros dev R. unfold devVariance.
    destruct (Z.gtb_spec (m_n dev) 1) as [H|H]; [|reflexivity].
    rewrite wrap32_id; [reflexivity|].
    revert R. unfold Int.int32, Int.in_range. simpl. lia. }
  split; [exact G|split].
  - intros dev xs L n d.
    assert (C : m_n d = n) by (apply devPushAll_count; exact L).
    assert (R : Int.int32 (m_n d)).
    { rewrite C. unfold Int.int32, Int.in_range, n. simpl. simpl in L. lia. }
    split; [exact C|split].
    + intros H. rewrite G by exact R. rewrite C.
      destruct (Z.gtb_spec n 1); [lia | reflexivity].
    + intros H. split.
      * apply devPushAll_accumulator. fold n. lia.
      * rewrite G by exact R. rewrite C.
        destruct (Z.gtb_spec n 1); [reflexivity | lia].
  - intros dev d. subst d. repeat split; vm_compute; reflexivity.
Qed.

(** The theorem at the samples 1 and 2. *)
Lemma devVariance_spec_witness :
  devVariance (devPushAll (mk_stdev F32.zero F32.zero F32.zero F32.zero 0) [one; two])
  = F32.div (m_newS (devPushAll (mk_stdev F32.zero F32.zero F32.zero F32.zero 0) [one; two]))
            (F32.of_int 1).
Proof.
  refine (proj2 (proj2 (proj2 (proj1 (proj2 devVariance_spec)
            (mk_stdev F32.zero F32.zero F32.zero F32.zero 0) [one; two] _)) _)).
  - vm_compute. reflexivity.
  - vm_compute. discriminate.
Defined.

(* ================================================================== *)
(** * Range scaling *)

Lemma wrap_id bits z : 0 < bits -> Int.in_range bits z -> Int.wrap bits z = z.
Proof.
  unfold Int.in_range, Int.wrap. intros Hb H.
  assert (E : 2 ^ bits = 2 * 2 ^ (bits - 1)).
  { rewrite <- Z.pow_succ_r by lia. f_equal. lia. }
  rewrite Z.mod_small; lia.
Qed.

Lemma long_int dm z : Int.int32 z -> Int.in_range (LONG_BITS dm) z.
Proof.
  unfold Int.int32, Int.in_range. destruct dm; simpl; lia.
Qed.

Lemma wrap_add_l bits z d : Int.wrap bits (Int.wrap bits z + d) = Int.wrap bits (z + d).
Proof.
  unfold Int.wrap. f_equal.
  replace ((z + 2 ^ (bits - 1)) mod 2 ^ bits - 2 ^ (bits - 1) + d + 2 ^ (bits - 1))
    with ((z + 2 ^ (bits - 1)) mod 2 ^ bits + d) by lia.
  rewrite Zplus_mod_idemp_l. f_equal. lia.
Qed.

Lemma wrap32_long dm z : Int.wrap32 (Int.wrap (LONG_BITS dm) z) = Int.wrap32 z.
Proof.
  unfold Int.wrap32, Int.wrap. destruct dm; simpl LONG_BITS;
    change (2 ^ (32 - 1)) with 2147483648; change (2 ^ 32) with 4294967296;
    change (2 ^ (64 - 1)) with 9223372036854775808;
    change (2 ^ 64) with 18446744073709551616;
    Z.div_mod_to_equations; lia.
Qed.

(** Claim C6, as amended.  For [int] inputs with srcFrom <> srcTo, whenever
    the three differences and the product (destTo - destFrom) * (x - srcFrom)
    are representable in [long int] and the final value is representable in
    [int], [scaleRange] returns that product divided, truncating toward
    zero, by (srcTo - srcFrom), plus destFrom.  This holds for a 32-bit and
    for a 64-bit [long int]; [scaleRange(50, 0, 100, 0, 1000)] is 500. *)
Theorem scaleRange_in_range dm x srcFrom srcTo destFrom destTo :
  Int.int32 x -> Int.int32 srcFrom -> Int.int32 srcTo ->
  Int.int32 destFrom -> Int.int32 destTo ->
  srcFrom <> srcTo ->
  Int.in_range (LONG_BITS dm) (destTo - destFrom) ->
  Int.in_range (LONG_BITS dm) (x - srcFrom) ->
  Int.in_range (LONG_BITS dm) (srcTo - srcFrom) ->
  Int.in_range (LONG_BITS dm) ((destTo - destFrom) * (x - srcFrom)) ->
  Int.int32 (scaled_exactly x srcFrom srcTo destFrom destTo) ->
  scaleRange dm x srcFrom srcTo destFrom destTo
    = scaled_exactly x srcFrom srcTo destFrom destTo
  /\ scaleRange dm 50 0 100 0 1000 = 500.
Proof.
  intros Hx Hsf Hst Hdf Hdt Hne H1 H2 H3 H4 H5.
  assert (Hb : 0 < LONG_BITS dm) by (destruct dm; simpl; lia).
  split; [|destruct dm; vm_compute; reflexivity].
  unfold scaleRange, scaled_exactly in *.
  rewrite (wrap_id _ (destTo - destFrom)) by assumption.
  rewrite (wrap_id _ (x - srcFrom)) by assumption.
  rewrite (wrap_id _ (srcTo - srcFrom)) by assumption.
  rewrite (wrap_id _ ((destTo - destFrom) * (x - srcFrom))) by assumption.
  rewrite wrap_add_l, wrap32_long.
  apply wrap32_id. exact H5.
Qed.

(** The theorem at scaleRange(25, 0, 100, -1000, 1000) on a 32-bit [long int]. *)
Lemma scaleRange_in_range_witness :
  scaleRange ILP32 25 0 100 (-1000) 1000 = scaled_exactly 25 0 100 (-1000) 1000 /\
  scaleRange ILP32 50 0 100 0 1000 = 500.
Proof.
  apply (scaleRange_in_range ILP32 25 0 100 (-1000) 1000);
    unfold scaled_exactly, Int.int32, Int.in_range; simpl; lia.
Defined.

(** Claim C6 as stated fails.  The value returned is an [int]: for
    scaleRange(200, 0, 100, 0, INT_MAX) the exact value 4294967294 is not
    one, and the code returns -2 whatever the width of [long int].  The
    product is computed in [long int], which on the 32-bit targets is no
    wider than [int] (scaleRange(50000, 0, 100000, 0, 100000) then returns
    7050, not 50000), and even a 64-bit [long int] cannot hold the product
    of two differences of magnitude 2^32 - 1. *)
Lemma scaleRange_not_exact :
  (scaleRange ILP32 200 0 100 0 2147483647 <> scaled_exactly 200 0 100 0 2147483647 /\
   scaleRange LP64 200 0 100 0 2147483647 <> scaled_exactly 200 0 100 0 2147483647) /\
  (LONG_BITS ILP32 = 32 /\
   scaleRange ILP32 50000 0 100000 0 100000 = 7050 /\
   scaled_exactly 50000 0 100000 0 100000 = 50000) /\
  (scaleRange LP64 2147483647 (-2147483648) (-2147483647) (-2147483648) 2147483647
     <> scaled_exactly 2147483647 (-2147483648) (-2147483647) (-2147483648) 2147483647 /\
   ~ Int.in_range (LONG_BITS LP64)
       ((2147483647 - -2147483648) * (2147483647 - -2147483648))).
Proof.
  repeat split; try (vm_compute; congruence).
  unfold Int.in_range. vm_compute. intros [_ H]. discriminate H.
Qed.

(* ================================================================== *)
(** * Dead band *)

Lemma SFcompare_antisym a b :
  SFcompare b a = match SFcompare a b with Some c => Some (CompOpp c) | None => None end.
Proof.
  destruct a as [sa|sa| |sa ma ea], b as [sb|sb| |sb mb eb]; simpl;
    try reflexivity; try (destruct sa; reflexivity); try (destruct sb; reflexivity);
    try (destruct sa, sb; reflexivity).
  destruct sa, sb; try reflexivity;
    rewrite (Z.compare_antisym ea eb); destruct (ea ?= eb); simpl; try reflexivity;
    rewrite (Pos.compare_cont_antisym ma mb Eq); simpl;
    try rewrite CompOpp_involutive; reflexivity.
Qed.

Lemma ge_not_lt a b : F32.ge a b = true -> F32.lt a b = false.
Proof.
  unfold F32.ge, F32.lt, SFleb, SFltb. rewrite (SFcompare_antisym b a).
  destruct (SFcompare b a) as [[]|]; simpl; congruence.
Qed.

Lemma lt_not_ge a b : F32.lt a b = true -> F32.ge a b = false.
Proof.
  unfold F32.ge, F32.lt, SFleb, SFltb. rewrite (SFcompare_antisym b a).
  destruct (SFcompare b a) as [[]|]; simpl; congruence.
Qed.

(** Claim C7.  For every [int32_t] value and every non-negative dead band,
    [applyDeadband] returns 0 when |value| < deadband, value - deadband when
    value >= 0 and |value| >= deadband, and value + deadband when value < 0
    and |value| >= deadband (neither difference nor sum leaves the range of
    [int32_t]); applyDeadband(15, 10) = 5, applyDeadband(5, 10) = 0 and
    applyDeadband(-15, 10) = -5.  [fapplyDeadband] behaves the same way on
    floats, for every value and dead band: 0 when fabsf(value) < deadband,
    and otherwise value - deadband for value >= 0 and value + deadband for
    value < 0. *)
Theorem applyDeadband_spec :
  (forall value deadband,
     Int.int32 value -> Int.int32 deadband -> 0 <= deadband ->
     (Z.abs value < deadband -> applyDeadband value deadband = 0) /\
     (0 <= value -> deadband <= Z.abs value ->
        applyDeadband value deadband = value - deadband) /\
     (value < 0 -> deadband <= Z.abs value ->
        applyDeadband value deadband = value + deadband)) /\
  (applyDeadband 15 10 = 5 /\ applyDeadband 5 10 = 0 /\ applyDeadband (-15) 10 = -5) /\
  (forall value deadband : float,
     (F32.lt (F32.fabsf value) deadband = true ->
        fapplyDeadband value deadband = F32.zero) /\
     (F32.ge value F32.zero = true -> F32.ge (F32.fabsf value) deadband = true ->
        fapplyDeadband value deadband = F32.sub value deadband) /\
     (F32.lt value F32.zero = true -> F32.ge (F32.fabsf value) deadband = true ->
        fapplyDeadband value deadband = F32.add value deadband)).
Proof.
  split; [|split].
  - intros value deadband Hv Hd Hp.
    unfold applyDeadband, ABS.
    unfold Int.int32, Int.in_range in *. simpl in Hv, Hd.
    repeat split; intros.
    + destruct (Z.ltb_spec (Z.abs value) deadband); [reflexivity | lia].
    + destruct (Z.ltb_spec (Z.abs value) deadband); [lia|].
      destruct (Z.geb_spec value 0); [|lia].
      apply wrap32_id. unfold Int.int32, Int.in_range. simpl. lia.
    + destruct (Z.ltb_spec (Z.abs value) deadband); [lia|].
      destruct (Z.geb_spec value 0); [lia|].
      apply wrap32_id. unfold Int.int32, Int.in_range. simpl. lia.
  - repeat split; vm_compute; reflexivity.
  - intros value deadband. unfold fapplyDeadband. repeat split.
    + intros ->. reflexivity.
    + intros H1 H2. rewrite (ge_not_lt _ _ H2), H1. reflexivity.
    + intros H1 H2. rewrite (ge_not_lt _ _ H2), (lt_not_ge _ _ H1). reflexivity.
Qed.

(** The theorem at applyDeadband(INT32_MIN, 10). *)
Lemma applyDeadband_spec_witness :
  applyDeadband (-2147483648) 10 = -2147483648 + 10.
Proof.
  refine (proj2 (proj2 (proj1 applyDeadband_spec (-2147483648) 10 _ _ _)) _ _);
    unfold Int.int32, Int.in_range; simpl; lia.
Defined.

(* ================================================================== *)
(** * Arctangent at the origin *)

(** Claim C2, as amended.  When x and y are both zero (of either sign)
    [atan2_approx] returns the constant [atanPolyCoef1], 11067303 * 2^-45
    (about 3.1455e-07): a positive number below the documented maximum
    error 7.152557e-07, not 0.  The division MIN / MAX is skipped by the
    guard, and the only division executed has the divisor 1.0f, so no
    division by zero takes place. *)
Theorem atan2_approx_origin :
  forall sy sx : bool,
    atan2_approx_run (S754_zero sy) (S754_zero sx) = (atanPolyCoef1, [one]) /\
    atan2_approx (S754_zero sy) (S754_zero sx) = S754_finite false 11067303 (-45) /\
    F32.lt F32.zero (atan2_approx (S754_zero sy) (S754_zero sx)) = true /\
    F32.lt (atan2_approx (S754_zero sy) (S754_zero sx)) (F32.of_decimal 7152557 (-13)) = true /\
    Forall (fun d => F32.ne d F32.zero = true)
           (snd (atan2_approx_run (S754_zero sy) (S754_zero sx))).
Proof.
  intros sy sx.
  assert (R : atan2_approx_run (S754_zero sy) (S754_zero sx) = (atanPolyCoef1, [one]))
    by (destruct sy, sx; vm_compute; reflexivity).
  unfold atan2_approx. rewrite R. cbn [fst snd].
  repeat split; try (vm_compute; reflexivity).
  constructor; [vm_compute; reflexivity | constructor].
Qed.

(** Claim C2 as stated fails: [atan2_approx(0.0f, 0.0f)] is not 0, neither
    as a bit pattern nor under [==]. *)
Lemma atan2_approx_origin_not_zero :
  atan2_approx F32.zero F32.zero <> F32.zero /\
  F32.eq (atan2_approx F32.zero F32.zero) F32.zero = false.
Proof. split; [vm_compute; discriminate | vm_compute; reflexivity]. Qed.

(* ================================================================== *)
(** * The guard of the sine *)

(** Claim C5.  Whenever the conversion of [x] to [int32_t] gives a value
    below -32 or above 32, [sin_approx] returns +0.0f; no iteration of the
    wrapping loops is needed for it (the statement holds for every fuel,
    0 included) and the polynomial is not evaluated. *)
Theorem sin_approx_out_of_range mode oor fuel x :
  F32.to_int32 oor x < -32 \/ 32 < F32.to_int32 oor x ->
  sin_approx mode oor fuel x = Some F32.zero.
Proof.
  intros H. unfold sin_approx.
  destruct (Z.ltb_spec (F32.to_int32 oor x) (-32)); simpl; auto.
  destruct (Z.gtb_spec (F32.to_int32 oor x) 32); simpl; auto.
  lia.
Qed.

(** The theorem at 100.0f. *)
Lemma sin_approx_out_of_range_witness :
  sin_approx FAST_MATH F32.vcvt_oor 0 (F32.of_int 100) = Some F32.zero.
Proof.
  apply (sin_approx_out_of_range FAST_MATH F32.vcvt_oor 0 (F32.of_int 100)).
  right. vm_compute. reflexivity.
Defined.

(* ================================================================== *)
(** * Rounding to binary32

    What the termination of the wrapping loops and the identity of the
    quaternion product need of the arithmetic: a sum or difference that
    does not overflow is a number of the format, exact when it fits in 24
    bits and otherwise off by at most 2^-23 of its magnitude; the comparison
    of numbers of the format is the order of their values; the product with
    1 is exact. *)

Lemma fexp_eq z : fexp 24 128 z = Z.max (z - 24) (-149).
Proof. reflexivity. Qed.

Lemma digits2_size m : digits2_pos m = Pos.size m.
Proof. induction m; simpl; congruence. Qed.

Lemma digits2_bounds m :
  2 ^ (Zpos (digits2_pos m) - 1) <= Zpos m < 2 ^ Zpos (digits2_pos m).
Proof.
  rewrite digits2_size. split.
  - pose proof (Pos.size_le m) as H.
    apply Pos2Z.pos_le_pos in H. rewrite Pos2Z.inj_pow in H.
    change (Zpos m~0) with (2 * Zpos m) in H.
    replace (Zpos (Pos.size m)) with (Zpos (Pos.size m) - 1 + 1) in H by lia.
    rewrite Z.pow_add_r in H by lia. change (2 ^ 1) with 2 in H. lia.
  - pose proof (Pos.size_gt m) as H.
    apply Pos2Z.pos_lt_pos in H. now rewrite Pos2Z.inj_pow in H.
Qed.

(** The number of digits is determined by the bounds. *)
Lemma digits2_unique m d :
  2 ^ (d - 1) <= Zpos m < 2 ^ d -> Zpos (digits2_pos m) = d.
Proof.
  intros [L U]. destruct (digits2_bounds m) as [L' U'].
  set (k := Zpos (digits2_pos m)) in *.
  assert (0 < k) by (unfold k; lia).
  assert (0 < d).
  { destruct (Z.lt_trichotomy d 0) as [N|[->|P]]; auto.
    - rewrite (Z.pow_neg_r 2 d N) in U. lia.
    - change (2 ^ 0) with 1 in U. lia. }
  destruct (Z.lt_trichotomy k d) as [Hlt|[Heq|Hgt]]; auto.
  - assert (2 ^ k <= 2 ^ (d - 1)) by (apply Z.pow_le_mono_r; lia). lia.
  - assert (2 ^ d <= 2 ^ (k - 1)) by (apply Z.pow_le_mono_r; lia). lia.
Qed.

(** Shifting out bits divides the mantissa. *)
Lemma shr_1_m rec : 0 <= shr_m rec -> shr_m (shr_1 rec) = shr_m rec / 2.
Proof.
  destruct rec as [m r s]. simpl. intros H.
  destruct m as [|p|p]; try lia.
  - reflexivity.
  - destruct p; simpl.
    + rewrite Pos2Z.inj_xI. apply Z.div_unique with 1; lia.
    + rewrite Pos2Z.inj_xO. apply Z.div_unique with 0; lia.
    + reflexivity.
Qed.

Lemma shr_1_nonneg rec : 0 <= shr_m rec -> 0 <= shr_m (shr_1 rec).
Proof. intros H. rewrite shr_1_m by exact H. apply Z.div_pos; lia. Qed.

Lemma iter_shr_m n : forall rec,
  0 <= shr_m rec ->
  shr_m (iter_pos shr_1 n rec) = shr_m rec / 2 ^ Zpos n.
Proof.
  induction n as [n IH|n IH|]; intros rec H; simpl iter_pos.
  - assert (H1 := shr_1_nonneg rec H).
    assert (H2 : 0 <= shr_m (iter_pos shr_1 n (shr_1 rec))).
    { rewrite IH by exact H1. apply Z.div_pos; lia. }
    rewrite IH by exact H2. rewrite IH by exact H1. rewrite shr_1_m by exact H.
    assert (E : 2 ^ Zpos n~1 = 2 * 2 ^ Zpos n * 2 ^ Zpos n).
    { replace (Zpos n~1) with (1 + Zpos n + Zpos n) by lia.
      rewrite !Z.pow_add_r by lia. reflexivity. }
    rewrite E. assert (0 < 2 ^ Zpos n) by (apply Z.pow_pos_nonneg; lia).
    rewrite !Z.div_div by lia. f_equal; ring.
  - assert (H2 : 0 <= shr_m (iter_pos shr_1 n rec)).
    { rewrite IH by exact H. apply Z.div_pos; lia. }
    rewrite IH by exact H2. rewrite IH by exact H.
    assert (E : 2 ^ Zpos n~0 = 2 ^ Zpos n * 2 ^ Zpos n).
    { replace (Zpos n~0) with (Zpos n + Zpos n) by lia.
      rewrite !Z.pow_add_r by lia. reflexivity. }
    rewrite E. assert (0 < 2 ^ Zpos n) by (apply Z.pow_pos_nonneg; lia).
    rewrite !Z.div_div by lia. f_equal; ring.
  - rewrite shr_1_m by exact H. reflexivity.
Qed.

Lemma iter_xO m d : Zpos (Pos.iter xO m d) = Zpos m * 2 ^ Zpos d.
Proof.
  revert m. induction d using Pos.peano_ind; intros m.
  - simpl. lia.
  - rewrite Pos.iter_succ. rewrite Pos2Z.inj_xO, IHd.
    rewrite Pos2Z.inj_succ, Z.pow_succ_r by lia. lia.
Qed.

Lemma round_nearest_even_range m l :
  m <= round_nearest_even m l <= m + 1.
Proof.
  destruct l as [|[]]; simpl; try lia. destruct (Z.even m); lia.
Qed.

Lemma shr_fexp_noshift M E :
  fexp 24 128 (Zpos (digits2_pos M) + E) - E <= 0 ->
  shr_fexp 24 128 (Zpos M) E loc_Exact = (exact_rec M, E).
Proof.
  intros H. unfold shr_fexp, shr, Zdigits2.
  destruct (fexp 24 128 (Zpos (digits2_pos M) + E) - E); try lia; reflexivity.
Qed.

Lemma shr_fexp_shift M E n :
  fexp 24 128 (Zpos (digits2_pos M) + E) - E = Zpos n ->
  shr_fexp 24 128 (Zpos M) E loc_Exact = (iter_pos shr_1 n (exact_rec M), E + Zpos n).
Proof.
  intros H. unfold shr_fexp, shr, Zdigits2. rewrite H. reflexivity.
Qed.

Lemma binary_round_aux_canonical s M E :
  fexp 24 128 (Zpos (digits2_pos M) + E) = E -> E <= 104 ->
  binary_round_aux 24 128 s (Zpos M) E loc_Exact = S754_finite s M E.
Proof.
  intros C B. unfold binary_round_aux.
  rewrite shr_fexp_noshift by lia.
  cbv beta iota. unfold exact_rec at 1 2. cbn [shr_m loc_of_shr_record round_nearest_even].
  rewrite shr_fexp_noshift by lia.
  cbn [shr_m exact_rec].
  replace (E <=? 128 - 24) with true; [reflexivity|].
  symmetry. apply Z.leb_le. lia.
Qed.

Lemma bounded_intro M E :
  fexp 24 128 (Zpos (digits2_pos M) + E) = E -> E <= 104 -> bounded 24 128 M E = true.
Proof.
  intros C B. unfold bounded, canonical_mantissa. rewrite C, Z.eqb_refl. simpl.
  apply Z.leb_le. lia.
Qed.

Lemma bounded_elim M E :
  bounded 24 128 M E = true ->
  fexp 24 128 (Zpos (digits2_pos M) + E) = E /\ E <= 104.
Proof.
  unfold bounded, canonical_mantissa. intros H.
  apply andb_prop in H as [C B]. apply Z.eqb_eq in C. apply Z.leb_le in B.
  split; [exact C | lia].
Qed.

Lemma pow2_pos z : 0 <= z -> 0 < 2 ^ z.
Proof. intros. apply Z.pow_pos_nonneg; lia. Qed.

(** Rounding m * 2^e, with [e] not below the least exponent and no
    overflow, gives a number of the format; it is m * 2^e itself when [m]
    has at most 24 bits, and differs from it by at most 2^-23 of it
    otherwise. *)
Lemma binary_round_bracket s m e :
  -149 <= e -> Zpos (digits2_pos m) + e <= 127 ->
  exists m' e',
    binary_round 24 128 s m e = S754_finite s m' e' /\
    bounded 24 128 m' e' = true /\
    (Zpos m < 2 ^ 24 -> Zpos m' * 2 ^ (e' + 149) = Zpos m * 2 ^ (e + 149)) /\
    2 ^ 23 * Z.abs (Zpos m' * 2 ^ (e' + 149) - Zpos m * 2 ^ (e + 149))
      <= Zpos m * 2 ^ (e + 149).
Proof.
  intros He Hd.
  destruct (digits2_bounds m) as [DL DU].
  set (d := Zpos (digits2_pos m)) in *.
  assert (Hdpos : 0 < d) by (unfold d; lia).
  unfold binary_round, shl_align. fold d.
  assert (T : fexp 24 128 (d + e) = Z.max (d + e - 24) (-149)) by apply fexp_eq.
  set (t := fexp 24 128 (d + e)) in *.
  destruct (t - e) as [|n|k] eqn:Ete.
  - (* already aligned *)
    assert (t = e) by lia.
    exists m, e. rewrite binary_round_aux_canonical by (fold d; lia).
    split; [reflexivity|]. split; [apply bounded_intro; fold d; lia|].
    split; [reflexivity|].
    rewrite Z.sub_diag. simpl Z.abs. rewrite Z.mul_0_r.
    apply Z.mul_nonneg_nonneg; [lia|]. apply Z.lt_le_incl, pow2_pos. lia.
  - (* shift right and round *)
    assert (Ht : t = d + e - 24) by lia.
    assert (Hn : Zpos n = d - 24) by lia.
    unfold binary_round_aux.
    rewrite (shr_fexp_shift m e n) by (fold d; fold t; exact Ete).
    cbv beta iota.
    set (rec1 := iter_pos shr_1 n (exact_rec m)).
    assert (M1 : shr_m rec1 = Zpos m / 2 ^ Zpos n).
    { unfold rec1. rewrite iter_shr_m by (simpl; lia). reflexivity. }
    assert (P : 2 ^ d = 2 ^ 24 * 2 ^ Zpos n).
    { rewrite <- Z.pow_add_r by lia. f_equal. lia. }
    assert (P' : 2 ^ (d - 1) = 2 ^ 23 * 2 ^ Zpos n).
    { rewrite <- Z.pow_add_r by lia. f_equal. lia. }
    assert (Pn : 0 < 2 ^ Zpos n) by (apply pow2_pos; lia).
    assert (Pn2 : 2 ^ 1 <= 2 ^ Zpos n) by (apply Z.pow_le_mono_r; lia).
    change (2 ^ 1) with 2 in Pn2.
    assert (Big : 2 ^ 24 <= Zpos m).
    { change (2 ^ 24) with (2 ^ 23 * 2). rewrite P' in DL.
      eapply Z.le_trans; [|exact DL]. apply Z.mul_le_mono_nonneg_l; lia. }
    assert (R1 : 2 ^ 23 <= shr_m rec1 < 2 ^ 24).
    { rewrite M1. split.
      - apply Z.div_le_lower_bound; lia.
      - apply Z.div_lt_upper_bound; lia. }
    assert (B1 : shr_m rec1 * 2 ^ Zpos n <= Zpos m < (shr_m rec1 + 1) * 2 ^ Zpos n).
    { rewrite M1. pose proof (Z.mul_div_le (Zpos m) (2 ^ Zpos n) Pn).
      pose proof (Z.mul_succ_div_gt (Zpos m) (2 ^ Zpos n) Pn). lia. }
    pose proof (round_nearest_even_range (shr_m rec1) (loc_of_shr_record rec1)) as R2.
    set (m2 := round_nearest_even (shr_m rec1) (loc_of_shr_record rec1)) in *.
    assert (E149 : 2 ^ (e + Zpos n + 149) = 2 ^ Zpos n * 2 ^ (e + 149)).
    { rewrite <- Z.pow_add_r by lia. f_equal. lia. }
    assert (Pe : 0 < 2 ^ (e + 149)) by (apply pow2_pos; lia).
    destruct m2 as [|p2|p2] eqn:Em2; try lia.
    destruct (Z.ltb_spec (Zpos p2) (2 ^ 24)) as [Hlt|Hge].
    + (* no carry *)
      assert (D2 : Zpos (digits2_pos p2) = 24) by (apply digits2_unique; simpl Z.sub; lia).
      rewrite shr_fexp_noshift by (rewrite D2, fexp_eq; lia).
      cbn [shr_m exact_rec].
      replace (e + Zpos n <=? 128 - 24) with true by (symmetry; apply Z.leb_le; lia).
      exists p2, (e + Zpos n).
      split; [reflexivity|].
      split; [apply bounded_intro; [rewrite D2, fexp_eq|]; lia|].
      split; [intros; lia|].
      rewrite E149.
      replace (Zpos p2 * (2 ^ Zpos n * 2 ^ (e + 149)) - Zpos m * 2 ^ (e + 149))
        with ((Zpos p2 * 2 ^ Zpos n - Zpos m) * 2 ^ (e + 149)) by ring.
      rewrite Z.abs_mul, (Z.abs_eq (2 ^ (e + 149))) by lia.
      rewrite Z.mul_assoc. apply Z.mul_le_mono_nonneg_r; [lia|]. nia.
    + (* carry into the next binade *)
      assert (Ep2 : Zpos p2 = 2 ^ 24) by lia.
      assert (D2 : Zpos (digits2_pos p2) = 25).
      { apply digits2_unique. rewrite Ep2. simpl. lia. }
      rewrite (shr_fexp_shift p2 (e + Zpos n) 1) by (rewrite D2, fexp_eq; lia).
      assert (Ep : p2 = 16777216%positive) by (apply Pos2Z.inj; rewrite Ep2; reflexivity).
      subst p2. cbn [iter_pos shr_1 exact_rec shr_m].
      replace (e + Zpos n + 1 <=? 128 - 24) with true by (symmetry; apply Z.leb_le; lia).
      exists 8388608%positive, (e + Zpos n + 1).
      split; [reflexivity|].
      split; [apply bounded_intro; [change (Zpos (digits2_pos 8388608)) with 24; rewrite fexp_eq|]; lia|].
      split; [intros; lia|].
      replace (e + Zpos n + 1 + 149) with (1 + (e + Zpos n + 149)) by lia.
      rewrite Z.pow_add_r by lia. rewrite E149.
      replace (Zpos 8388608 * (2 ^ 1 * (2 ^ Zpos n * 2 ^ (e + 149))) - Zpos m * 2 ^ (e + 149))
        with ((2 ^ 24 * 2 ^ Zpos n - Zpos m) * 2 ^ (e + 149)) by (change (2 ^ 1) with 2; change (2 ^ 24) with 16777216; ring).
      rewrite Z.abs_mul, (Z.abs_eq (2 ^ (e + 149))) by lia.
      rewrite Z.mul_assoc. apply Z.mul_le_mono_nonneg_r; [lia|].
      change (2 ^ 24) with 16777216 in *. change (2 ^ 23) with 8388608 in *. nia.
  - (* shift left: exact *)
    assert (Hk : Zpos k = e - t) by lia.
    assert (Pk : 0 < 2 ^ Zpos k) by (apply pow2_pos; lia).
    assert (Emz : Zpos (Pos.iter xO m k) = Zpos m * 2 ^ Zpos k) by apply iter_xO.
    set (mz := Pos.iter xO m k) in *.
    assert (Dz : Zpos (digits2_pos mz) = d + Zpos k).
    { apply digits2_unique. rewrite Emz.
      replace (d + Zpos k - 1) with (d - 1 + Zpos k) by lia.
      rewrite !Z.pow_add_r by lia. split.
      - apply Z.mul_le_mono_nonneg_r; lia.
      - apply Z.mul_lt_mono_pos_r; lia. }
    assert (C : fexp 24 128 (Zpos (digits2_pos mz) + t) = t).
    { rewrite Dz. replace (d + Zpos k + t) with (d + e) by lia. reflexivity. }
    rewrite binary_round_aux_canonical by (exact C || lia).
    exists mz, t. split; [reflexivity|].
    split; [apply bounded_intro; [exact C | lia]|].
    assert (X : Zpos mz * 2 ^ (t + 149) = Zpos m * 2 ^ (e + 149)).
    { rewrite Emz. replace (e + 149) with (Zpos k + (t + 149)) by lia.
      rewrite (Z.pow_add_r 2 (Zpos k)) by lia. ring. }
    split; [intros _; exact X|].
    rewrite X, Z.sub_diag. simpl Z.abs. rewrite Z.mul_0_r.
    apply Z.mul_nonneg_nonneg; [lia|]. apply Z.lt_le_incl, pow2_pos. lia.
Qed.

Lemma bounded_facts m e :
  bounded 24 128 m e = true ->
  -149 <= e <= 104 /\ Zpos m < 2 ^ 24 /\ (-149 < e -> 2 ^ 23 <= Zpos m).
Proof.
  intros H. apply bounded_elim in H as [C B].
  rewrite fexp_eq in C.
  destruct (digits2_bounds m) as [DL DU].
  set (d := Zpos (digits2_pos m)) in *.
  assert (0 < d) by (unfold d; lia).
  assert (Hd : d <= 24) by lia.
  split; [lia|]. split.
  - eapply Z.lt_le_trans; [exact DU|]. apply Z.pow_le_mono_r; lia.
  - intros He. assert (d = 24) by lia.
    replace 23 with (d - 1) by lia. exact DL.
Qed.

Lemma shl_align_value m e ez :
  ez <= e -> Zpos (fst (shl_align m e ez)) = Zpos m * 2 ^ (e - ez).
Proof.
  intros H. unfold shl_align.
  destruct (ez - e) as [|p|p] eqn:E; try lia.
  - cbn [fst]. replace (e - ez) with 0 by lia. rewrite Z.pow_0_r. lia.
  - cbn [fst]. rewrite iter_xO. f_equal. f_equal. lia.
Qed.

Lemma scaled_finite s m e : F32.scaled (S754_finite s m e) = cond_Zopp s (Zpos m * 2 ^ (e + 149)).
Proof. reflexivity. Qed.

Lemma normalize_error D ez :
  -149 <= ez -> Z.abs D * 2 ^ (ez + 149) < 2 ^ 276 ->
  exists c,
    binary_normalize 24 128 D ez false = c /\
    F32.valid c = true /\ F32.finite c = true /\
    (Z.abs D < 2 ^ 24 -> F32.scaled c = D * 2 ^ (ez + 149)) /\
    2 ^ 23 * Z.abs (F32.scaled c - D * 2 ^ (ez + 149)) <= Z.abs D * 2 ^ (ez + 149).
Proof.
  intros He Hb.
  assert (Pe : 0 < 2 ^ (ez + 149)) by (apply pow2_pos; lia).
  destruct D as [|p|p].
  - exists (S754_zero false). simpl. repeat split; lia.
  - assert (Hd : Zpos (digits2_pos p) + ez <= 127).
    { destruct (digits2_bounds p) as [DL _]. simpl Z.abs in Hb.
      assert (L : 2 ^ (Zpos (digits2_pos p) - 1) * 2 ^ (ez + 149) < 2 ^ 276).
      { eapply Z.le_lt_trans; [|exact Hb]. apply Z.mul_le_mono_nonneg_r; lia. }
      rewrite <- Z.pow_add_r in L by lia.
      apply Z.pow_lt_mono_r_iff in L; lia. }
    destruct (binary_round_bracket false p ez He Hd) as (m' & e' & R & Bd & Ex & Er).
    exists (S754_finite false m' e'). simpl binary_normalize.
    split; [exact R|]. split; [exact Bd|]. split; [reflexivity|].
    rewrite scaled_finite. simpl cond_Zopp. simpl Z.abs. split; assumption.
  - assert (Hd : Zpos (digits2_pos p) + ez <= 127).
    { destruct (digits2_bounds p) as [DL _]. simpl Z.abs in Hb.
      assert (L : 2 ^ (Zpos (digits2_pos p) - 1) * 2 ^ (ez + 149) < 2 ^ 276).
      { eapply Z.le_lt_trans; [|exact Hb]. apply Z.mul_le_mono_nonneg_r; lia. }
      rewrite <- Z.pow_add_r in L by lia.
      apply Z.pow_lt_mono_r_iff in L; lia. }
    destruct (binary_round_bracket true p ez He Hd) as (m' & e' & R & Bd & Ex & Er).
    exists (S754_finite true m' e'). simpl binary_normalize.
    split; [exact R|]. split; [exact Bd|]. split; [reflexivity|].
    rewrite scaled_finite. unfold cond_Zopp.
    change (Z.abs (Zneg p)) with (Zpos p).
    change (Zneg p) with (- Zpos p). split.
    + intros H. rewrite (Ex H). ring.
    + replace (- (Zpos m' * 2 ^ (e' + 149)) - - Zpos p * 2 ^ (ez + 149))
        with (- (Zpos m' * 2 ^ (e' + 149) - Zpos p * 2 ^ (ez + 149))) by ring.
      rewrite Z.abs_opp. exact Er.
Qed.

(** The difference of two numbers of the format. *)
Lemma sub_error sa ma ea sb mb eb :
  bounded 24 128 ma ea = true -> bounded 24 128 mb eb = true ->
  let exact := F32.scaled (S754_finite sa ma ea) - F32.scaled (S754_finite sb mb eb) in
  Z.abs exact < 2 ^ 276 ->
  exists c,
    F32.sub (S754_finite sa ma ea) (S754_finite sb mb eb) = c /\
    F32.valid c = true /\ F32.finite c = true /\
    (Z.abs exact < 2 ^ 24 * 2 ^ (Z.min ea eb + 149) -> F32.scaled c = exact) /\
    2 ^ 23 * Z.abs (F32.scaled c - exact) <= Z.abs exact.
Proof.
  intros Ba Bb exact Hex.
  destruct (bounded_facts _ _ Ba) as (Ea & _ & _).
  destruct (bounded_facts _ _ Bb) as (Eb & _ & _).
  set (ez := Z.min ea eb).
  assert (Hez : -149 <= ez) by (unfold ez; lia).
  assert (Pe : 0 < 2 ^ (ez + 149)) by (apply pow2_pos; lia).
  set (D := cond_Zopp sa (Zpos (fst (shl_align ma ea ez)))
            - cond_Zopp sb (Zpos (fst (shl_align mb eb ez)))).
  assert (ED : D * 2 ^ (ez + 149) = exact).
  { unfold D, exact. rewrite !scaled_finite.
    rewrite !shl_align_value by (unfold ez; lia).
    assert (Xa : 2 ^ (ea + 149) = 2 ^ (ea - ez) * 2 ^ (ez + 149)).
    { rewrite <- Z.pow_add_r by (unfold ez; lia). f_equal. lia. }
    assert (Xb : 2 ^ (eb + 149) = 2 ^ (eb - ez) * 2 ^ (ez + 149)).
    { rewrite <- Z.pow_add_r by (unfold ez; lia). f_equal. lia. }
    rewrite Xa, Xb. destruct sa, sb; unfold cond_Zopp; ring. }
  assert (AD : Z.abs D * 2 ^ (ez + 149) = Z.abs exact).
  { rewrite <- ED, Z.abs_mul, (Z.abs_eq (2 ^ (ez + 149))) by lia. reflexivity. }
  destruct (normalize_error D ez Hez) as (c & R & V & F & Ex & Er).
  { rewrite AD. exact Hex. }
  exists c. split; [exact R|]. split; [exact V|]. split; [exact F|].
  rewrite ED, AD in *. split; [|exact Er].
  intros H. apply Ex.
  apply Z.mul_lt_mono_pos_r with (p := 2 ^ (ez + 149)); [exact Pe|].
  rewrite AD. exact H.
Qed.

Lemma add_as_sub a sb mb eb :
  F32.add a (S754_finite sb mb eb) = F32.sub a (S754_finite (negb sb) mb eb).
Proof.
  destruct a as [sa|sa| |sa ma ea]; destruct sb; reflexivity.
Qed.

Lemma magnitude_lt m1 e1 m2 e2 :
  bounded 24 128 m1 e1 = true -> bounded 24 128 m2 e2 = true ->
  e1 < e2 \/ (e1 = e2 /\ (m1 < m2)%positive) ->
  Zpos m1 * 2 ^ (e1 + 149) < Zpos m2 * 2 ^ (e2 + 149).
Proof.
  intros B1 B2 H.
  destruct (bounded_facts _ _ B1) as (E1 & U1 & _).
  destruct (bounded_facts _ _ B2) as (E2 & _ & L2).
  assert (P1 : 0 < 2 ^ (e1 + 149)) by (apply pow2_pos; lia).
  destruct H as [H|[-> H]].
  - assert (X : 2 ^ (e2 + 149) = 2 ^ (e2 - e1 - 1) * 2 * 2 ^ (e1 + 149)).
    { replace (e2 + 149) with ((e2 - e1 - 1) + 1 + (e1 + 149)) by lia.
      rewrite !Z.pow_add_r by lia. reflexivity. }
    assert (P2 : 0 < 2 ^ (e2 - e1 - 1)) by (apply pow2_pos; lia).
    rewrite X. specialize (L2 ltac:(lia)).
    change (2 ^ 24) with 16777216 in U1. change (2 ^ 23) with 8388608 in L2.
    nia.
  - apply Z.mul_lt_mono_pos_r; [exact P1 | exact H].
Qed.

Lemma compare_cont_lt m1 m2 : Pos.compare_cont Eq m1 m2 = Lt -> (m1 < m2)%positive.
Proof. intros H. exact H. Qed.

Lemma compare_cont_gt m1 m2 : Pos.compare_cont Eq m1 m2 = Gt -> (m2 < m1)%positive.
Proof. intros H. apply Pos.gt_lt. exact H. Qed.

(** On numbers of the format the comparison [<] is the order of the values. *)
Lemma lt_scaled a b :
  F32.valid a = true -> F32.valid b = true ->
  F32.finite a = true -> F32.finite b = true ->
  F32.lt a b = true -> F32.scaled a < F32.scaled b.
Proof.
  unfold F32.lt, SFltb. intros Va Vb Fa Fb H.
  destruct a as [sa|sa| |sa ma ea], b as [sb|sb| |sb mb eb]; simpl in H;
    try discriminate.
  - (* zero, finite *)
    destruct sb; try discriminate. rewrite scaled_finite.
    change (F32.scaled (S754_zero sa)) with 0. unfold cond_Zopp.
    apply Z.mul_pos_pos; [lia|]. apply pow2_pos.
    destruct (bounded_facts _ _ Vb). lia.
  - (* finite, zero *)
    destruct sa; try discriminate. rewrite scaled_finite.
    change (F32.scaled (S754_zero sb)) with 0. unfold cond_Zopp.
    assert (0 < Zpos ma * 2 ^ (ea + 149)); [|lia].
    apply Z.mul_pos_pos; [lia|]. apply pow2_pos.
    destruct (bounded_facts _ _ Va). lia.
  - (* finite, finite *)
    simpl in Va, Vb. rewrite !scaled_finite.
    assert (Pa : 0 < Zpos ma * 2 ^ (ea + 149)).
    { apply Z.mul_pos_pos; [lia|]. apply pow2_pos. destruct (bounded_facts _ _ Va). lia. }
    assert (Pb : 0 < Zpos mb * 2 ^ (eb + 149)).
    { apply Z.mul_pos_pos; [lia|]. apply pow2_pos. destruct (bounded_facts _ _ Vb). lia. }
    destruct sa, sb; unfold cond_Zopp; try discriminate; try lia.
    + (* both negative *)
      assert (Zpos mb * 2 ^ (eb + 149) < Zpos ma * 2 ^ (ea + 149)); [|lia].
      apply magnitude_lt; try assumption.
      destruct (Z.compare_spec ea eb) as [E|E|E]; try discriminate.
      * right. split; [congruence|]. apply compare_cont_gt.
        destruct (Pos.compare_cont Eq ma mb); simpl in H; congruence.
      * left. lia.
    + (* both positive *)
      apply magnitude_lt; try assumption.
      destruct (Z.compare_spec ea eb) as [E|E|E]; try discriminate.
      * right. split; [assumption|]. apply compare_cont_lt.
        destruct (Pos.compare_cont Eq ma mb); congruence.
      * left. lia.
Qed.

Lemma scaled_pi : F32.scaled M_PIf = 13176795 * 2 ^ 127.
Proof. reflexivity. Qed.
Lemma scaled_two_pi : F32.scaled TWO_PI = 13176795 * 2 ^ 128.
Proof. reflexivity. Qed.

(** An input that passes the guard of [sin_approx] lies strictly between
    -33 and 33. *)
Lemma guard_bound oor x :
  F32.valid x = true -> F32.finite x = true -> F32.fits_int32 x = true ->
  -32 <= F32.to_int32 oor x <= 32 ->
  - (33 * 2 ^ 149) < F32.scaled x < 33 * 2 ^ 149.
Proof.
  intros V F Fit G.
  assert (U : 0 < 2 ^ 149) by (apply pow2_pos; lia).
  destruct x as [s|s| |s m e]; try discriminate.
  - change (F32.scaled (S754_zero s)) with 0. lia.
  - unfold F32.fits_int32 in Fit. unfold F32.to_int32 in G.
    destruct (F32.trunc (S754_finite s m e)) as [n|] eqn:T; [|discriminate].
    rewrite Fit in G. unfold F32.trunc in T.
    apply (f_equal (fun o => match o with Some v => v | None => 0 end)) in T.
    cbv beta iota in T.
    destruct (bounded_facts _ _ V) as (E & _ & _).
    assert (Pe : 0 < 2 ^ (e + 149)) by (apply pow2_pos; lia).
    assert (M : Zpos m * 2 ^ (e + 149) < 33 * 2 ^ 149).
    { destruct e as [|p|p].
      - assert (Zpos m <= 32) by (clear - T G; destruct s; unfold cond_Zopp in T; lia).
        change (0 + 149) with 149. nia.
      - cbv iota in T.
        assert (Zpos m * 2 ^ Zpos p <= 32) by (clear - T G; destruct s; unfold cond_Zopp in T; lia).
        rewrite Z.pow_add_r by lia. nia.
      - cbv iota in T.
        assert (Q : Zpos m / 2 ^ (- Zneg p) <= 32) by (clear - T G; destruct s; unfold cond_Zopp in T; lia).
        assert (Pp : 0 < 2 ^ (- Zneg p)) by (apply pow2_pos; lia).
        pose proof (Z.mul_succ_div_gt (Zpos m) (2 ^ (- Zneg p)) Pp) as Q'.
        assert (X : 2 ^ 149 = 2 ^ (- Zneg p) * 2 ^ (Zneg p + 149)).
        { rewrite <- Z.pow_add_r by lia. f_equal. lia. }
        rewrite X. nia. }
    rewrite scaled_finite. destruct s; unfold cond_Zopp; lia.
Qed.

Lemma valid_pi : F32.valid M_PIf = true /\ F32.valid TWO_PI = true.
Proof. split; reflexivity. Qed.

(** The constants in units of 2^126. *)
Lemma unit_consts :
  F32.scaled M_PIf = 26353590 * 2 ^ 126 /\
  F32.scaled TWO_PI = 52707180 * 2 ^ 126 /\
  2 ^ 149 = 8388608 * 2 ^ 126 /\
  2 ^ 276 = 2 ^ 150 * 2 ^ 126 /\
  2 ^ 127 = 2 * 2 ^ 126.
Proof. repeat split; reflexivity. Qed.

Ltac in_units u :=
  let K1 := fresh in let K2 := fresh in let K3 := fresh in
  let K4 := fresh in let K5 := fresh in
  destruct unit_consts as (K1 & K2 & K3 & K4 & K5);
  rewrite ?K1, ?K2, ?K3, ?K4, ?K5 in *;
  clear K1 K2 K3 K4 K5;
  assert (0 < 2 ^ 126) by (apply pow2_pos; lia);
  set (u := 2 ^ 126) in *; clearbody u;
  change (2 ^ 150) with 1427247692705959881058285969449495136382746624 in *;
  change (2 ^ 23) with 8388608 in *;
  change (2 ^ 24) with 16777216 in *.

Lemma finite_scaled_pos m e :
  bounded 24 128 m e = true -> 0 < Zpos m * 2 ^ (e + 149).
Proof.
  intros V. apply Z.mul_pos_pos; [lia|]. apply pow2_pos.
  destruct (bounded_facts _ _ V). lia.
Qed.

(** One iteration of the first loop. *)
Lemma wrap_above_step x :
  F32.valid x = true -> F32.finite x = true ->
  - (33 * 2 ^ 149) < F32.scaled x < 33 * 2 ^ 149 ->
  F32.gt x M_PIf = true ->
  let y := F32.sub x TWO_PI in
  F32.valid y = true /\ F32.finite y = true /\
  F32.scaled y <= F32.scaled x - 6 * 2 ^ 149 /\
  - (33 * 2 ^ 149) < F32.scaled y /\
  Z.abs (F32.scaled y) < Z.abs (F32.scaled x).
Proof.
  intros V F B G y.
  assert (L : F32.scaled M_PIf < F32.scaled x) by (apply lt_scaled; auto).
  destruct x as [s|s| |s m e]; try discriminate.
  pose proof (finite_scaled_pos m e V) as Pm.
  destruct s.
  { rewrite scaled_finite in L. unfold cond_Zopp in L. in_units u. lia. }
  destruct (bounded_facts _ _ V) as (E & Um & _).
  assert (He : -22 <= e).
  { destruct (Z.le_gt_cases (-22) e) as [|C]; auto. exfalso.
    rewrite scaled_finite in L. unfold cond_Zopp in L.
    assert (2 ^ (e + 149) <= 2 ^ 126) by (apply Z.pow_le_mono_r; lia).
    assert (0 < 2 ^ (e + 149)) by (apply pow2_pos; lia).
    in_units u. nia. }
  assert (W : 2 ^ 127 <= 2 ^ (Z.min e (-21) + 149)) by (apply Z.pow_le_mono_r; lia).
  subst y. unfold TWO_PI.
  pose proof (sub_error false m e false 13176795 (-21) V (proj2 valid_pi)) as S.
  cbv zeta in S. fold TWO_PI in S.
  set (sx := F32.scaled (S754_finite false m e)) in *.
  assert (Px : 0 < sx) by exact Pm.
  set (w := 2 ^ (Z.min e (-21) + 149)) in *. clearbody w sx.
  in_units u.
  destruct S as (c & R & Vc & Fc & Ex & Er); [lia|].
  fold TWO_PI. rewrite R.
  split; [exact Vc|]. split; [exact Fc|].
  destruct (Z.lt_ge_cases (Z.abs (sx - 52707180 * u)) (16777216 * w)) as [Small|Large].
  - rewrite (Ex Small). lia.
  - lia.
Qed.

(** One iteration of the second loop. *)
Lemma wrap_below_step x :
  F32.valid x = true -> F32.finite x = true ->
  - (33 * 2 ^ 149) < F32.scaled x < 33 * 2 ^ 149 ->
  F32.lt x (F32.neg M_PIf) = true ->
  let y := F32.add x TWO_PI in
  F32.valid y = true /\ F32.finite y = true /\
  F32.scaled x + 6 * 2 ^ 149 <= F32.scaled y /\
  F32.scaled y < 33 * 2 ^ 149 /\
  Z.abs (F32.scaled y) < Z.abs (F32.scaled x).
Proof.
  intros V F B G y.
  assert (L : F32.scaled x < F32.scaled (F32.neg M_PIf)) by (apply lt_scaled; auto).
  change (F32.scaled (F32.neg M_PIf)) with (- F32.scaled M_PIf) in L.
  destruct x as [s|s| |s m e]; try discriminate.
  pose proof (finite_scaled_pos m e V) as Pm.
  destruct s; [|discriminate].
  destruct (bounded_facts _ _ V) as (E & Um & _).
  assert (He : -22 <= e).
  { destruct (Z.le_gt_cases (-22) e) as [|C]; auto. exfalso.
    rewrite scaled_finite in L. unfold cond_Zopp in L.
    assert (2 ^ (e + 149) <= 2 ^ 126) by (apply Z.pow_le_mono_r; lia).
    assert (0 < 2 ^ (e + 149)) by (apply pow2_pos; lia).
    in_units u. nia. }
  assert (W : 2 ^ 127 <= 2 ^ (Z.min e (-21) + 149)) by (apply Z.pow_le_mono_r; lia).
  subst y. unfold TWO_PI. rewrite add_as_sub.
  pose proof (sub_error true m e true 13176795 (-21) V (proj2 valid_pi)) as S.
  cbv zeta in S.
  change (F32.scaled (S754_finite true 13176795 (-21))) with (- F32.scaled TWO_PI) in S.
  set (sx := F32.scaled (S754_finite true m e)) in *.
  assert (Px : sx < 0).
  { unfold sx. rewrite scaled_finite. unfold cond_Zopp. lia. }
  set (w := 2 ^ (Z.min e (-21) + 149)) in *. clearbody w sx.
  in_units u.
  destruct S as (c & R & Vc & Fc & Ex & Er); [lia|].
  change (negb false) with true. rewrite R.
  split; [exact Vc|]. split; [exact Fc|].
  destruct (Z.lt_ge_cases (Z.abs (sx - - (52707180 * u))) (16777216 * w)) as [Small|Large].
  - rewrite (Ex Small). lia.
  - lia.
Qed.

Lemma gt_false_bound x :
  F32.gt x M_PIf = true -> F32.valid x = true -> F32.finite x = true ->
  F32.scaled M_PIf < F32.scaled x.
Proof. intros G V F. apply lt_scaled; auto. Qed.

Lemma wrap_above_eq fuel x :
  wrap_above fuel x =
    if F32.gt x M_PIf then
      match fuel with
      | O => None
      | S fuel' => wrap_above fuel' (F32.sub x TWO_PI)
      end
    else Some x.
Proof. destruct fuel; reflexivity. Qed.

Lemma wrap_below_eq fuel x :
  wrap_below fuel x =
    if F32.lt x (F32.neg M_PIf) then
      match fuel with
      | O => None
      | S fuel' => wrap_below fuel' (F32.add x TWO_PI)
      end
    else Some x.
Proof. destruct fuel; reflexivity. Qed.

(** The loops end once the fuel covers the distance to [-pi, pi] in steps
    of 6. *)
Lemma wrap_above_terminates fuel : forall x,
  F32.valid x = true -> F32.finite x = true ->
  - (33 * 2 ^ 149) < F32.scaled x < 33 * 2 ^ 149 ->
  F32.scaled x <= F32.scaled M_PIf + Z.of_nat fuel * (6 * 2 ^ 149) ->
  exists y, wrap_above fuel x = Some y /\
            F32.valid y = true /\ F32.finite y = true /\
            - (33 * 2 ^ 149) < F32.scaled y < 33 * 2 ^ 149.
Proof.
  induction fuel as [|k IH]; intros x V F B M.
  - rewrite wrap_above_eq. destruct (F32.gt x M_PIf) eqn:G.
    + pose proof (gt_false_bound x G V F). simpl Z.of_nat in M. lia.
    + exists x. split; [reflexivity|]. split; [exact V|]. split; [exact F|exact B].
  - rewrite wrap_above_eq. destruct (F32.gt x M_PIf) eqn:G.
    + destruct (wrap_above_step x V F B G) as (Vy & Fy & D & Ly & _).
      apply IH; auto.
      * assert (0 < 2 ^ 149) by (apply pow2_pos; lia). lia.
      * rewrite Nat2Z.inj_succ in M. lia.
    + exists x. split; [reflexivity|]. split; [exact V|]. split; [exact F|exact B].
Qed.

Lemma wrap_below_terminates fuel : forall x,
  F32.valid x = true -> F32.finite x = true ->
  - (33 * 2 ^ 149) < F32.scaled x < 33 * 2 ^ 149 ->
  - F32.scaled M_PIf - Z.of_nat fuel * (6 * 2 ^ 149) <= F32.scaled x ->
  exists y, wrap_below fuel x = Some y.
Proof.
  induction fuel as [|k IH]; intros x V F B M.
  - rewrite wrap_below_eq. destruct (F32.lt x (F32.neg M_PIf)) eqn:G.
    + assert (L : F32.scaled x < F32.scaled (F32.neg M_PIf)) by (apply lt_scaled; auto).
      change (F32.scaled (F32.neg M_PIf)) with (- F32.scaled M_PIf) in L.
      simpl Z.of_nat in M. lia.
    + exists x. reflexivity.
  - rewrite wrap_below_eq. destruct (F32.lt x (F32.neg M_PIf)) eqn:G.
    + destruct (wrap_below_step x V F B G) as (Vy & Fy & D & Ly & _).
      apply IH; auto.
      * assert (0 < 2 ^ 149) by (apply pow2_pos; lia). lia.
      * rewrite Nat2Z.inj_succ in M. lia.
    + exists x. reflexivity.
Qed.

Lemma sin_approx_result mode oor x fuel :
  F32.valid x = true -> F32.finite x = true ->
  (F32.fits_int32 x = false ->
   F32.to_int32 oor x < -32 \/ 32 < F32.to_int32 oor x) ->
  (5 <= fuel)%nat ->
  exists r, sin_approx mode oor fuel x = Some r.
Proof.
  intros V F Hoor Hfuel. unfold sin_approx.
  destruct ((F32.to_int32 oor x <? -32) || (F32.to_int32 oor x >? 32)) eqn:Guard.
  - eauto.
  - apply orb_false_elim in Guard as [G1 G2].
    apply Z.ltb_ge in G1. rewrite Z.gtb_ltb in G2. apply Z.ltb_ge in G2.
    assert (Fit : F32.fits_int32 x = true).
    { destruct (F32.fits_int32 x); auto. specialize (Hoor eq_refl). lia. }
    pose proof (guard_bound oor x V F Fit (conj G1 G2)) as B.
    assert (U : 0 < 2 ^ 149) by (apply pow2_pos; lia).
    destruct (wrap_above_terminates fuel x V F B) as (y & -> & Vy & Fy & By).
    { destruct unit_consts as (K1 & _ & K3 & _). rewrite K1, K3 in *.
      assert (0 < 2 ^ 126) by (apply pow2_pos; lia). nia. }
    destruct (wrap_below_terminates fuel y Vy Fy By) as (z & ->).
    { destruct unit_consts as (K1 & _ & K3 & _). rewrite K1, K3 in *.
      assert (0 < 2 ^ 126) by (apply pow2_pos; lia). nia. }
    eauto.
Qed.

(** The saturating conversion sends every finite float outside the range
    of [int32_t] to INT32_MIN or INT32_MAX, which the guard rejects. *)
Lemma vcvt_rejects x :
  F32.finite x = true -> F32.fits_int32 x = false ->
  F32.to_int32 F32.vcvt_oor x < -32 \/ 32 < F32.to_int32 F32.vcvt_oor x.
Proof.
  intros F N. destruct x as [s|s| |s m e]; try discriminate.
  unfold F32.fits_int32 in N. unfold F32.to_int32.
  destruct (F32.trunc (S754_finite s m e)) as [n|]; [rewrite N|];
    destruct s; vm_compute; auto.
Qed.

(** Claim C8.  [sin_approx] terminates on every finite float: five
    iterations of each of the two wrapping loops are enough, so with
    fuel 5 or more the model returns a result.  This holds under every
    conversion to [int32_t] that lets the guard reject the inputs whose
    truncation is out of range, as the claim has it, and so under the
    saturating conversion of the flight controllers' FPU; every input that
    passes the guard lies strictly between -33 and 33.  In that range each
    iteration of either loop strictly reduces the magnitude of the angle.
    Values are compared through [F32.scaled], the exact value in units of
    2^-149. *)
Theorem sin_approx_terminates mode x fuel :
  F32.valid x = true -> F32.finite x = true -> (5 <= fuel)%nat ->
  (forall oor,
     (F32.fits_int32 x = false ->
      F32.to_int32 oor x < -32 \/ 32 < F32.to_int32 oor x) ->
     exists r, sin_approx mode oor fuel x = Some r) /\
  (exists r, sin_approx mode F32.vcvt_oor fuel x = Some r) /\
  (- (33 * 2 ^ 149) < F32.scaled x < 33 * 2 ^ 149 ->
   (F32.gt x M_PIf = true ->
      Z.abs (F32.scaled (F32.sub x TWO_PI)) < Z.abs (F32.scaled x)) /\
   (F32.lt x (F32.neg M_PIf) = true ->
      Z.abs (F32.scaled (F32.add x TWO_PI)) < Z.abs (F32.scaled x))).
Proof.
  intros V F Hfuel. split; [|split].
  - intros oor Hoor. now apply sin_approx_result.
  - apply sin_approx_result; auto. now apply vcvt_rejects.
  - intros B. split; intros G.
    + apply (wrap_above_step x V F B G).
    + apply (wrap_below_step x V F B G).
Qed.

(** The theorem at 7.0f, which takes one iteration of the first loop. *)
Lemma sin_approx_terminates_witness :
  exists r, sin_approx FAST_MATH F32.vcvt_oor 5 (F32.of_int 7) = Some r.
Proof.
  apply (proj1 (proj2 (sin_approx_terminates FAST_MATH (F32.of_int 7) 5
                         eq_refl eq_refl (le_n 5)))).
Defined.

(* ================================================================== *)
(** * The identity quaternion *)

Lemma digits2_shift23 m :
  Zpos (digits2_pos (8388608 * m)) = Zpos (digits2_pos m) + 23.
Proof.
  apply digits2_unique. destruct (digits2_bounds m) as [L U].
  rewrite Pos2Z.inj_mul. change (Zpos 8388608) with (2 ^ 23).
  replace (Zpos (digits2_pos m) + 23 - 1) with (23 + (Zpos (digits2_pos m) - 1)) by lia.
  replace (Zpos (digits2_pos m) + 23) with (23 + Zpos (digits2_pos m)) by lia.
  rewrite !Z.pow_add_r by lia. split.
  - apply Z.mul_le_mono_nonneg_l; lia.
  - apply Z.mul_lt_mono_pos_l; lia.
Qed.

Lemma shr23 m :
  iter_pos shr_1 23 (exact_rec (8388608 * m)) = exact_rec m.
Proof. reflexivity. Qed.

Lemma mul_one_l x :
  F32.valid x = true -> F32.finite x = true -> F32.mul one x = x.
Proof.
  intros V F. destruct x as [s|s| |s m e]; try discriminate.
  - reflexivity.
  - apply bounded_elim in V as [C B].
    unfold F32.mul, F32.prec, F32.emax, one, SFmul. change (xorb false s) with s.
    unfold binary_round_aux.
    rewrite (shr_fexp_shift (8388608 * m) (-23 + e) 23).
    2:{ rewrite digits2_shift23.
        replace (Zpos (digits2_pos m) + 23 + (-23 + e)) with (Zpos (digits2_pos m) + e) by lia.
        rewrite C. lia. }
    cbv beta iota. rewrite shr23.
    cbn [shr_m exact_rec loc_of_shr_record round_nearest_even].
    replace (-23 + e + 23) with e by lia.
    rewrite shr_fexp_noshift by lia.
    cbn [shr_m exact_rec].
    replace (e <=? 128 - 24) with true by (symmetry; apply Z.leb_le; lia).
    reflexivity.
Qed.

Lemma mul_comm_finite a b : F32.mul a b = F32.mul b a.
Proof.
  destruct a as [sa|sa| |sa ma ea], b as [sb|sb| |sb mb eb]; simpl;
    try reflexivity; try (destruct sa, sb; reflexivity).
  unfold F32.mul, SFmul.
  rewrite (Pos.mul_comm ma mb), (Z.add_comm ea eb), (xorb_comm sa sb). reflexivity.
Qed.

Lemma mul_one_r x :
  F32.valid x = true -> F32.finite x = true -> F32.mul x one = x.
Proof. intros V F. rewrite mul_comm_finite. now apply mul_one_l. Qed.

Lemma keeps_refl a : F32.finite a = true -> keeps a a.
Proof.
  destruct a as [s|s| |s m e]; try discriminate; intros _.
  - right. split; exists s; reflexivity.
  - left. split; [reflexivity | eauto].
Qed.

Lemma keeps_mul_one_l a : number a -> keeps a (F32.mul one a).
Proof. intros [V F]. rewrite mul_one_l by assumption. now apply keeps_refl. Qed.

Lemma keeps_mul_one_r a : number a -> keeps a (F32.mul a one).
Proof. intros [V F]. rewrite mul_one_r by assumption. now apply keeps_refl. Qed.

Lemma zero_mul_l b : number b -> is_zero (F32.mul F32.zero b).
Proof.
  intros [_ F]. destruct b as [s|s| |s m e]; try discriminate; eexists; reflexivity.
Qed.

Lemma zero_mul_r b : number b -> is_zero (F32.mul b F32.zero).
Proof.
  intros [_ F]. destruct b as [s|s| |s m e]; try discriminate; eexists; reflexivity.
Qed.

Lemma zero_add z1 z2 : is_zero z1 -> is_zero z2 -> is_zero (F32.add z1 z2).
Proof. intros [s1 ->] [s2 ->]. destruct s1, s2; eexists; reflexivity. Qed.

Lemma zero_sub z1 z2 : is_zero z1 -> is_zero z2 -> is_zero (F32.sub z1 z2).
Proof. intros [s1 ->] [s2 ->]. destruct s1, s2; eexists; reflexivity. Qed.

Lemma keeps_add_r a r z : keeps a r -> is_zero z -> keeps a (F32.add r z).
Proof.
  intros [[-> (s & m & e & ->)]|[Zr Za]] Zz.
  - destruct Zz as [sz ->]. left. split; [reflexivity | eauto].
  - right. split; [now apply zero_add | exact Za].
Qed.

Lemma keeps_sub_r a r z : keeps a r -> is_zero z -> keeps a (F32.sub r z).
Proof.
  intros [[-> (s & m & e & ->)]|[Zr Za]] Zz.
  - destruct Zz as [sz ->]. left. split; [reflexivity | eauto].
  - right. split; [now apply zero_sub | exact Za].
Qed.

Lemma keeps_add_l a r z : is_zero z -> keeps a r -> keeps a (F32.add z r).
Proof.
  intros Zz [[-> (s & m & e & ->)]|[Zr Za]].
  - destruct Zz as [sz ->]. left. split; [reflexivity | eauto].
  - right. split; [now apply zero_add | exact Za].
Qed.

Lemma keeps_eq a r : keeps a r -> F32.eq r a = true.
Proof.
  intros [[-> (s & m & e & ->)]|[[s1 ->] [s2 ->]]].
  - unfold F32.eq, SFeqb, SFcompare.
    rewrite Z.compare_refl, Pos.compare_cont_refl. destruct s; reflexivity.
  - reflexivity.
Qed.

Create HintDb quat.
#[local] Hint Resolve keeps_mul_one_l keeps_mul_one_r zero_mul_l zero_mul_r
  zero_add zero_sub keeps_add_r keeps_sub_r keeps_add_l keeps_eq : quat.

Lemma hamilton_identity_l q :
  number_quaternion q -> float_eq_quaternion (hamilton identity_quaternion q) q.
Proof.
  intros (Nw & Nx & Ny & Nz).
  unfold float_eq_quaternion, hamilton, identity_quaternion; cbn [q_w q_x q_y q_z].
  repeat split; auto 10 with quat.
Qed.

Lemma hamilton_identity_r q :
  number_quaternion q -> float_eq_quaternion (hamilton q identity_quaternion) q.
Proof.
  intros (Nw & Nx & Ny & Nz).
  unfold float_eq_quaternion, hamilton, identity_quaternion; cbn [q_w q_x q_y q_z].
  repeat split; auto 10 with quat.
Qed.

Lemma quaternionInitQuaternion_at i h :
  quaternionInitQuaternion i h i = identity_quaternion.
Proof.
  unfold quaternionInitQuaternion.
  rewrite set_z_at, set_y_at, set_x_at, set_w_at. reflexivity.
Qed.

(** Claim C10, as amended.  The quaternion stored by
    [quaternionInitQuaternion] (w = 1, x = y = z = 0) is a two-sided
    identity of [quaternionMultiply] on quaternions with finite components:
    for such a [q], both quaternionMultiply(identity, q, o) and
    quaternionMultiply(q, identity, o) leave in [o] a quaternion whose four
    components compare equal ([==]) to those of [q], whichever of the three
    pointers coincide. *)
Theorem quaternion_identity_two_sided (i q o : ptr) (h : heap quaternion) :
  let h1 := quaternionInitQuaternion i h in
  number_quaternion (h1 q) ->
  float_eq_quaternion (quaternionMultiply i q o h1 o) (h1 q) /\
  float_eq_quaternion (quaternionMultiply q i o h1 o) (h1 q).
Proof.
  intros h1 N. rewrite !quaternionMultiply_at.
  assert (I : h1 i = identity_quaternion) by apply quaternionInitQuaternion_at.
  rewrite I.
  split; [now apply hamilton_identity_l | now apply hamilton_identity_r].
Qed.

(** The theorem at q = (0.5, 2, -1, 0). *)
Lemma quaternion_identity_two_sided_witness :
  let h : heap quaternion :=
    fun _ => {| q_w := half; q_x := two; q_y := F32.neg one; q_z := F32.zero |} in
  float_eq_quaternion
    (quaternionMultiply (Caller 0) (Caller 1) (Caller 2)
       (quaternionInitQuaternion (Caller 0) h) (Caller 2))
    (quaternionInitQuaternion (Caller 0) h (Caller 1)).
Proof.
  intros h.
  refine (proj1 (quaternion_identity_two_sided (Caller 0) (Caller 1) (Caller 2) h _)).
  repeat split; reflexivity.
Defined.

(** Claim C10 as stated fails: a component that is not a NaN may be an
    infinity, and 0 * infinity is a NaN.  With q = (+infinity, 0, 0, 0) the
    product identity * q has a NaN for x, which does not compare equal to
    the 0 of [q]. *)
Lemma quaternion_identity_infinity :
  let q := {| q_w := S754_infinity false; q_x := F32.zero;
              q_y := F32.zero; q_z := F32.zero |} in
  let h : heap quaternion := fun _ => q in
  let h1 := quaternionInitQuaternion (Caller 0) h in
  (F32.is_nan (q_w q) = false /\ F32.is_nan (q_x q) = false /\
   F32.is_nan (q_y q) = false /\ F32.is_nan (q_z q) = false) /\
  h1 (Caller 1) = q /\
  q_x (quaternionMultiply (Caller 0) (Caller 1) (Caller 2) h1 (Caller 2)) = S754_nan /\
  F32.eq (q_x (quaternionMultiply (Caller 0) (Caller 1) (Caller 2) h1 (Caller 2)))
         (q_x (h1 (Caller 1))) = false.
Proof. vm_compute. repeat split; reflexivity. Qed.

(* ================================================================== *)
(** * Integer utilities: gcd, arraySubInt32, fixed point, range ends *)

Lemma gcd_eq fuel num denom :
  gcd fuel num denom =
    if denom =? 0 then Some num
    else match fuel with
         | O => None
         | S fuel' => gcd fuel' denom (Int.wrap32 (Z.rem num denom))
         end.
Proof. destruct fuel; reflexivity. Qed.

Lemma rem_int32 num denom :
  Int.int32 denom -> denom <> 0 ->
  Int.wrap32 (Z.rem num denom) = Z.rem num denom /\
  Int.int32 (Z.rem num denom) /\ Z.abs (Z.rem num denom) < Z.abs denom.
Proof.
  intros Hd Hn.
  pose proof (Z.rem_bound_abs num denom Hn) as B.
  assert (R : Int.int32 (Z.rem num denom)).
  { revert Hd. unfold Int.int32, Int.in_range. simpl. lia. }
  split; [now apply wrap32_id | split; [exact R | exact B]].
Qed.

Lemma gcd_rem_step num denom : Z.gcd denom (Z.rem num denom) = Z.gcd num denom.
Proof.
  destruct (Z.eq_dec denom 0) as [->|N].
  - rewrite Z.rem_0_r_ext by reflexivity. rewrite Z.gcd_0_l, Z.gcd_0_r.
    reflexivity.
  - rewrite <- (Z.gcd_abs_r denom (Z.rem num denom)).
    rewrite <- Z.rem_abs by exact N.
    rewrite Z.rem_mod_nonneg by lia.
    rewrite <- (Z.gcd_abs_l denom).
    rewrite Z.gcd_comm, Z.gcd_mod by lia.
    rewrite Z.gcd_abs_l, Z.gcd_abs_r. apply Z.gcd_comm.
Qed.

Lemma gcd_result fuel : forall num denom,
  Int.int32 denom -> (Z.abs denom <= Z.of_nat fuel) ->
  exists g, gcd fuel num denom = Some g /\ Z.abs g = Z.gcd num denom /\
            (0 <= num -> 0 <= denom -> 0 <= g).
Proof.
  induction fuel as [|k IH]; intros num denom Hd Hf; rewrite gcd_eq.
  - assert (denom = 0) by (simpl in Hf; lia). subst. simpl.
    exists num. rewrite Z.gcd_0_r. auto.
  - destruct (Z.eqb_spec denom 0) as [->|N].
    + exists num. rewrite Z.gcd_0_r. auto.
    + destruct (rem_int32 num denom Hd N) as (W & R & B).
      rewrite W.
      destruct (IH denom (Z.rem num denom) R) as (g & E & A & S).
      { rewrite Nat2Z.inj_succ in Hf. lia. }
      exists g. split; [exact E|]. split.
      * rewrite A. apply gcd_rem_step.
      * intros Hn Hp. apply S; [exact Hp|].
        apply Z.rem_nonneg; [exact N | exact Hn].
Qed.

(** Property X1.  [gcd] on [int] operands other than INT_MIN (for these no
    remainder [num % denom] overflows): the recursion returns after at most
    |denom| recursive calls, the absolute value of the result is the greatest
    common divisor of the operands, the result is the greatest common
    divisor itself when neither operand is negative, and gcd(num, 0) is
    num. *)
Theorem gcd_spec num denom fuel :
  Int.int32 num -> Int.int32 denom ->
  num <> Int.INT32_MIN -> denom <> Int.INT32_MIN ->
  (Z.abs denom <= Z.of_nat fuel) ->
  (exists g, gcd fuel num denom = Some g /\ Z.abs g = Z.gcd num denom /\
             (0 <= num -> 0 <= denom -> g = Z.gcd num denom)) /\
  gcd fuel num 0 = Some num.
Proof.
  intros _ Hd _ _ Hf. split.
  - destruct (gcd_result fuel num denom Hd Hf) as (g & E & A & S).
    exists g. split; [exact E|]. split; [exact A|].
    intros Hn Hp. specialize (S Hn Hp). lia.
  - rewrite gcd_eq. reflexivity.
Qed.

(** The theorem at gcd(12, 18). *)
Lemma gcd_spec_witness :
  exists g, gcd 18 12 18 = Some g /\ Z.abs g = Z.gcd 12 18 /\
            (0 <= 12 -> 0 <= 18 -> g = Z.gcd 12 18).
Proof.
  refine (proj1 (gcd_spec 12 18 18 _ _ _ _ _));
    unfold Int.int32, Int.in_range, Int.INT32_MIN; simpl; lia.
Defined.

Lemma store_int_same a v m : store_int a v m a = v.
Proof. unfold store_int. now rewrite Z.eqb_refl. Qed.

Lemma store_int_other a v m b : b <> a -> store_int a v m b = m b.
Proof. intros H. unfold store_int. destruct (Z.eqb_spec b a); [contradiction | reflexivity]. Qed.

Lemma arraySubInt32_from_spec n : forall i0 dest array1 array2 m,
  (forall i j, i0 <= i < j -> j < i0 + Z.of_nat n ->
     dest + i <> array1 + j /\ dest + i <> array2 + j) ->
  let m' := arraySubInt32_from n i0 dest array1 array2 m in
  (forall i, i0 <= i < i0 + Z.of_nat n ->
     m' (dest + i) = Int.wrap32 (m (array1 + i) - m (array2 + i))) /\
  (forall a, (a < dest + i0 \/ dest + i0 + Z.of_nat n <= a) -> m' a = m a).
Proof.
  induction n as [|n IH]; intros i0 dest array1 array2 m H m'.
  - split; [intros i Hi; simpl in Hi; lia | reflexivity].
  - subst m'. simpl arraySubInt32_from.
    set (m1 := store_int (dest + i0) (Int.wrap32 (m (array1 + i0) - m (array2 + i0))) m).
    destruct (IH (i0 + 1) dest array1 array2 m1) as [A B].
    { intros i j Hij Hj. apply H; lia. }
    rewrite Nat2Z.inj_succ in *.
    split.
    + intros i Hi. destruct (Z.eq_dec i i0) as [->|N].
      * rewrite B by lia. unfold m1. apply store_int_same.
      * rewrite A by lia.
        destruct (H i0 i ltac:(lia) ltac:(lia)) as [N1 N2].
        unfold m1. rewrite !store_int_other by congruence. reflexivity.
    + intros a Ha. rewrite B by lia. unfold m1. apply store_int_other. lia.
Qed.

(** Property X2.  [arraySubInt32] on a memory of [int32_t] cells.  Provided
    no cell written ([dest[i]]) is a cell read by a later iteration
    ([array1[j]] or [array2[j]] with j > i), which holds for disjoint arrays
    and also when [dest] is [array1] or [array2] itself, every [dest[i]] with
    0 <= i < count ends up as [array1[i] - array2[i]] of the initial
    contents, computed in [int32_t], and so as the exact difference when
    that is representable; the memory outside [dest[0 .. count-1]] is
    unchanged, and a count that is zero or negative writes nothing. *)
Theorem arraySubInt32_spec dest array1 array2 count m :
  (forall i j, 0 <= i < j -> j < count ->
     dest + i <> array1 + j /\ dest + i <> array2 + j) ->
  let m' := arraySubInt32 dest array1 array2 count m in
  (forall i, 0 <= i < count ->
     m' (dest + i) = Int.wrap32 (m (array1 + i) - m (array2 + i))) /\
  (forall i, 0 <= i < count -> Int.int32 (m (array1 + i) - m (array2 + i)) ->
     m' (dest + i) = m (array1 + i) - m (array2 + i)) /\
  (forall a, (a < dest \/ dest + count <= a) -> m' a = m a) /\
  (count <= 0 -> forall a, m' a = m a).
Proof.
  intros H m'. unfold arraySubInt32 in m'.
  destruct (arraySubInt32_from_spec (Z.to_nat count) 0 dest array1 array2 m) as [A B].
  { intros i j Hij Hj. apply H; lia. }
  fold m' in A, B. split; [|split; [|split]].
  - intros i Hi. apply A. lia.
  - intros i Hi R. rewrite A by lia. now apply wrap32_id.
  - intros a Ha. apply B. lia.
  - intros Hc a. subst m'. replace (Z.to_nat count) with 0%nat by lia. reflexivity.
Qed.

(** The theorem at an in-place subtraction of three cells. *)
Lemma arraySubInt32_spec_witness :
  arraySubInt32 0 0 10 3 (fun a => a) (0 + 1)
  = Int.wrap32 ((fun a => a) (0 + 1) - (fun a => a) (10 + 1)).
Proof.
  refine (proj1 (arraySubInt32_spec 0 0 10 3 (fun a => a) _) 1 _);
    [intros i j Hi Hj; lia | lia].
Defined.

Lemma wrap16_id z : int16 z -> wrap16 z = z.
Proof.
  unfold int16, Int.in_range, wrap16, Int.wrap. simpl.
  intros H. rewrite Z.mod_small; lia.
Qed.

Lemma quot_abs_le a b : b <> 0 -> Z.abs (Z.quot a b) <= Z.abs a.
Proof. intros N. Z.quot_rem_to_equations. nia. Qed.

Lemma qConstruct_value num den :
  int16 num -> int16 den -> den <> 0 ->
  qConstruct num den = Z.quot (num * 4096) den.
Proof.
  unfold int16, Int.in_range. simpl. intros Hn Hd N.
  unfold qConstruct. rewrite Z.shiftl_mul_pow2 by lia. change (2 ^ 12) with 4096.
  rewrite (wrap32_id (num * 4096)) by (unfold Int.int32, Int.in_range; simpl; lia).
  apply wrap32_id. unfold Int.int32, Int.in_range. simpl.
  pose proof (quot_abs_le (num * 4096) den N). lia.
Qed.

Lemma qMultiply_value q input :
  Int.int32 (input * q) -> int16 (input * q / 4096) ->
  qMultiply q input = input * q / 4096.
Proof.
  intros H1 H2. unfold qMultiply.
  rewrite wrap32_id by exact H1.
  rewrite Z.shiftr_div_pow2 by lia. change (2 ^ 12) with 4096.
  now apply wrap16_id.
Qed.

Lemma qPercent_qMultiply q : qPercent q = qMultiply q 100.
Proof. reflexivity. Qed.

(** Property X3.  The fixed-point one.  For every [int16_t] n > 0,
    qConstruct(n, n) is 4096, that is 1.0 with 12 fractional bits;
    [qMultiply] by it returns every [int16_t] input unchanged, and its
    [qPercent] is 100. *)
Theorem fix12_unit n x :
  int16 n -> 0 < n -> int16 x ->
  qConstruct n n = 4096 /\
  qMultiply (qConstruct n n) x = x /\
  qPercent (qConstruct n n) = 100.
Proof.
  intros Hn Hp Hx.
  assert (N : n <> 0) by lia.
  assert (E : qConstruct n n = 4096).
  { rewrite qConstruct_value by assumption.
    rewrite Z.mul_comm. apply Z.quot_mul. exact N. }
  rewrite E. split; [reflexivity|]. split; [|reflexivity].
  unfold int16, Int.in_range in Hx. simpl in Hx.
  rewrite qMultiply_value.
  - apply Z.div_mul. lia.
  - unfold Int.int32, Int.in_range. simpl. lia.
  - rewrite Z.div_mul by lia. unfold int16, Int.in_range. simpl. lia.
Qed.

(** The theorem at n = 5 and the input -7. *)
Lemma fix12_unit_witness :
  qConstruct 5 5 = 4096 /\ qMultiply (qConstruct 5 5) (-7) = -7 /\
  qPercent (qConstruct 5 5) = 100.
Proof.
  apply (fix12_unit 5 (-7)); unfold int16, Int.in_range; simpl; lia.
Defined.

Lemma fraction_bounds num den :
  0 <= num <= den -> 0 < den ->
  let q := Z.quot (num * 4096) den in
  0 <= q <= 4096 /\ q * den <= num * 4096 < (q + 1) * den.
Proof.
  intros Hn Hd q. subst q.
  rewrite Z.quot_div_nonneg by lia.
  pose proof (Z.mul_div_le (num * 4096) den Hd).
  pose proof (Z.mul_succ_div_gt (num * 4096) den Hd).
  assert (0 <= num * 4096 / den) by (apply Z.div_pos; lia).
  assert (num * 4096 / den <= 4096).
  { apply Z.div_le_upper_bound; lia. }
  lia.
Qed.

Lemma qMultiply_fraction num den input :
  int16 num -> int16 den -> int16 input ->
  0 <= num <= den -> 0 < den -> 0 <= input ->
  let r := qMultiply (qConstruct num den) input in
  0 <= r <= input /\
  r * den <= input * num /\
  input * num * 4096 < (r + 1) * den * 4096 + input * den.
Proof.
  intros Hn Hd Hi Hnd Hp Hin r. subst r.
  rewrite qConstruct_value by (assumption || lia).
  destruct (fraction_bounds num den Hnd Hp) as (Q & L & U).
  set (q := Z.quot (num * 4096) den) in *.
  unfold int16, Int.in_range in Hi. simpl in Hi.
  assert (D1 : 4096 * (input * q / 4096) <= input * q)
    by (apply Z.mul_div_le; lia).
  assert (D2 : input * q < 4096 * Z.succ (input * q / 4096))
    by (apply Z.mul_succ_div_gt; lia).
  assert (D0 : 0 <= input * q / 4096) by (apply Z.div_pos; nia).
  assert (D3 : input * q / 4096 <= input).
  { apply Z.div_le_upper_bound; nia. }
  rewrite qMultiply_value.
  - split; [lia|]. split; nia.
  - unfold Int.int32, Int.in_range. simpl. nia.
  - unfold int16, Int.in_range. simpl. lia.
Qed.

(** Property X4.  Scaling by a fraction.  For [int16_t] values with
    0 <= num <= den, 0 < den and 0 <= input, the result r of
    qMultiply(qConstruct(num, den), input) never exceeds the exact product
    input * num / den: 0 <= r <= input and r * den <= input * num; and it
    falls short of it by less than 1 + input / 4096, the two truncations:
    input * num * 4096 < (r + 1) * den * 4096 + input * den. *)
Theorem fix12_fraction num den input :
  int16 num -> int16 den -> int16 input ->
  0 <= num <= den -> 0 < den -> 0 <= input ->
  let r := qMultiply (qConstruct num den) input in
  0 <= r <= input /\
  r * den <= input * num /\
  input * num * 4096 < (r + 1) * den * 4096 + input * den.
Proof. exact (qMultiply_fraction num den input). Qed.

(** Property X5.  The percentage of a fraction.  For [int16_t] values with
    0 <= num <= den and 0 < den, the result r of
    qPercent(qConstruct(num, den)) lies between 0 and 100, never exceeds
    the exact percentage (r * den <= 100 * num) and is less than 2 below it
    (100 * num < (r + 2) * den). *)
Theorem fix12_percent num den :
  int16 num -> int16 den -> 0 <= num <= den -> 0 < den ->
  let r := qPercent (qConstruct num den) in
  0 <= r <= 100 /\ r * den <= 100 * num < (r + 2) * den.
Proof.
  intros Hn Hd Hnd Hp r. subst r. rewrite qPercent_qMultiply.
  assert (H100 : int16 100) by (unfold int16, Int.in_range; simpl; lia).
  destruct (qMultiply_fraction num den 100 Hn Hd H100 Hnd Hp ltac:(lia)) as (R & L & U).
  set (r := qMultiply (qConstruct num den) 100) in *.
  split; [exact R|]. split; [lia|]. nia.
Qed.

(** The theorem at one third. *)
Lemma fix12_percent_witness :
  let r := qPercent (qConstruct 1 3) in
  0 <= r <= 100 /\ r * 3 <= 100 * 1 < (r + 2) * 3.
Proof.
  apply (fix12_percent 1 3); unfold int16, Int.in_range; simpl; lia.
Defined.

(** The theorem at one third of 1000. *)
Lemma fix12_fraction_witness :
  let r := qMultiply (qConstruct 1 3) 1000 in
  0 <= r <= 1000 /\ r * 3 <= 1000 * 1 /\
  1000 * 1 * 4096 < (r + 1) * 3 * 4096 + 1000 * 3.
Proof.
  apply (fix12_fraction 1 3 1000); unfold int16, Int.in_range; simpl; lia.
Defined.

Lemma wrap_zero bits : 0 < bits -> Int.wrap bits 0 = 0.
Proof.
  intros H. apply wrap_id; [exact H|]. unfold Int.in_range.
  assert (0 < 2 ^ (bits - 1)) by (apply pow2_pos; lia). lia.
Qed.

(** Property X6.  The ends of the range.  For [int] arguments with
    srcFrom <> srcTo whose differences destTo - destFrom and srcTo - srcFrom
    are representable in [long int], [scaleRange] maps srcFrom to destFrom;
    when also the product of the two differences is representable in
    [long int], it maps srcTo to destTo.  This holds for a 32-bit and for a
    64-bit [long int]. *)
Theorem scaleRange_ends dm srcFrom srcTo destFrom destTo :
  Int.int32 srcFrom -> Int.int32 srcTo -> Int.int32 destFrom -> Int.int32 destTo ->
  srcFrom <> srcTo ->
  Int.in_range (LONG_BITS dm) (destTo - destFrom) ->
  Int.in_range (LONG_BITS dm) (srcTo - srcFrom) ->
  scaleRange dm srcFrom srcFrom srcTo destFrom destTo = destFrom /\
  (Int.in_range (LONG_BITS dm) ((destTo - destFrom) * (srcTo - srcFrom)) ->
   scaleRange dm srcTo srcFrom srcTo destFrom destTo = destTo).
Proof.
  intros Hsf Hst Hdf Hdt Hne H1 H3.
  assert (Hb : 0 < LONG_BITS dm) by (destruct dm; simpl; lia).
  split.
  - unfold scaleRange. rewrite Z.sub_diag, (wrap_zero _ Hb), Z.mul_0_r, (wrap_zero _ Hb).
    change (Z.quot 0 (Int.wrap (LONG_BITS dm) (srcTo - srcFrom))) with 0.
    rewrite (wrap_zero _ Hb), Z.add_0_l, wrap32_long.
    now apply wrap32_id.
  - intros H4. unfold scaleRange.
    rewrite (wrap_id _ (destTo - destFrom)) by assumption.
    rewrite (wrap_id _ (srcTo - srcFrom)) by assumption.
    rewrite (wrap_id _ ((destTo - destFrom) * (srcTo - srcFrom))) by assumption.
    rewrite Z.quot_mul by lia.
    rewrite wrap_add_l, wrap32_long.
    replace (destTo - destFrom + destFrom) with destTo by lia.
    now apply wrap32_id.
Qed.

(** The theorem at the range 0..100 scaled to 1000..2000. *)
Lemma scaleRange_ends_witness :
  scaleRange ILP32 0 0 100 1000 2000 = 1000 /\
  scaleRange ILP32 100 0 100 1000 2000 = 2000.
Proof.
  refine ((fun H => conj (proj1 H) (proj2 H _))
            (scaleRange_ends ILP32 0 100 1000 2000 _ _ _ _ _ _ _));
    unfold Int.int32, Int.in_range; simpl; lia.
Defined.

(* ================================================================== *)
(** * More on rounding

    The sign of a rounded result, and its shape when the value may
    overflow: sums and differences of numbers of the format are of the
    format. *)

Lemma shr_record_of_loc_m m l : shr_m (shr_record_of_loc m l) = m.
Proof. destruct l as [|[]]; reflexivity. Qed.

Lemma iter_shr_nonneg n : forall rec, 0 <= shr_m rec -> 0 <= shr_m (iter_pos shr_1 n rec).
Proof.
  intros rec H. rewrite iter_shr_m by exact H. apply Z.div_pos; [exact H|].
  apply pow2_pos. lia.
Qed.

Lemma shr_fexp_nonneg m e l :
  0 <= m -> 0 <= shr_m (fst (shr_fexp 24 128 m e l)).
Proof.
  intros H. unfold shr_fexp, shr.
  destruct (fexp 24 128 (Zdigits2 m + e) - e) as [|n|n]; cbn [fst];
    try (rewrite shr_record_of_loc_m; exact H).
  apply iter_shr_nonneg. rewrite shr_record_of_loc_m. exact H.
Qed.

Lemma binary_round_aux_sign s mx ex lx :
  0 <= mx -> signed_as s (binary_round_aux 24 128 s mx ex lx).
Proof.
  intros H. unfold binary_round_aux.
  pose proof (shr_fexp_nonneg mx ex lx H) as H1.
  destruct (shr_fexp 24 128 mx ex lx) as [mrs' e']. cbn [fst] in H1.
  pose proof (round_nearest_even_range (shr_m mrs') (loc_of_shr_record mrs')) as R.
  set (m2 := round_nearest_even (shr_m mrs') (loc_of_shr_record mrs')) in *.
  pose proof (shr_fexp_nonneg m2 e' loc_Exact ltac:(lia)) as H2.
  destruct (shr_fexp 24 128 m2 e' loc_Exact) as [mrs'' e'']. cbn [fst] in H2.
  destruct (shr_m mrs'') as [|p|p]; try lia.
  - left. reflexivity.
  - destruct (e'' <=? 128 - 24).
    + right. left. eauto.
    + right. right. reflexivity.
Qed.

Lemma binary_round_sign s m e : signed_as s (binary_round 24 128 s m e).
Proof.
  unfold binary_round.
  destruct (shl_align m e (fexp 24 128 (Zpos (digits2_pos m) + e))) as [mz ez].
  apply binary_round_aux_sign. lia.
Qed.

Lemma signed_not_nan s x : signed_as s x -> F32.is_nan x = false.
Proof. intros [->|[(m & e & ->)| ->]]; reflexivity. Qed.

Lemma square_sign x : F32.is_nan x = false -> signed_as false (F32.mul x x).
Proof.
  destruct x as [s|s| |s m e]; try discriminate; intros _.
  - left. simpl. now rewrite xorb_nilpotent.
  - right. right. simpl. now rewrite xorb_nilpotent.
  - unfold F32.mul, F32.prec, F32.emax, SFmul.
    rewrite xorb_nilpotent. apply binary_round_aux_sign. lia.
Qed.

Lemma add_sign a b :
  signed_as false a -> signed_as false b -> signed_as false (F32.add a b).
Proof.
  intros [->|[(ma & ea & ->)| ->]] [->|[(mb & eb & ->)| ->]];
    try (left; reflexivity); try (right; left; eexists; eexists; reflexivity);
    try (right; right; reflexivity).
  unfold F32.add, F32.prec, F32.emax, SFadd, cond_Zopp.
  destruct (shl_align ma ea (Z.min ea eb)) as [ma' ?].
  destruct (shl_align mb eb (Z.min ea eb)) as [mb' ?].
  cbn [fst]. change (Zpos ma' + Zpos mb') with (Zpos (ma' + mb')).
  apply binary_round_sign.
Qed.

Lemma sqrt_sign a : signed_as false a -> signed_as false (F32.sqrtf a).
Proof.
  intros [->|[(m & e & ->)| ->]];
    try (left; reflexivity); try (right; right; reflexivity).
  unfold F32.sqrtf, F32.prec, F32.emax, SFsqrt, SFsqrt_core_binary.
  set (m' := match _ with Zpos _ => _ | _ => _ end).
  pose proof (Z.sqrtrem_sqrt m') as Q.
  destruct (Z.sqrtrem m') as [q r]. cbn [fst] in Q.
  apply binary_round_aux_sign. rewrite Q. apply Z.sqrt_nonneg.
Qed.

Lemma binary_round_aux_canonical_gen s M E :
  fexp 24 128 (Zpos (digits2_pos M) + E) = E ->
  binary_round_aux 24 128 s (Zpos M) E loc_Exact
    = if E <=? 104 then S754_finite s M E else S754_infinity s.
Proof.
  intros C. unfold binary_round_aux.
  rewrite shr_fexp_noshift by lia.
  cbv beta iota. unfold exact_rec at 1 2. cbn [shr_m loc_of_shr_record round_nearest_even].
  rewrite shr_fexp_noshift by lia.
  cbn [shr_m exact_rec]. reflexivity.
Qed.

Lemma shape_of_canonical s M E :
  fexp 24 128 (Zpos (digits2_pos M) + E) = E ->
  (exists m' e', (if E <=? 104 then S754_finite s M E else S754_infinity s)
                 = S754_finite s m' e' /\ bounded 24 128 m' e' = true)
  \/ (if E <=? 104 then S754_finite s M E else S754_infinity s) = S754_infinity s.
Proof.
  intros C. destruct (Z.leb_spec E 104).
  - left. exists M, E. split; [reflexivity|]. now apply bounded_intro.
  - right. reflexivity.
Qed.

Lemma binary_round_shape s m e :
  -149 <= e ->
  (exists m' e', binary_round 24 128 s m e = S754_finite s m' e' /\
                 bounded 24 128 m' e' = true)
  \/ binary_round 24 128 s m e = S754_infinity s.
Proof.
  intros He.
  destruct (digits2_bounds m) as [DL DU].
  set (d := Zpos (digits2_pos m)) in *.
  assert (Hdpos : 0 < d) by (unfold d; lia).
  unfold binary_round, shl_align. fold d.
  assert (T : fexp 24 128 (d + e) = Z.max (d + e - 24) (-149)) by apply fexp_eq.
  set (t := fexp 24 128 (d + e)) in *.
  destruct (t - e) as [|n|k] eqn:Ete.
  - assert (t = e) by lia.
    rewrite binary_round_aux_canonical_gen by (fold d; lia).
    apply shape_of_canonical. fold d. lia.
  - assert (Ht : t = d + e - 24) by lia.
    assert (Hn : Zpos n = d - 24) by lia.
    unfold binary_round_aux.
    rewrite (shr_fexp_shift m e n) by (fold d; fold t; exact Ete).
    cbv beta iota.
    set (rec1 := iter_pos shr_1 n (exact_rec m)).
    assert (M1 : shr_m rec1 = Zpos m / 2 ^ Zpos n).
    { unfold rec1. rewrite iter_shr_m by (simpl; lia). reflexivity. }
    assert (P : 2 ^ d = 2 ^ 24 * 2 ^ Zpos n).
    { rewrite <- Z.pow_add_r by lia. f_equal. lia. }
    assert (P' : 2 ^ (d - 1) = 2 ^ 23 * 2 ^ Zpos n).
    { rewrite <- Z.pow_add_r by lia. f_equal. lia. }
    assert (Pn : 0 < 2 ^ Zpos n) by (apply pow2_pos; lia).
    assert (R1 : 2 ^ 23 <= shr_m rec1 < 2 ^ 24).
    { rewrite M1. split.
      - apply Z.div_le_lower_bound; lia.
      - apply Z.div_lt_upper_bound; lia. }
    pose proof (round_nearest_even_range (shr_m rec1) (loc_of_shr_record rec1)) as R2.
    set (m2 := round_nearest_even (shr_m rec1) (loc_of_shr_record rec1)) in *.
    destruct m2 as [|p2|p2] eqn:Em2; try lia.
    destruct (Z.ltb_spec (Zpos p2) (2 ^ 24)) as [Hlt|Hge].
    + assert (D2 : Zpos (digits2_pos p2) = 24) by (apply digits2_unique; simpl Z.sub; lia).
      rewrite shr_fexp_noshift by (rewrite D2, fexp_eq; lia).
      cbn [shr_m exact_rec]. change (128 - 24) with 104.
      apply shape_of_canonical. rewrite D2, fexp_eq. lia.
    + assert (Ep2 : Zpos p2 = 2 ^ 24) by lia.
      assert (D2 : Zpos (digits2_pos p2) = 25).
      { apply digits2_unique. rewrite Ep2. simpl. lia. }
      rewrite (shr_fexp_shift p2 (e + Zpos n) 1) by (rewrite D2, fexp_eq; lia).
      assert (Ep : p2 = 16777216%positive) by (apply Pos2Z.inj; rewrite Ep2; reflexivity).
      subst p2. cbn [iter_pos shr_1 exact_rec shr_m]. change (128 - 24) with 104.
      apply shape_of_canonical.
      change (Zpos (digits2_pos 8388608)) with 24. rewrite fexp_eq. lia.
  - assert (Hk : Zpos k = e - t) by lia.
    assert (Pk : 0 < 2 ^ Zpos k) by (apply pow2_pos; lia).
    assert (Emz : Zpos (Pos.iter xO m k) = Zpos m * 2 ^ Zpos k) by apply iter_xO.
    set (mz := Pos.iter xO m k) in *.
    assert (Dz : Zpos (digits2_pos mz) = d + Zpos k).
    { apply digits2_unique. rewrite Emz.
      replace (d + Zpos k - 1) with (d - 1 + Zpos k) by lia.
      rewrite !Z.pow_add_r by lia. split.
      - apply Z.mul_le_mono_nonneg_r; lia.
      - apply Z.mul_lt_mono_pos_r; lia. }
    assert (C : fexp 24 128 (Zpos (digits2_pos mz) + t) = t).
    { rewrite Dz. replace (d + Zpos k + t) with (d + e) by lia. reflexivity. }
    rewrite binary_round_aux_canonical_gen by exact C.
    now apply shape_of_canonical.
Qed.

(** Sums and differences of numbers of the format are of the format. *)
Lemma normalize_valid D ez :
  -149 <= ez -> F32.valid (binary_normalize 24 128 D ez false) = true.
Proof.
  intros He. destruct D as [|p|p]; simpl binary_normalize.
  - reflexivity.
  - destruct (binary_round_shape false p ez He) as [(m' & e' & -> & B)| ->]; auto.
  - destruct (binary_round_shape true p ez He) as [(m' & e' & -> & B)| ->]; auto.
Qed.

Lemma min_exponent ma ea mb eb :
  bounded 24 128 ma ea = true -> bounded 24 128 mb eb = true ->
  -149 <= Z.min ea eb.
Proof.
  intros Ba Bb.
  destruct (bounded_facts _ _ Ba) as (Ea & _).
  destruct (bounded_facts _ _ Bb) as (Eb & _). lia.
Qed.

Lemma add_valid a b :
  F32.valid a = true -> F32.valid b = true -> F32.valid (F32.add a b) = true.
Proof.
  intros Va Vb.
  destruct a as [sa|sa| |sa ma ea], b as [sb|sb| |sb mb eb];
    try reflexivity; try assumption;
    try (destruct sa, sb; reflexivity).
  apply normalize_valid. now apply (min_exponent ma ea mb eb).
Qed.

Lemma sub_valid a b :
  F32.valid a = true -> F32.valid b = true -> F32.valid (F32.sub a b) = true.
Proof.
  intros Va Vb.
  destruct a as [sa|sa| |sa ma ea], b as [sb|sb| |sb mb eb];
    try reflexivity; try assumption;
    try (destruct sa, sb; reflexivity).
  apply normalize_valid. now apply (min_exponent ma ea mb eb).
Qed.

Lemma shr_fexp_positive m e l :
  0 < m -> 2 ^ (-149 - e) <= m ->
  0 < shr_m (fst (shr_fexp 24 128 m e l)) /\ -149 <= snd (shr_fexp 24 128 m e l).
Proof.
  intros Hm Hs. destruct m as [|p|p]; try lia.
  unfold shr_fexp, shr, Zdigits2. rewrite fexp_eq.
  destruct (digits2_bounds p) as [DL DU].
  set (d := Zpos (digits2_pos p)) in *.
  assert (Hd : 0 < d) by (unfold d; lia).
  destruct (Z.max (d + e - 24) (-149) - e) as [|k|k] eqn:En; cbn [fst snd].
  - rewrite shr_record_of_loc_m. lia.
  - rewrite iter_shr_m by (rewrite shr_record_of_loc_m; lia).
    rewrite shr_record_of_loc_m. split; [|lia].
    assert (P : 0 < 2 ^ Zpos k) by (apply pow2_pos; lia).
    apply Z.div_str_pos. split; [exact P|].
    destruct (Z.max_spec (d + e - 24) (-149)) as [[_ E]|[_ E]]; rewrite E in En.
    + replace (Zpos k) with (-149 - e) by lia. exact Hs.
    + apply Z.le_trans with (2 ^ (d - 1)); [|exact DL].
      apply Z.pow_le_mono_r; lia.
  - rewrite shr_record_of_loc_m. lia.
Qed.

Lemma binary_round_aux_positive s m e l :
  0 < m -> 2 ^ (-149 - e) <= m ->
  signed_nonzero s (binary_round_aux 24 128 s m e l).
Proof.
  intros Hm Hs. unfold binary_round_aux.
  destruct (shr_fexp_positive m e l Hm Hs) as [P1 E1].
  destruct (shr_fexp 24 128 m e l) as [mrs' e']. cbn [fst snd] in P1, E1.
  pose proof (round_nearest_even_range (shr_m mrs') (loc_of_shr_record mrs')) as R.
  set (m2 := round_nearest_even (shr_m mrs') (loc_of_shr_record mrs')) in *.
  assert (Hm2 : 0 < m2) by lia.
  assert (Hs2 : 2 ^ (-149 - e') <= m2).
  { destruct (Z.eq_dec e' (-149)) as [->|N].
    - change (2 ^ (-149 - -149)) with 1. lia.
    - rewrite Z.pow_neg_r by lia. lia. }
  destruct (shr_fexp_positive m2 e' loc_Exact Hm2 Hs2) as [P2 E2].
  destruct (shr_fexp 24 128 m2 e' loc_Exact) as [mrs'' e'']. cbn [fst snd] in P2, E2.
  destruct (shr_m mrs'') as [|p|p]; try lia.
  destruct (e'' <=? 128 - 24).
  - left. eauto.
  - right. reflexivity.
Qed.

Lemma binary_round_aux_rounded s m e l :
  0 <= m -> rounded s (binary_round_aux 24 128 s m e l).
Proof.
  intros Hm. unfold binary_round_aux.
  assert (E1 : -149 <= snd (shr_fexp 24 128 m e l)).
  { unfold shr_fexp, shr. rewrite fexp_eq.
    destruct (Z.max (Zdigits2 m + e - 24) (-149) - e) eqn:En; cbn [snd]; lia. }
  pose proof (shr_fexp_nonneg m e l Hm) as P1.
  destruct (shr_fexp 24 128 m e l) as [mrs' e']. cbn [fst snd] in P1, E1.
  pose proof (round_nearest_even_range (shr_m mrs') (loc_of_shr_record mrs')) as R.
  set (m2 := round_nearest_even (shr_m mrs') (loc_of_shr_record mrs')) in *.
  assert (E2 : -149 <= snd (shr_fexp 24 128 m2 e' loc_Exact)).
  { unfold shr_fexp, shr. rewrite fexp_eq.
    destruct (Z.max (Zdigits2 m2 + e' - 24) (-149) - e') eqn:En; cbn [snd]; lia. }
  pose proof (shr_fexp_nonneg m2 e' loc_Exact ltac:(lia)) as P2.
  destruct (shr_fexp 24 128 m2 e' loc_Exact) as [mrs'' e'']. cbn [fst snd] in P2, E2.
  destruct (shr_m mrs'') as [|p|p]; try lia.
  - left. reflexivity.
  - right. destruct (e'' <=? 128 - 24).
    + left. eauto.
    + right. reflexivity.
Qed.

Lemma square_rounded x : F32.is_nan x = false -> rounded false (F32.mul x x).
Proof.
  destruct x as [s|s| |s m e]; try discriminate; intros _.
  - left. simpl. now rewrite xorb_nilpotent.
  - right. right. simpl. now rewrite xorb_nilpotent.
  - unfold F32.mul, F32.prec, F32.emax, SFmul.
    rewrite xorb_nilpotent. apply binary_round_aux_rounded. lia.
Qed.

Lemma square_nonzero x : number x -> not_tiny x -> signed_nonzero false (F32.mul x x).
Proof.
  intros [V F] T. unfold not_tiny in T.
  destruct x as [s|s| |s m e]; try discriminate.
  - simpl in T. lia.
  - destruct (bounded_facts _ _ V) as (E & _).
    rewrite scaled_finite in T.
    assert (T' : 2 ^ 75 <= Zpos m * 2 ^ (e + 149)).
    { destruct s; unfold cond_Zopp in T; lia. }
    unfold F32.mul, F32.prec, F32.emax, SFmul.
    rewrite xorb_nilpotent. apply binary_round_aux_positive; [lia|].
    rewrite Pos2Z.inj_mul.
    destruct (Z.le_gt_cases (-149 - (e + e)) 0) as [N|N].
    + apply Z.le_trans with 1; [|nia].
      destruct (Z.eq_dec (-149 - (e + e)) 0) as [->|N']; [reflexivity|].
      rewrite Z.pow_neg_r by lia. lia.
    + set (a := e + 149) in *.
      assert (Ha : 0 <= a <= 74) by (unfold a; lia).
      assert (X : 2 ^ 75 = 2 ^ (75 - a) * 2 ^ a).
      { rewrite <- Z.pow_add_r by lia. f_equal. lia. }
      assert (Pa : 0 < 2 ^ a) by (apply pow2_pos; lia).
      assert (M : 2 ^ (75 - a) <= Zpos m) by nia.
      assert (Y : 2 ^ (-149 - (e + e)) * 2 = 2 ^ (75 - a) * 2 ^ (75 - a)).
      { replace 2 with (2 ^ 1) at 2 by reflexivity.
        rewrite <- !Z.pow_add_r by lia. f_equal. unfold a. lia. }
      assert (0 < 2 ^ (75 - a)) by (apply pow2_pos; lia).
      nia.
Qed.

Lemma nonzero_rounded s x : signed_nonzero s x -> rounded s x.
Proof. intros H. right. exact H. Qed.

Lemma add_nonzero_l a b :
  signed_nonzero false a -> rounded false b -> signed_nonzero false (F32.add a b).
Proof.
  intros [(ma & ea & -> & Ea)| ->] [->|[(mb & eb & -> & Eb)| ->]];
    try (left; do 2 eexists; split; [reflexivity | assumption]);
    try (right; reflexivity).
  unfold F32.add, F32.prec, F32.emax, SFadd, cond_Zopp.
  destruct (shl_align ma ea (Z.min ea eb)) as [ma' ?].
  destruct (shl_align mb eb (Z.min ea eb)) as [mb' ?].
  cbn [fst]. change (Zpos ma' + Zpos mb') with (Zpos (ma' + mb')).
  unfold binary_normalize.
  destruct (binary_round_shape false (ma' + mb') (Z.min ea eb) ltac:(lia))
    as [(m' & e' & -> & B)| ->].
  - left. exists m', e'. split; [reflexivity|].
    destruct (bounded_facts _ _ B). lia.
  - right. reflexivity.
Qed.

Lemma add_nonzero_r a b :
  rounded false a -> signed_nonzero false b -> signed_nonzero false (F32.add a b).
Proof.
  intros [->|[(ma & ea & -> & Ea)| ->]] [(mb & eb & -> & Eb)| ->];
    try (left; do 2 eexists; split; [reflexivity | assumption]);
    try (right; reflexivity).
  unfold F32.add, F32.prec, F32.emax, SFadd, cond_Zopp.
  destruct (shl_align ma ea (Z.min ea eb)) as [ma' ?].
  destruct (shl_align mb eb (Z.min ea eb)) as [mb' ?].
  cbn [fst]. change (Zpos ma' + Zpos mb') with (Zpos (ma' + mb')).
  unfold binary_normalize.
  destruct (binary_round_shape false (ma' + mb') (Z.min ea eb) ltac:(lia))
    as [(m' & e' & -> & B)| ->].
  - left. exists m', e'. split; [reflexivity|].
    destruct (bounded_facts _ _ B). lia.
  - right. reflexivity.
Qed.

Lemma add_rounded a b :
  rounded false a -> rounded false b -> rounded false (F32.add a b).
Proof.
  intros [->|Ha] Hb.
  - destruct Hb as [->|Hb]; [left; reflexivity|].
    right. apply add_nonzero_r; [left; reflexivity | exact Hb].
  - right. now apply add_nonzero_l.
Qed.

(** The square root of a number that is not zero is not zero. *)
Lemma sqrt_nonzero a : signed_nonzero false a -> signed_nonzero false (F32.sqrtf a).
Proof.
  intros [(m & e & -> & He)| ->]; [|right; reflexivity].
  unfold F32.sqrtf, F32.prec, F32.emax, SFsqrt, SFsqrt_core_binary.
  cbv zeta.
  set (d := Zdigits2 (Zpos m)).
  set (e' := Z.min (fexp 24 128 (Z.div2 (d + e + 1))) (Z.div2 e)).
  assert (He' : 2 * e' <= e).
  { unfold e'. rewrite (Z.div2_div e).
    pose proof (Z.mul_div_le e 2 ltac:(lia)). lia. }
  set (m' := match e - 2 * e' with
             | 0 => Zpos m
             | Zpos _ => Z.shiftl (Zpos m) (e - 2 * e')
             | Zneg _ => 0
             end).
  assert (Hm' : 2 ^ (e - 2 * e') <= m').
  { unfold m'. destruct (e - 2 * e') as [|k|k] eqn:Es; try lia.
    rewrite Z.shiftl_mul_pow2 by lia.
    assert (0 < 2 ^ Zpos k) by (apply pow2_pos; lia). nia. }
  assert (P : 0 < 2 ^ (e - 2 * e')) by (apply pow2_pos; lia).
  pose proof (Z.sqrtrem_spec m' ltac:(lia)) as S.
  destruct (Z.sqrtrem m') as [q r]. destruct S as [S1 S2].
  assert (Hq : 0 < q) by nia.
  apply binary_round_aux_positive; [exact Hq|].
  destruct (Z.le_gt_cases (-149 - e') 0) as [N|N].
  - apply Z.le_trans with 1; [|lia].
    destruct (Z.eq_dec (-149 - e') 0) as [->|N']; [reflexivity|].
    rewrite Z.pow_neg_r by lia. lia.
  - set (k := -149 - e') in *.
    assert (Pk : 0 < 2 ^ k) by (apply pow2_pos; lia).
    assert (X : 2 ^ k * 2 ^ k <= 2 ^ (e - 2 * e')).
    { rewrite <- Z.pow_add_r by lia. apply Z.pow_le_mono_r; unfold k; lia. }
    destruct (Z.le_gt_cases (2 ^ k) q) as [G|G]; [exact G|].
    exfalso. assert (q + 1 <= 2 ^ k) by lia. nia.
Qed.

(* ================================================================== *)
(** * Normalisation *)

Lemma nonzero_tests x :
  signed_nonzero false x -> F32.gt x F32.zero = true /\ F32.eq x F32.zero = false.
Proof. intros [(m & e & -> & _)| ->]; split; reflexivity. Qed.

Lemma null_length s1 s2 s3 :
  vector_length {| vec_X := S754_zero s1; vec_Y := S754_zero s2; vec_Z := S754_zero s3 |}
  = F32.zero.
Proof. destruct s1, s2, s3; reflexivity. Qed.

Lemma normalizeV_unchanged src dest h p :
  F32.eq (vector_length (h src)) F32.zero = true -> normalizeV src dest h p = h p.
Proof. intros E. unfold normalizeV, F32.ne. unfold F32.eq in E. rewrite E. reflexivity. Qed.

Lemma normalizeV_divides src dest h :
  F32.eq (vector_length (h src)) F32.zero = false ->
  normalizeV src dest h dest
    = {| vec_X := F32.div (vec_X (h src)) (vector_length (h src));
         vec_Y := F32.div (vec_Y (h src)) (vector_length (h src));
         vec_Z := F32.div (vec_Z (h src)) (vector_length (h src)) |} /\
  forall p, p <> dest -> normalizeV src dest h p = h p.
Proof.
  intros E. unfold normalizeV, F32.ne. unfold F32.eq in E. rewrite E. simpl. split.
  - unfold set_Z, set_Y, set_X. rewrite !write_same. simpl.
    destruct (ptr_cases src dest) as [->|N].
    + now rewrite !write_same.
    + now rewrite !write_other by exact N.
  - intros p Hp. unfold set_Z, set_Y, set_X.
    now rewrite !write_other by exact Hp.
Qed.

Lemma quaternionNormalize_unchanged q h p :
  F32.eq (quaternionModulus q h) F32.zero = true -> quaternionNormalize q h p = h p.
Proof. intros E. unfold quaternionNormalize. rewrite E. reflexivity. Qed.

Lemma quaternionNormalize_divides q h :
  F32.eq (quaternionModulus q h) F32.zero = false ->
  quaternionNormalize q h q
    = {| q_w := F32.div (q_w (h q)) (quaternionModulus q h);
         q_x := F32.div (q_x (h q)) (quaternionModulus q h);
         q_y := F32.div (q_y (h q)) (quaternionModulus q h);
         q_z := F32.div (q_z (h q)) (quaternionModulus q h) |} /\
  forall p, p <> q -> quaternionNormalize q h p = h p.
Proof.
  intros E. unfold quaternionNormalize. rewrite E. split.
  - unfold set_z, set_y, set_x, set_w. now rewrite !write_same.
  - intros p Hp. unfold set_z, set_y, set_x, set_w.
    now rewrite !write_other by exact Hp.
Qed.

Lemma number_not_nan x : number x -> F32.is_nan x = false.
Proof. intros [_ F]. destruct x; try discriminate; reflexivity. Qed.

Lemma vector_length_nonzero v :
  number (vec_X v) -> number (vec_Y v) -> number (vec_Z v) ->
  not_tiny (vec_X v) \/ not_tiny (vec_Y v) \/ not_tiny (vec_Z v) ->
  signed_nonzero false (vector_length v).
Proof.
  intros NX NY NZ T. unfold vector_length. apply sqrt_nonzero.
  pose proof (square_rounded _ (number_not_nan _ NX)) as RX.
  pose proof (square_rounded _ (number_not_nan _ NY)) as RY.
  pose proof (square_rounded _ (number_not_nan _ NZ)) as RZ.
  destruct T as [T|[T|T]].
  - apply add_nonzero_l; [|exact RZ]. apply add_nonzero_l; [|exact RY].
    now apply square_nonzero.
  - apply add_nonzero_l; [|exact RZ]. apply add_nonzero_r; [exact RX|].
    now apply square_nonzero.
  - apply add_nonzero_r; [now apply add_rounded|]. now apply square_nonzero.
Qed.

Lemma quaternionModulus_nonzero q h :
  number_quaternion (h q) ->
  not_tiny (q_w (h q)) \/ not_tiny (q_x (h q)) \/
  not_tiny (q_y (h q)) \/ not_tiny (q_z (h q)) ->
  signed_nonzero false (quaternionModulus q h).
Proof.
  intros (NW & NX & NY & NZ) T. unfold quaternionModulus, quaternionNorm.
  apply sqrt_nonzero.
  pose proof (square_rounded _ (number_not_nan _ NW)) as RW.
  pose proof (square_rounded _ (number_not_nan _ NX)) as RX.
  pose proof (square_rounded _ (number_not_nan _ NY)) as RY.
  pose proof (square_rounded _ (number_not_nan _ NZ)) as RZ.
  destruct T as [T|[T|[T|T]]].
  - apply add_nonzero_l; [|exact RZ]. apply add_nonzero_l; [|exact RY].
    apply add_nonzero_l; [|exact RX]. now apply square_nonzero.
  - apply add_nonzero_l; [|exact RZ]. apply add_nonzero_l; [|exact RY].
    apply add_nonzero_r; [exact RW|]. now apply square_nonzero.
  - apply add_nonzero_l; [|exact RZ]. apply add_nonzero_r; [now apply add_rounded|].
    now apply square_nonzero.
  - apply add_nonzero_r; [repeat apply add_rounded; assumption|].
    now apply square_nonzero.
Qed.

(** Claim C9, as amended.  When every component of the input is a zero (the
    Euclidean norm is exactly 0), the length that [normalizeV] computes is
    +0 and no field of any vector changes, the destination included; and
    [quaternionNormalize] likewise changes nothing.  When the components are
    finite numbers of the format and at least one has a magnitude of 2^-74
    or more, the length computed in single precision, sqrtf of the float
    sum of the squares, is greater than 0 (+infinity if the squares
    overflow) and every field of the destination is the field of the source
    divided by that computed length, also when source and destination are
    one object; [quaternionNormalize] likewise divides each of the four
    components by the modulus it computes.  In every case the guard tests
    the computed value: when it compares equal to 0 nothing is written,
    otherwise every component is divided by it. *)
Theorem normalize_guards :
  (forall src dest h,
     let v := h src in
     let length := vector_length v in
     (is_zero (vec_X v) -> is_zero (vec_Y v) -> is_zero (vec_Z v) ->
        length = F32.zero /\ forall p, normalizeV src dest h p = h p) /\
     (number (vec_X v) -> number (vec_Y v) -> number (vec_Z v) ->
      not_tiny (vec_X v) \/ not_tiny (vec_Y v) \/ not_tiny (vec_Z v) ->
        F32.gt length F32.zero = true /\
        normalizeV src dest h dest
          = {| vec_X := F32.div (vec_X v) length;
               vec_Y := F32.div (vec_Y v) length;
               vec_Z := F32.div (vec_Z v) length |} /\
        forall p, p <> dest -> normalizeV src dest h p = h p) /\
     (F32.eq length F32.zero = true -> forall p, normalizeV src dest h p = h p) /\
     (F32.eq length F32.zero = false ->
        normalizeV src dest h dest
          = {| vec_X := F32.div (vec_X v) length;
               vec_Y := F32.div (vec_Y v) length;
               vec_Z := F32.div (vec_Z v) length |} /\
        forall p, p <> dest -> normalizeV src dest h p = h p)) /\
  (forall q h,
     let modulus := quaternionModulus q h in
     (is_zero (q_w (h q)) -> is_zero (q_x (h q)) ->
      is_zero (q_y (h q)) -> is_zero (q_z (h q)) ->
        modulus = F32.zero /\ forall p, quaternionNormalize q h p = h p) /\
     (number_quaternion (h q) ->
      not_tiny (q_w (h q)) \/ not_tiny (q_x (h q)) \/
      not_tiny (q_y (h q)) \/ not_tiny (q_z (h q)) ->
        F32.gt modulus F32.zero = true /\
        quaternionNormalize q h q
          = {| q_w := F32.div (q_w (h q)) modulus;
               q_x := F32.div (q_x (h q)) modulus;
               q_y := F32.div (q_y (h q)) modulus;
               q_z := F32.div (q_z (h q)) modulus |} /\
        forall p, p <> q -> quaternionNormalize q h p = h p) /\
     (F32.eq modulus F32.zero = true -> forall p, quaternionNormalize q h p = h p) /\
     (F32.eq modulus F32.zero = false ->
        quaternionNormalize q h q
          = {| q_w := F32.div (q_w (h q)) modulus;
               q_x := F32.div (q_x (h q)) modulus;
               q_y := F32.div (q_y (h q)) modulus;
               q_z := F32.div (q_z (h q)) modulus |} /\
        forall p, p <> q -> quaternionNormalize q h p = h p)).
Proof.
  split.
  - intros src dest h v length. subst v length.
    split; [|split; [|split]].
    + intros [s1 E1] [s2 E2] [s3 E3].
      assert (L : vector_length (h src) = F32.zero).
      { destruct (h src) as [X Y Z]. cbn [vec_X vec_Y vec_Z] in *. subst.
        apply null_length. }
      split; [exact L|]. intros p. apply normalizeV_unchanged. now rewrite L.
    + intros NX NY NZ T.
      destruct (nonzero_tests _ (vector_length_nonzero _ NX NY NZ T)) as [G E].
      split; [exact G|]. now apply normalizeV_divides.
    + intros E p. now apply normalizeV_unchanged.
    + intros E. now apply normalizeV_divides.
  - intros q h modulus. subst modulus.
    split; [|split; [|split]].
    + intros [s1 E1] [s2 E2] [s3 E3] [s4 E4].
      assert (L : quaternionModulus q h = F32.zero).
      { unfold quaternionModulus, quaternionNorm. rewrite E1, E2, E3, E4.
        destruct s1, s2, s3, s4; reflexivity. }
      split; [exact L|]. intros p. apply quaternionNormalize_unchanged. now rewrite L.
    + intros N T.
      destruct (nonzero_tests _ (quaternionModulus_nonzero q h N T)) as [G E].
      split; [exact G|]. now apply quaternionNormalize_divides.
    + intros E p. now apply quaternionNormalize_unchanged.
    + intros E. now apply quaternionNormalize_divides.
Qed.

(** The theorem at the vector (3, 4, 0), which takes the dividing branch. *)
Lemma normalize_guards_witness :
  let h : heap fp_vector :=
    fun _ => {| vec_X := F32.of_int 3; vec_Y := F32.of_int 4; vec_Z := F32.zero |} in
  let length := vector_length (h (Caller 0)) in
  F32.gt length F32.zero = true /\
  normalizeV (Caller 0) (Caller 1) h (Caller 1)
    = {| vec_X := F32.div (F32.of_int 3) length;
         vec_Y := F32.div (F32.of_int 4) length;
         vec_Z := F32.div F32.zero length |}.
Proof.
  intros h length.
  refine ((fun H => conj (proj1 H) (proj1 (proj2 H)))
            (proj1 (proj2 (proj1 normalize_guards (Caller 0) (Caller 1) h)) _ _ _ _)).
  - split; reflexivity.
  - split; reflexivity.
  - split; reflexivity.
  - left. vm_compute. discriminate.
Defined.

(** Claim C9 as stated fails where the squares underflow or overflow.  The
    vector (2^-100, 0, 0) has the Euclidean norm 2^-100, not 0, and
    2^-100 / 2^-100 is 1; yet the computed length is 0 and the destination
    keeps its former X = 2.  The vector (2^64, 0, 0) has the norm 2^64 and
    2^64 / 2^64 is 1; the computed length is +infinity and the destination
    receives X = 0.  [quaternionNormalize] behaves alike on (2^-100, 0, 0, 0)
    and (2^64, 0, 0, 0): w stays 2^-100, resp. becomes 0, where the claim
    has 1. *)
Lemma normalize_not_by_norm :
  let tiny := S754_finite false 8388608 (-123) in
  let huge := S754_finite false 8388608 41 in
  let hv (x : float) : heap fp_vector :=
    fun p => match p with
             | Caller 0 => {| vec_X := x; vec_Y := F32.zero; vec_Z := F32.zero |}
             | _ => {| vec_X := two; vec_Y := two; vec_Z := two |}
             end in
  let hq (x : float) : heap quaternion :=
    fun _ => {| q_w := x; q_x := F32.zero; q_y := F32.zero; q_z := F32.zero |} in
  (number tiny /\ F32.scaled tiny = 2 ^ 49 /\ F32.div tiny tiny = one /\
   number huge /\ F32.scaled huge = 2 ^ 213 /\ F32.div huge huge = one) /\
  (vec_X (normalizeV (Caller 0) (Caller 1) (hv tiny) (Caller 1)) = two /\
   vec_X (normalizeV (Caller 0) (Caller 1) (hv huge) (Caller 1)) = F32.zero) /\
  (q_w (quaternionNormalize (Caller 0) (hq tiny) (Caller 0)) = tiny /\
   q_w (quaternionNormalize (Caller 0) (hq huge) (Caller 0)) = F32.zero) /\
  (F32.eq two one = false /\ F32.eq F32.zero one = false /\ F32.eq tiny one = false).
Proof. vm_compute. repeat split; reflexivity. Qed.

(* ================================================================== *)
(** * Median filters on floats *)

Lemma updF_length i v p : length (updF i v p) = length p.
Proof. revert i; induction p; intros [|i]; simpl; auto. Qed.

Lemma updF_In i v p x : In x (updF i v p) -> x = v \/ In x p.
Proof.
  revert i; induction p as [|a p IH]; intros [|i]; simpl; auto.
  - intros [H|H]; auto.
  - intros [H|H]; auto. destruct (IH _ H); auto.
Qed.

Lemma QMF_SORTF_length a b p : length (QMF_SORTF a b p) = length p.
Proof.
  unfold QMF_SORTF, QMF_SWAPF. destruct (F32.gt _ _); auto.
  now rewrite !updF_length.
Qed.

Lemma QMF_SORTF_In a b p x :
  (a < length p)%nat -> (b < length p)%nat -> In x (QMF_SORTF a b p) -> In x p.
Proof.
  intros Ha Hb. unfold QMF_SORTF, QMF_SWAPF. destruct (F32.gt _ _); auto.
  intros H. apply updF_In in H as [->|H]; [now apply nth_In|].
  apply updF_In in H as [->|H]; [now apply nth_In|assumption].
Qed.

Lemma networkF_length net p : length (networkF net p) = length p.
Proof.
  unfold networkF. revert p. induction net as [|[a b] net IH]; intros p; simpl; auto.
  now rewrite IH, QMF_SORTF_length.
Qed.

Lemma networkF_In net p x :
  in_bounds (length p) net = true -> In x (networkF net p) -> In x p.
Proof.
  unfold networkF. revert p. induction net as [|[a b] net IH]; intros p Hb; simpl in *; auto.
  apply andb_prop in Hb as [Hab Hb]. apply andb_prop in Hab as [Ha Hb'].
  apply Nat.ltb_lt in Ha, Hb'.
  intros H. apply IH in H; [|now rewrite QMF_SORTF_length].
  now apply QMF_SORTF_In in H.
Qed.

Lemma QMF_COPYF_all v : QMF_COPYF v (length v) = v.
Proof.
  unfold QMF_COPYF. apply nth_ext with (d := F32.zero) (d' := F32.zero).
  - now rewrite length_map, length_seq.
  - intros i Hi. rewrite length_map, length_seq in Hi.
    rewrite (nth_indep (map (fun i => nth i v F32.zero) (seq 0 (length v)))
               F32.zero ((fun i => nth i v F32.zero) 0%nat))
      by (now rewrite length_map, length_seq).
    rewrite (map_nth (fun i => nth i v F32.zero) (seq 0 (length v)) 0%nat i).
    now rewrite seq_nth.
Qed.

Lemma quickMedianFilter3f_network v :
  quickMedianFilter3f v = nth 1 (networkF net3 (QMF_COPYF v 3)) F32.zero.
Proof. cbv [quickMedianFilter3f networkF net3 fold_left fst snd]. reflexivity. Qed.

Lemma quickMedianFilter5f_network v :
  quickMedianFilter5f v = nth 2 (networkF net5 (QMF_COPYF v 5)) F32.zero.
Proof. cbv [quickMedianFilter5f networkF net5 fold_left fst snd]. reflexivity. Qed.

Lemma quickMedianFilter7f_network v :
  quickMedianFilter7f v = nth 3 (networkF net7 (QMF_COPYF v 7)) F32.zero.
Proof. cbv [quickMedianFilter7f networkF net7 fold_left fst snd]. reflexivity. Qed.

Lemma quickMedianFilter9f_network v :
  quickMedianFilter9f v = nth 4 (networkF net9 (QMF_COPYF v 9)) F32.zero.
Proof. cbv [quickMedianFilter9f networkF net9 fold_left fst snd]. reflexivity. Qed.

Lemma filterF_In net n k v :
  in_bounds n net = true -> length v = n -> (k < n)%nat ->
  In (nth k (networkF net (QMF_COPYF v n)) F32.zero) v.
Proof.
  intros Hb Hl Hk. subst n. rewrite QMF_COPYF_all.
  apply (networkF_In net); [exact Hb|].
  apply nth_In. now rewrite networkF_length.
Qed.

(** Property X7.  The float median filters return one of their inputs:
    for an array of 3, 5, 7, 9 floats, whatever they are (NaN and
    infinities included), the value returned by [quickMedianFilter3f],
    [5f], [7f], [9f] is an element of the array. *)
Theorem median_filters_f_member (v : list float) :
  (length v = 3%nat -> In (quickMedianFilter3f v) v) /\
  (length v = 5%nat -> In (quickMedianFilter5f v) v) /\
  (length v = 7%nat -> In (quickMedianFilter7f v) v) /\
  (length v = 9%nat -> In (quickMedianFilter9f v) v).
Proof.
  destruct in_bounds_nets as (B3 & B5 & B7 & B9).
  repeat split; intros L.
  - rewrite quickMedianFilter3f_network. apply filterF_In; auto; lia.
  - rewrite quickMedianFilter5f_network. apply filterF_In; auto; lia.
  - rewrite quickMedianFilter7f_network. apply filterF_In; auto; lia.
  - rewrite quickMedianFilter9f_network. apply filterF_In; auto; lia.
Qed.

(** The theorem at an array that holds a NaN. *)
Lemma median_filters_f_member_witness :
  In (quickMedianFilter3f [two; S754_nan; one]) [two; S754_nan; one].
Proof.
  apply (proj1 (median_filters_f_member [two; S754_nan; one])). reflexivity.
Defined.

Lemma rank_finite_bound s m e :
  bounded 24 128 m e = true -> - 2 ^ 300 < rank (S754_finite s m e) < 2 ^ 300.
Proof.
  intros B. destruct (bounded_facts _ _ B) as (E & U & _).
  unfold rank. rewrite scaled_finite.
  assert (P : 0 < 2 ^ (e + 149)) by (apply pow2_pos; lia).
  assert (Q : 2 ^ (e + 149) <= 2 ^ 253) by (apply Z.pow_le_mono_r; lia).
  assert (R : 2 ^ 300 = 2 ^ 24 * 2 ^ 253 * 2 ^ 23) by reflexivity.
  assert (0 < 2 ^ 253) by (apply pow2_pos; lia).
  assert (X : Zpos m * 2 ^ (e + 149) < 2 ^ 24 * 2 ^ 253).
  { apply Z.le_lt_trans with (Zpos m * 2 ^ 253).
    - apply Z.mul_le_mono_nonneg_l; lia.
    - apply Z.mul_lt_mono_pos_r; lia. }
  assert (Y : 2 ^ 24 * 2 ^ 253 <= 2 ^ 300) by (rewrite R; change (2 ^ 23) with 8388608; lia).
  assert (0 < Zpos m * 2 ^ (e + 149)) by (apply Z.mul_pos_pos; lia).
  destruct s; unfold cond_Zopp; lia.
Qed.

Lemma compare_magnitude m1 e1 m2 e2 :
  bounded 24 128 m1 e1 = true -> bounded 24 128 m2 e2 = true ->
  match e1 ?= e2 with Lt => Lt | Gt => Gt | Eq => Pos.compare_cont Eq m1 m2 end
  = (Zpos m1 * 2 ^ (e1 + 149) ?= Zpos m2 * 2 ^ (e2 + 149)).
Proof.
  intros B1 B2. symmetry.
  destruct (Z.compare_spec e1 e2) as [E|E|E].
  - subst e2. change (Pos.compare_cont Eq m1 m2) with (m1 ?= m2)%positive.
    destruct (Pos.compare_spec m1 m2) as [M|M|M].
    + subst. apply Z.compare_refl.
    + apply Z.compare_lt_iff. apply magnitude_lt; auto.
    + apply Z.compare_gt_iff. apply magnitude_lt; auto.
  - apply Z.compare_lt_iff. apply magnitude_lt; auto.
  - apply Z.compare_gt_iff. apply magnitude_lt; auto.
Qed.

Lemma compare_rank a b :
  ordered a -> ordered b -> SFcompare a b = Some (rank a ?= rank b).
Proof.
  intros [Va Na] [Vb Nb].
  destruct a as [sa|sa| |sa ma ea]; try discriminate;
  destruct b as [sb|sb| |sb mb eb]; try discriminate.
  - reflexivity.
  - destruct sb; reflexivity.
  - simpl SFcompare. pose proof (finite_scaled_pos _ _ Vb) as P.
    unfold rank. rewrite scaled_finite. change (F32.scaled (S754_zero sa)) with 0.
    destruct sb; unfold cond_Zopp; f_equal; symmetry.
    + apply Z.compare_gt_iff. lia.
    + apply Z.compare_lt_iff. lia.
  - destruct sa; reflexivity.
  - destruct sa, sb; reflexivity.
  - pose proof (rank_finite_bound sb mb eb Vb) as R.
    simpl SFcompare. unfold rank in R |- *. destruct sa; f_equal; symmetry.
    + apply Z.compare_lt_iff. lia.
    + apply Z.compare_gt_iff. lia.
  - simpl SFcompare. pose proof (finite_scaled_pos _ _ Va) as P.
    unfold rank. rewrite scaled_finite. change (F32.scaled (S754_zero sb)) with 0.
    destruct sa; unfold cond_Zopp; f_equal; symmetry.
    + apply Z.compare_lt_iff. lia.
    + apply Z.compare_gt_iff. lia.
  - pose proof (rank_finite_bound sa ma ea Va) as R.
    simpl SFcompare. unfold rank in R |- *. destruct sb; f_equal; symmetry.
    + apply Z.compare_gt_iff. lia.
    + apply Z.compare_lt_iff. lia.
  - pose proof (finite_scaled_pos _ _ Va) as Pa.
    pose proof (finite_scaled_pos _ _ Vb) as Pb.
    pose proof (compare_magnitude ma ea mb eb Va Vb) as C.
    pose proof (compare_magnitude mb eb ma ea Vb Va) as C'.
    unfold rank. rewrite !scaled_finite.
    cbn [SFcompare]. destruct sa, sb; unfold cond_Zopp; f_equal.
    + rewrite Z.compare_opp, <- C'.
      rewrite (Z.compare_antisym ea eb).
      destruct (ea ?= eb); simpl; try reflexivity.
      apply (Pos.compare_cont_antisym ma mb Eq).
    + symmetry. apply Z.compare_lt_iff. lia.
    + symmetry. apply Z.compare_gt_iff. lia.
    + exact C.
Qed.

Lemma lt_rank a b : ordered a -> ordered b -> F32.lt a b = (rank a <? rank b).
Proof.
  intros Oa Ob. unfold F32.lt, SFltb. rewrite (compare_rank a b Oa Ob).
  unfold Z.ltb. destruct (rank a ?= rank b); reflexivity.
Qed.

Lemma gt_rank a b : ordered a -> ordered b -> F32.gt a b = (rank a >? rank b).
Proof.
  intros Oa Ob. change (F32.gt a b) with (F32.lt b a). rewrite (lt_rank b a Ob Oa).
  rewrite Z.gtb_ltb. reflexivity.
Qed.

Lemma map_updF (f : float -> Z) i v p : map f (updF i v p) = upd i (f v) (map f p).
Proof. revert i; induction p; intros [|i]; simpl; auto. now rewrite IHp. Qed.

Lemma nth_map_rank i p :
  (i < length p)%nat -> nth i (map rank p) 0 = rank (nth i p F32.zero).
Proof.
  intros H. rewrite (nth_indep _ 0 (rank F32.zero)) by (now rewrite length_map).
  apply map_nth.
Qed.

Lemma QMF_SORTF_rank a b p :
  Forall ordered p -> (a < length p)%nat -> (b < length p)%nat ->
  map rank (QMF_SORTF a b p) = QMF_SORT a b (map rank p).
Proof.
  intros O Ha Hb. unfold QMF_SORTF, QMF_SORT.
  rewrite !nth_map_rank by assumption.
  rewrite gt_rank by (eapply Forall_forall; [exact O | now apply nth_In]).
  destruct (rank (nth a p F32.zero) >? rank (nth b p F32.zero)); [|reflexivity].
  unfold QMF_SWAPF, QMF_SWAP. rewrite !map_updF, !nth_map_rank by assumption.
  reflexivity.
Qed.

Lemma QMF_SORTF_ordered a b p :
  Forall ordered p -> (a < length p)%nat -> (b < length p)%nat ->
  Forall ordered (QMF_SORTF a b p).
Proof.
  intros O Ha Hb. apply Forall_forall. intros x Hx.
  apply QMF_SORTF_In in Hx; auto. eapply Forall_forall; eauto.
Qed.

Lemma networkF_rank net p :
  Forall ordered p -> in_bounds (length p) net = true ->
  map rank (networkF net p) = network net (map rank p).
Proof.
  unfold networkF, network. revert p.
  induction net as [|[a b] net IH]; intros p O Hb; simpl in *; auto.
  apply andb_prop in Hb as [Hab Hb]. apply andb_prop in Hab as [Ha Hb'].
  apply Nat.ltb_lt in Ha, Hb'.
  rewrite IH.
  - now rewrite QMF_SORTF_rank.
  - now apply QMF_SORTF_ordered.
  - now rewrite QMF_SORTF_length.
Qed.

Lemma filterF_rank net n k v :
  selects_on_bits net n k = true -> in_bounds n net = true ->
  length v = n -> (k < n)%nat -> Forall ordered v ->
  rank (nth k (networkF net (QMF_COPYF v n)) F32.zero) = nth k (sort (map rank v)) 0.
Proof.
  intros Hs Hb Hl Hk O. subst n. rewrite QMF_COPYF_all.
  rewrite <- nth_map_rank by (now rewrite networkF_length).
  rewrite networkF_rank by assumption.
  apply (network_selects net (length v) k); auto. now rewrite length_map.
Qed.

(** Property X8.  The float median filters return a median when no input
    is a NaN.  [rank] places the floats of the format in the order of [<]:
    for inputs that are not NaN, a < b exactly when rank a < rank b (zeros
    of both signs have the same rank, the infinities lie beyond every finite
    number).  For an array of 3, 5, 7, 9 such floats the rank of the value
    returned by [quickMedianFilter3f], [5f], [7f], [9f] is the median (the
    middle element of the sorted list) of the ranks of the inputs. *)
Theorem median_filters_f_correct (v : list float) :
  Forall ordered v ->
  (forall a b, In a v -> In b v -> F32.lt a b = (rank a <? rank b)) /\
  (length v = 3%nat -> rank (quickMedianFilter3f v) = median (map rank v)) /\
  (length v = 5%nat -> rank (quickMedianFilter5f v) = median (map rank v)) /\
  (length v = 7%nat -> rank (quickMedianFilter7f v) = median (map rank v)) /\
  (length v = 9%nat -> rank (quickMedianFilter9f v) = median (map rank v)).
Proof.
  intros O. destruct in_bounds_nets as (B3 & B5 & B7 & B9).
  split.
  { intros a b Ha Hb. apply lt_rank; eapply Forall_forall; eauto. }
  unfold median. rewrite length_map.
  repeat split; intros L; rewrite L.
  - change (Nat.div 3 2) with 1%nat. rewrite quickMedianFilter3f_network.
    apply filterF_rank; auto; try lia; apply net3_ok.
  - change (Nat.div 5 2) with 2%nat. rewrite quickMedianFilter5f_network.
    apply filterF_rank; auto; try lia; apply net5_ok.
  - change (Nat.div 7 2) with 3%nat. rewrite quickMedianFilter7f_network.
    apply filterF_rank; auto; try lia; apply net7_ok.
  - change (Nat.div 9 2) with 4%nat. rewrite quickMedianFilter9f_network.
    apply filterF_rank; auto; try lia; apply net9_ok.
Qed.

(** The theorem at an array that holds an infinity. *)
Lemma median_filters_f_correct_witness :
  rank (quickMedianFilter3f [two; S754_infinity true; one])
  = median (map rank [two; S754_infinity true; one]).
Proof.
  refine (proj1 (proj2 (median_filters_f_correct [two; S754_infinity true; one] _))
            eq_refl).
  repeat (constructor; try (split; reflexivity)).
Defined.

(* ================================================================== *)
(** * Range scaling on floats *)

Lemma eq_cases a b :
  F32.eq a b = true -> (is_zero a /\ is_zero b) \/ (a = b /\ F32.is_nan a = false).
Proof.
  unfold F32.eq, SFeqb. intros H.
  destruct a as [sa|sa| |sa ma ea], b as [sb|sb| |sb mb eb]; simpl in H;
    try discriminate;
    try (left; split; eexists; reflexivity);
    try (destruct sa; discriminate); try (destruct sb; discriminate).
  - right. destruct sa, sb; try discriminate; auto.
  - right. split; [|reflexivity].
    destruct sa, sb; try discriminate;
      destruct (Z.compare_spec ea eb) as [E|E|E]; try discriminate; subst eb;
      change (Pos.compare_cont Eq ma mb) with (ma ?= mb)%positive in H;
      destruct (Pos.compare_spec ma mb) as [M|M|M]; try discriminate; subst; reflexivity.
Qed.

Lemma sub_self a : F32.is_nan a = false ->
  is_zero (F32.sub a a) \/ F32.sub a a = S754_nan.
Proof.
  destruct a as [s|s| |s m e]; try discriminate; intros _.
  - left. destruct s; eexists; reflexivity.
  - right. destruct s; reflexivity.
  - left. unfold F32.sub, SFsub. cbv zeta. rewrite Z.sub_diag. eexists; reflexivity.
Qed.

Lemma div_by_zero_or_nan a b :
  is_zero b \/ b = S754_nan -> F32.finite (F32.div a b) = false.
Proof.
  intros [[s ->]| ->]; destruct a; reflexivity.
Qed.

Lemma add_not_finite q d : F32.finite q = false -> F32.finite (F32.add q d) = false.
Proof.
  destruct q as [s|s| |s m e]; try discriminate; intros _.
  - destruct d as [sd|sd| |sd md ed]; try reflexivity. destruct s, sd; reflexivity.
  - reflexivity.
Qed.

(** Property X9.  A source range of zero width.  When srcFrom == srcTo
    (as floats), [scaleRangef] divides by a zero or a NaN, and whatever x,
    destFrom and destTo are, the result is not a finite number: it is an
    infinity or a NaN. *)
Theorem scaleRangef_zero_width x srcFrom srcTo destFrom destTo :
  F32.eq srcFrom srcTo = true ->
  F32.finite (scaleRangef x srcFrom srcTo destFrom destTo) = false.
Proof.
  intros E. unfold scaleRangef. cbv zeta.
  apply add_not_finite, div_by_zero_or_nan.
  destruct (eq_cases _ _ E) as [[[s1 ->] [s2 ->]]|[<- N]].
  - left. destruct s1, s2; eexists; reflexivity.
  - now apply sub_self.
Qed.

(** The theorem at the source range 2..2. *)
Lemma scaleRangef_zero_width_witness :
  F32.finite (scaleRangef one two two F32.zero one) = false.
Proof.
  apply (scaleRangef_zero_width one two two F32.zero one). reflexivity.
Defined.

Lemma sub_exact_value sa ma ea sb mb eb :
  -149 <= ea -> -149 <= eb ->
  let ez := Z.min ea eb in
  (cond_Zopp sa (Zpos (fst (shl_align ma ea ez)))
   - cond_Zopp sb (Zpos (fst (shl_align mb eb ez)))) * 2 ^ (ez + 149)
  = F32.scaled (S754_finite sa ma ea) - F32.scaled (S754_finite sb mb eb).
Proof.
  intros Ha Hb ez. rewrite !shl_align_value by (unfold ez; lia).
  rewrite !scaled_finite.
  assert (A : 2 ^ (ea + 149) = 2 ^ (ea - ez) * 2 ^ (ez + 149)).
  { rewrite <- Z.pow_add_r by (unfold ez; lia). f_equal. lia. }
  assert (B : 2 ^ (eb + 149) = 2 ^ (eb - ez) * 2 ^ (ez + 149)).
  { rewrite <- Z.pow_add_r by (unfold ez; lia). f_equal. lia. }
  rewrite A, B. destruct sa, sb; unfold cond_Zopp; ring.
Qed.

(** The difference of two distinct numbers is not zero and not a NaN. *)
Lemma sub_distinct a b :
  number a -> number b -> F32.ne a b = true ->
  exists s, (exists m e, F32.sub a b = S754_finite s m e) \/ F32.sub a b = S754_infinity s.
Proof.
  intros [Va Fa] [Vb Fb] N.
  assert (R : rank a <> rank b).
  { unfold F32.ne, SFeqb in N.
    rewrite (compare_rank a b) in N.
    - intros E. rewrite E, Z.compare_refl in N. discriminate.
    - split; [exact Va|]. destruct a; try discriminate; reflexivity.
    - split; [exact Vb|]. destruct b; try discriminate; reflexivity. }
  destruct a as [sa|sa| |sa ma ea]; try discriminate;
  destruct b as [sb|sb| |sb mb eb]; try discriminate.
  - exists (negb sb). left. do 2 eexists. reflexivity.
  - exists sa. left. do 2 eexists. reflexivity.
  - destruct (bounded_facts _ _ Va) as (Ea & _).
    destruct (bounded_facts _ _ Vb) as (Eb & _).
    pose proof (sub_exact_value sa ma ea sb mb eb ltac:(lia) ltac:(lia)) as X.
    cbv zeta in X.
    unfold F32.sub, F32.prec, F32.emax, SFsub. cbv zeta.
    set (D := cond_Zopp sa (Zpos (fst (shl_align ma ea (Z.min ea eb))))
              - cond_Zopp sb (Zpos (fst (shl_align mb eb (Z.min ea eb))))) in *.
    assert (D <> 0).
    { intros Z0. rewrite Z0 in X. unfold rank in R. lia. }
    destruct D as [|p|p]; try congruence; unfold binary_normalize.
    + exists false.
      destruct (binary_round_shape false p (Z.min ea eb) ltac:(lia))
        as [(m' & e' & -> & _)| ->]; eauto.
    + exists true.
      destruct (binary_round_shape true p (Z.min ea eb) ltac:(lia))
        as [(m' & e' & -> & _)| ->]; eauto.
Qed.

(** Property X10.  The lower end of the range.  For finite numbers of the
    format srcFrom != srcTo, a finite destFrom and a destTo for which
    destTo - destFrom is finite (no overflow), [scaleRangef] maps srcFrom to
    a value that compares equal to destFrom. *)
Theorem scaleRangef_lower_end srcFrom srcTo destFrom destTo :
  number srcFrom -> number srcTo -> F32.ne srcFrom srcTo = true ->
  F32.finite destFrom = true -> F32.finite (F32.sub destTo destFrom) = true ->
  F32.eq (scaleRangef srcFrom srcFrom srcTo destFrom destTo) destFrom = true.
Proof.
  intros Nf Nt Ne Fd Fw. unfold scaleRangef. cbv zeta.
  assert (Ne' : F32.ne srcTo srcFrom = true).
  { unfold F32.ne, SFeqb in *. rewrite (SFcompare_antisym srcFrom srcTo).
    destruct (SFcompare srcFrom srcTo) as [[]|]; simpl in *; congruence. }
  destruct (sub_distinct srcTo srcFrom Nt Nf Ne') as (s & B).
  assert (Z0 : is_zero (F32.sub srcFrom srcFrom)).
  { destruct Nf as [_ F]. destruct (sub_self srcFrom) as [Z|Z]; auto.
    - destruct srcFrom; try discriminate; reflexivity.
    - destruct srcFrom as [s0|s0| |s0 m0 e0]; try discriminate.
      + destruct s0; discriminate.
      + unfold F32.sub, SFsub in Z. cbv zeta in Z. rewrite Z.sub_diag in Z. discriminate. }
  destruct Z0 as [sz Ez]. rewrite Ez.
  assert (A : is_zero (F32.mul (F32.sub destTo destFrom) (S754_zero sz))).
  { destruct (F32.sub destTo destFrom) as [s1|s1| |s1 m1 e1]; try discriminate;
      eexists; reflexivity. }
  destruct A as [sq Eq]. rewrite Eq.
  assert (Q : is_zero (F32.div (S754_zero sq) (F32.sub srcTo srcFrom))).
  { destruct B as [(m & e & ->)| ->]; eexists; reflexivity. }
  apply keeps_eq. apply keeps_add_l; [exact Q|]. now apply keeps_refl.
Qed.

(** The theorem at the range 1..2 scaled to 0.5..2. *)
Lemma scaleRangef_lower_end_witness :
  F32.eq (scaleRangef one one two half two) half = true.
Proof.
  apply (scaleRangef_lower_end one two half two);
    try (split; reflexivity); reflexivity.
Defined.

(* ================================================================== *)
(** * Sine and cosine on every float, rotation *)

Lemma sin_approx_total mode x fuel :
  F32.valid x = true -> (5 <= fuel)%nat ->
  exists r, sin_approx mode F32.vcvt_oor fuel x = Some r.
Proof.
  intros V Hf.
  destruct (F32.finite x) eqn:F.
  - apply sin_approx_result; auto. now apply vcvt_rejects.
  - destruct x as [s|s| |s m e]; try discriminate.
    + exists F32.zero. destruct s; reflexivity.
    + exists (sin_poly mode S754_nan). unfold sin_approx.
      change (F32.to_int32 F32.vcvt_oor S754_nan) with 0. cbv beta iota zeta.
      change ((0 <? -32) || (0 >? 32)) with false. cbv iota.
      destruct fuel as [|k]; reflexivity.
Qed.

Lemma cos_approx_total mode x fuel :
  F32.valid x = true -> (5 <= fuel)%nat ->
  exists r, cos_approx mode F32.vcvt_oor fuel x = Some r.
Proof.
  intros V Hf. unfold cos_approx. apply sin_approx_total; auto.
  apply add_valid; [exact V | reflexivity].
Qed.

(** Property X11.  [sin_approx] and [cos_approx] on every float.  With the
    saturating conversion to [int32_t] of the flight controllers' FPU, both
    return on every value of the format, infinities and NaN included, with
    at most five iterations of each wrapping loop; on a NaN they return a
    NaN (the guard lets it pass, no loop iterates) and on an infinity they
    return +0 (the guard stops it). *)
Theorem trig_terminates mode x fuel :
  F32.valid x = true -> (5 <= fuel)%nat ->
  (exists r, sin_approx mode F32.vcvt_oor fuel x = Some r) /\
  (exists r, cos_approx mode F32.vcvt_oor fuel x = Some r) /\
  (F32.is_nan x = true ->
   sin_approx mode F32.vcvt_oor fuel x = Some S754_nan /\
   cos_approx mode F32.vcvt_oor fuel x = Some S754_nan) /\
  (F32.finite x = false -> F32.is_nan x = false ->
   sin_approx mode F32.vcvt_oor fuel x = Some F32.zero /\
   cos_approx mode F32.vcvt_oor fuel x = Some F32.zero).
Proof.
  intros V Hf. split; [now apply sin_approx_total|].
  split; [now apply cos_approx_total|]. split.
  - intros N. destruct x; try discriminate.
    destruct fuel as [|k]; [lia|]. destruct mode; split; reflexivity.
  - intros F N. destruct x as [s|s| |s m e]; try discriminate.
    destruct s; split; reflexivity.
Qed.

(** The theorem at cos_approx(7.0f). *)
Lemma trig_terminates_witness :
  exists r, cos_approx FAST_MATH F32.vcvt_oor 5 (F32.of_int 7) = Some r.
Proof.
  apply (proj1 (proj2 (trig_terminates FAST_MATH (F32.of_int 7) 5 eq_refl (le_n 5)))).
Defined.

Lemma set_X_at p a h : set_X p a h p = {| vec_X := a; vec_Y := vec_Y (h p); vec_Z := vec_Z (h p) |}.
Proof. unfold set_X. apply write_same. Qed.
Lemma set_Y_at p a h : set_Y p a h p = {| vec_X := vec_X (h p); vec_Y := a; vec_Z := vec_Z (h p) |}.
Proof. unfold set_Y. apply write_same. Qed.
Lemma set_Z_at p a h : set_Z p a h p = {| vec_X := vec_X (h p); vec_Y := vec_Y (h p); vec_Z := a |}.
Proof. unfold set_Z. apply write_same. Qed.
Lemma set_X_other p a h q : q <> p -> set_X p a h q = h q.
Proof. intros. unfold set_X. now apply write_other. Qed.
Lemma set_Y_other p a h q : q <> p -> set_Y p a h q = h q.
Proof. intros. unfold set_Y. now apply write_other. Qed.
Lemma set_Z_other p a h q : q <> p -> set_Z p a h q = h q.
Proof. intros. unfold set_Z. now apply write_other. Qed.

(** Property X12.  [rotateV] returns.  With the saturating conversion of
    the flight controllers' FPU, for all three angles of the format the six
    calls of [sin_approx] and [cos_approx] made by [buildRotationMatrix]
    return, so [rotateV] returns; it changes no vector other than [*v]. *)
Theorem rotateV_returns mode fuel v delta h :
  F32.valid (roll delta) = true -> F32.valid (pitch delta) = true ->
  F32.valid (yaw delta) = true -> (5 <= fuel)%nat ->
  exists h', rotateV mode F32.vcvt_oor fuel v delta h = Some h' /\
             forall p, p <> v -> h' p = h p.
Proof.
  intros Vr Vp Vy Hf. unfold rotateV, buildRotationMatrix.
  destruct (cos_approx_total mode _ fuel Vr Hf) as (cx & ->).
  destruct (sin_approx_total mode _ fuel Vr Hf) as (sx & ->).
  destruct (cos_approx_total mode _ fuel Vp Hf) as (cy & ->).
  destruct (sin_approx_total mode _ fuel Vp Hf) as (sy & ->).
  destruct (cos_approx_total mode _ fuel Vy Hf) as (cz & ->).
  destruct (sin_approx_total mode _ fuel Vy Hf) as (sz & ->).
  cbv zeta. eexists. split; [reflexivity|].
  intros p Hp. now rewrite set_Z_other, set_Y_other, set_X_other.
Qed.

(** The theorem at the angles 1, 2 and 0.5. *)
Lemma rotateV_returns_witness :
  let delta := {| roll := one; pitch := two; yaw := half |} in
  let h : heap fp_vector := fun _ => {| vec_X := one; vec_Y := two; vec_Z := half |} in
  exists h', rotateV FAST_MATH F32.vcvt_oor 5 (Caller 0) delta h = Some h' /\
             forall p, p <> Caller 0 -> h' p = h p.
Proof.
  intros delta h.
  apply (rotateV_returns FAST_MATH 5 (Caller 0) delta h eq_refl eq_refl eq_refl (le_n 5)).
Defined.

Lemma sin_approx_rejected mode oor fuel x :
  rejected oor x -> sin_approx mode oor fuel x = Some F32.zero.
Proof.
  intros H. unfold sin_approx. red in H.
  destruct (Z.ltb_spec (F32.to_int32 oor x) (-32)); simpl; auto.
  destruct (Z.gtb_spec (F32.to_int32 oor x) 32); simpl; auto.
  lia.
Qed.

Lemma finite_mul_zero a s : F32.finite a = true -> is_zero (F32.mul a (S754_zero s)).
Proof. destruct a; try discriminate; intros _; eexists; reflexivity. Qed.

(** Property X13.  Rotation by angles out of range.  When the guard of
    [sin_approx] stops each of the three angles and each angle plus pi/2
    (which is what [cos_approx] passes on), all six sines and cosines are
    +0, every entry of the matrix is a zero, and [rotateV] overwrites a
    vector of finite components by zeros instead of rotating it.  This holds
    for every conversion to [int32_t] and needs no loop iteration. *)
Theorem rotateV_out_of_range mode oor fuel v delta h :
  rejected oor (roll delta) -> rejected oor (F32.add (roll delta) HALF_PI) ->
  rejected oor (pitch delta) -> rejected oor (F32.add (pitch delta) HALF_PI) ->
  rejected oor (yaw delta) -> rejected oor (F32.add (yaw delta) HALF_PI) ->
  F32.finite (vec_X (h v)) = true -> F32.finite (vec_Y (h v)) = true ->
  F32.finite (vec_Z (h v)) = true ->
  (exists m, buildRotationMatrix mode oor fuel delta = Some m /\
     (is_zero (vec_X (row0 m)) /\ is_zero (vec_Y (row0 m)) /\ is_zero (vec_Z (row0 m))) /\
     (is_zero (vec_X (row1 m)) /\ is_zero (vec_Y (row1 m)) /\ is_zero (vec_Z (row1 m))) /\
     (is_zero (vec_X (row2 m)) /\ is_zero (vec_Y (row2 m)) /\ is_zero (vec_Z (row2 m)))) /\
  (exists h', rotateV mode oor fuel v delta h = Some h' /\
     is_zero (vec_X (h' v)) /\ is_zero (vec_Y (h' v)) /\ is_zero (vec_Z (h' v))).
Proof.
  intros R1 R1' R2 R2' R3 R3' FX FY FZ.
  unfold rotateV, buildRotationMatrix, cos_approx.
  rewrite !sin_approx_rejected by assumption.
  cbv zeta. split.
  - eexists. split; [reflexivity|].
    cbn [vec_X vec_Y vec_Z row0 row1 row2].
    repeat split; eexists; reflexivity.
  - eexists. split; [reflexivity|].
    rewrite set_Z_at, set_Y_at, set_X_at. cbn [vec_X vec_Y vec_Z row0 row1 row2].
    repeat split; repeat apply zero_add; now apply finite_mul_zero.
Qed.

(** The theorem at the angles 100, -100 and 1000. *)
Lemma rotateV_out_of_range_witness :
  let delta := {| roll := F32.of_int 100; pitch := F32.of_int (-100);
                  yaw := F32.of_int 1000 |} in
  let h : heap fp_vector := fun _ => {| vec_X := one; vec_Y := two; vec_Z := half |} in
  exists h', rotateV FAST_MATH F32.vcvt_oor 0 (Caller 0) delta h = Some h' /\
             is_zero (vec_X (h' (Caller 0))) /\ is_zero (vec_Y (h' (Caller 0))) /\
             is_zero (vec_Z (h' (Caller 0))).
Proof.
  intros delta h.
  apply (proj2 (rotateV_out_of_range FAST_MATH F32.vcvt_oor 0 (Caller 0) delta h
                  ltac:(unfold rejected; vm_compute; auto)
                  ltac:(unfold rejected; vm_compute; auto)
                  ltac:(unfold rejected; vm_compute; auto)
                  ltac:(unfold rejected; vm_compute; auto)
                  ltac:(unfold rejected; vm_compute; auto)
                  ltac:(unfold rejected; vm_compute; auto)
                  eq_refl eq_refl eq_refl)).
Defined.

(* ================================================================== *)
(** * More on quaternions and norms *)

Lemma neg_involutive x : F32.neg (F32.neg x) = x.
Proof. destruct x as [s|s| |s m e]; simpl; try rewrite negb_involutive; reflexivity. Qed.

Lemma mul_neg_neg x y : F32.mul (F32.neg x) (F32.neg y) = F32.mul x y.
Proof.
  destruct x as [sx|sx| |sx mx ex], y as [sy|sy| |sy my ey]; simpl; try reflexivity;
    destruct sx, sy; reflexivity.
Qed.

Lemma conjugate_involutive q : conjugate (conjugate q) = q.
Proof. destruct q. unfold conjugate; simpl. now rewrite !neg_involutive. Qed.

Lemma norm_not_nan q : nan_free q ->
  F32.is_nan
    (F32.add
       (F32.add (F32.add (F32.mul (q_w q) (q_w q)) (F32.mul (q_x q) (q_x q)))
                (F32.mul (q_y q) (q_y q)))
       (F32.mul (q_z q) (q_z q))) = false.
Proof.
  intros (Nw & Nx & Ny & Nz). apply (signed_not_nan false).
  repeat apply add_sign; now apply square_sign.
Qed.

(** Property X14.  Conjugation is an involution that preserves the norm.
    After quaternionConjugate(i, o) and quaternionConjugate(o, o'), [*o']
    holds the original components of [*i] (a NaN component is a NaN
    again), whichever of the three pointers coincide.  For a quaternion
    without NaN components the conjugate in [*o] has the [quaternionNorm]
    and the [quaternionModulus] of the original, and the norm is not a
    NaN. *)
Theorem quaternionConjugate_involution (i o o' : ptr) (h : heap quaternion) :
  quaternionConjugate o o' (quaternionConjugate i o h) o' = h i /\
  (nan_free (h i) ->
   quaternionNorm o (quaternionConjugate i o h) = quaternionNorm i h /\
   quaternionModulus o (quaternionConjugate i o h) = quaternionModulus i h /\
   F32.is_nan (quaternionNorm i h) = false).
Proof.
  assert (N : quaternionNorm o (quaternionConjugate i o h) = quaternionNorm i h).
  { unfold quaternionNorm. rewrite quaternionConjugate_at.
    unfold conjugate; cbn [q_w q_x q_y q_z]. now rewrite !mul_neg_neg. }
  split.
  - rewrite !quaternionConjugate_at. apply conjugate_involutive.
  - intros F. split; [exact N|]. split.
    + unfold quaternionModulus. now rewrite N.
    + unfold quaternionNorm. now apply norm_not_nan.
Qed.

(** The theorem at q = (0.5, 2, -1, +infinity). *)
Lemma quaternionConjugate_involution_witness :
  let h : heap quaternion :=
    fun _ => {| q_w := half; q_x := two; q_y := F32.neg one;
                q_z := S754_infinity false |} in
  quaternionNorm (Caller 1) (quaternionConjugate (Caller 0) (Caller 1) h)
  = quaternionNorm (Caller 0) h.
Proof.
  intros h.
  refine (proj1 (proj2 (quaternionConjugate_involution (Caller 0) (Caller 1) (Caller 2) h) _)).
  repeat split.
Defined.

Lemma add_comm a b : F32.add a b = F32.add b a.
Proof.
  destruct a as [sa|sa| |sa ma ea], b as [sb|sb| |sb mb eb]; simpl; try reflexivity;
    try (destruct sa, sb; reflexivity).
  unfold F32.add, SFadd. cbv zeta.
  rewrite (Z.min_comm eb ea), Z.add_comm. reflexivity.
Qed.

Lemma mul_comm a b : F32.mul a b = F32.mul b a.
Proof. apply mul_comm_finite. Qed.

Lemma quaternionAdd_at l r o h :
  quaternionAdd l r o h o =
  {| q_w := F32.add (q_w (h l)) (q_w (h r)); q_x := F32.add (q_x (h l)) (q_x (h r));
     q_y := F32.add (q_y (h l)) (q_y (h r)); q_z := F32.add (q_z (h l)) (q_z (h r)) |}.
Proof.
  unfold quaternionAdd.
  rewrite set_z_at, set_y_at, set_x_at, set_w_at. cbn [q_w q_x q_y q_z].
  destruct (ptr_cases l o) as [->|Nl]; destruct (ptr_cases r o) as [->|Nr];
    repeat first [ rewrite set_y_at | rewrite set_x_at | rewrite set_w_at
                 | rewrite set_y_other by assumption
                 | rewrite set_x_other by assumption
                 | rewrite set_w_other by assumption ];
    reflexivity.
Qed.

Lemma quaternionAdd_other l r o h p : p <> o -> quaternionAdd l r o h p = h p.
Proof.
  intros H. unfold quaternionAdd.
  now rewrite set_z_other, set_y_other, set_x_other, set_w_other by exact H.
Qed.

(** Property X15.  [quaternionAdd] and [quaternionDotProduct] are
    symmetric in their operands.  For operands without NaN components,
    quaternionAdd(l, r, o) and quaternionAdd(r, l, o) leave the same
    contents in every object, and quaternionDotProduct(l, r) is
    quaternionDotProduct(r, l), whichever of the pointers coincide; where a
    result is a NaN (infinities of opposite sign, 0 times infinity) it is
    one in both orders. *)
Theorem quaternion_operand_order (l r o : ptr) (h : heap quaternion) :
  nan_free (h l) -> nan_free (h r) ->
  (forall p, quaternionAdd l r o h p = quaternionAdd r l o h p) /\
  quaternionDotProduct l r h = quaternionDotProduct r l h.
Proof.
  intros _ _. split.
  - intros p. destruct (ptr_cases p o) as [->|N].
    + rewrite !quaternionAdd_at.
      now rewrite (add_comm (q_w (h l))), (add_comm (q_x (h l))),
                  (add_comm (q_y (h l))), (add_comm (q_z (h l))).
    + now rewrite !quaternionAdd_other.
  - unfold quaternionDotProduct.
    now rewrite (mul_comm (q_w (h l))), (mul_comm (q_x (h l))),
                (mul_comm (q_y (h l))), (mul_comm (q_z (h l))).
Qed.

(** The theorem at l = (0.5, 2, -1, 0) and r = (1, 1, 2, 0.5). *)
Lemma quaternion_operand_order_witness :
  let h : heap quaternion :=
    fun p => match p with
             | Caller 0 => {| q_w := half; q_x := two; q_y := F32.neg one; q_z := F32.zero |}
             | _ => {| q_w := one; q_x := one; q_y := two; q_z := half |}
             end in
  quaternionDotProduct (Caller 0) (Caller 1) h = quaternionDotProduct (Caller 1) (Caller 0) h.
Proof.
  intros h.
  refine (proj2 (quaternion_operand_order (Caller 0) (Caller 1) (Caller 2) h _ _));
    repeat split.
Defined.

Lemma signed_not_negative x : signed_as false x -> F32.lt x F32.zero = false.
Proof. intros [->|[(m & e & ->)| ->]]; reflexivity. Qed.

Lemma mul_nan_l x : F32.mul S754_nan x = S754_nan.
Proof. reflexivity. Qed.

Lemma add_nan_l x : F32.add S754_nan x = S754_nan.
Proof. reflexivity. Qed.

Lemma add_nan_r x : F32.add x S754_nan = S754_nan.
Proof. destruct x; reflexivity. Qed.

Lemma is_nan_true x : F32.is_nan x = true -> x = S754_nan.
Proof. destruct x; try discriminate; reflexivity. Qed.

(** Property X16.  NaN and sign of the norms.  [quaternionModulus] is a NaN
    exactly when one of the four components is, and so is [quaternionNorm];
    the length that [normalizeV] computes is a NaN exactly when one of the
    three components is; and none of the three values is ever below zero.
    So the divisions of [quaternionNormalize] and [normalizeV] divide by a
    NaN only if the input holds one. *)
Theorem norms_nan_free (q : ptr) (h : heap quaternion) (v : fp_vector) :
  F32.is_nan (quaternionModulus q h)
  = F32.is_nan (q_w (h q)) || F32.is_nan (q_x (h q))
    || F32.is_nan (q_y (h q)) || F32.is_nan (q_z (h q)) /\
  F32.is_nan (quaternionNorm q h) = F32.is_nan (quaternionModulus q h) /\
  F32.is_nan (vector_length v)
  = F32.is_nan (vec_X v) || F32.is_nan (vec_Y v) || F32.is_nan (vec_Z v) /\
  F32.lt (quaternionNorm q h) F32.zero = false /\
  F32.lt (quaternionModulus q h) F32.zero = false /\
  F32.lt (vector_length v) F32.zero = false.
Proof.
  unfold quaternionModulus, quaternionNorm, vector_length.
  destruct (h q) as [w x y z]. destruct v as [X Y Z]. cbn [q_w q_x q_y q_z vec_X vec_Y vec_Z].
  assert (Q : forall a b c d,
    let n := F32.add (F32.add (F32.add (F32.mul a a) (F32.mul b b)) (F32.mul c c)) (F32.mul d d) in
    (F32.is_nan a || F32.is_nan b || F32.is_nan c || F32.is_nan d = true /\ n = S754_nan)
    \/ (F32.is_nan a || F32.is_nan b || F32.is_nan c || F32.is_nan d = false /\ signed_as false n)).
  { intros a b c d n. subst n.
    destruct (F32.is_nan a) eqn:Na; [left; split; auto; apply is_nan_true in Na; subst; reflexivity|].
    destruct (F32.is_nan b) eqn:Nb;
      [left; split; auto; apply is_nan_true in Nb; subst;
       now rewrite mul_nan_l, add_nan_r, !add_nan_l|].
    destruct (F32.is_nan c) eqn:Nc;
      [left; split; auto; apply is_nan_true in Nc; subst;
       now rewrite mul_nan_l, add_nan_r, !add_nan_l|].
    destruct (F32.is_nan d) eqn:Nd;
      [left; split; auto; apply is_nan_true in Nd; subst;
       now rewrite mul_nan_l, add_nan_r|].
    right. split; auto. repeat apply add_sign; now apply square_sign. }
  assert (V : forall a b c,
    let n := F32.add (F32.add (F32.mul a a) (F32.mul b b)) (F32.mul c c) in
    (F32.is_nan a || F32.is_nan b || F32.is_nan c = true /\ n = S754_nan)
    \/ (F32.is_nan a || F32.is_nan b || F32.is_nan c = false /\ signed_as false n)).
  { intros a b c n. subst n.
    destruct (F32.is_nan a) eqn:Na; [left; split; auto; apply is_nan_true in Na; subst; reflexivity|].
    destruct (F32.is_nan b) eqn:Nb;
      [left; split; auto; apply is_nan_true in Nb; subst;
       now rewrite mul_nan_l, add_nan_r, !add_nan_l|].
    destruct (F32.is_nan c) eqn:Nc;
      [left; split; auto; apply is_nan_true in Nc; subst;
       now rewrite mul_nan_l, add_nan_r|].
    right. split; auto. repeat apply add_sign; now apply square_sign. }
  specialize (Q w x y z). specialize (V X Y Z). cbv zeta in Q, V.
  destruct Q as [[-> ->]|[-> Sq]]; destruct V as [[-> ->]|[-> Sv]];
    repeat split; try reflexivity;
    try (apply (signed_not_nan false); apply sqrt_sign; assumption);
    try (apply signed_not_negative; try apply sqrt_sign; assumption);
    try (rewrite (signed_not_nan false _ Sq); symmetry; apply (signed_not_nan false);
         now apply sqrt_sign).
Qed.

Lemma binary_round_aux_opp s m e l :
  SFopp (binary_round_aux 24 128 s m e l) = binary_round_aux 24 128 (negb s) m e l.
Proof.
  unfold binary_round_aux.
  destruct (shr_fexp 24 128 m e l) as [mrs' e'].
  destruct (shr_fexp 24 128 (round_nearest_even (shr_m mrs') (loc_of_shr_record mrs'))
              e' loc_Exact) as [mrs'' e''].
  destruct (shr_m mrs'') as [|p|p]; try reflexivity.
  destruct (e'' <=? 128 - 24); reflexivity.
Qed.

Lemma mul_neg_r a b : F32.mul a (F32.neg b) = F32.neg (F32.mul a b).
Proof.
  destruct a as [sa|sa| |sa ma ea], b as [sb|sb| |sb mb eb]; simpl;
    try reflexivity; try (destruct sa, sb; reflexivity).
  unfold F32.mul, F32.neg, F32.prec, F32.emax, SFmul.
  rewrite binary_round_aux_opp. f_equal. destruct sa, sb; reflexivity.
Qed.

Lemma finite_mul_not_nan a b :
  F32.finite a = true -> F32.finite b = true -> F32.is_nan (F32.mul a b) = false.
Proof.
  destruct a as [sa|sa| |sa ma ea]; try discriminate;
    destruct b as [sb|sb| |sb mb eb]; try discriminate; intros _ _; try reflexivity.
  apply (signed_not_nan (xorb sa sb)).
  unfold F32.mul, F32.prec, F32.emax, SFmul. apply binary_round_aux_sign. lia.
Qed.

(** Property X17.  The products of a conjugate.  For a quaternion with
    finite components, what [quaternionComputeProducts] computes for the
    conjugate left by [quaternionConjugate] are the products of the
    quaternion itself with wx, wy and wz negated; ww, xx, yy, zz, xy, xz
    and yz are the same, whichever quaternion pointers coincide.  None of
    the ten products is a NaN. *)
Theorem quaternionComputeProducts_conjugate (i o p : ptr)
    (h : heap quaternion) (hp : heap quaternionProducts) :
  finite_quaternion (h i) ->
  let a := quaternionComputeProducts i p h hp p in
  let b := quaternionComputeProducts o p (quaternionConjugate i o h) hp p in
  (p_ww b = p_ww a /\ p_xx b = p_xx a /\ p_yy b = p_yy a /\ p_zz b = p_zz a) /\
  (p_xy b = p_xy a /\ p_xz b = p_xz a /\ p_yz b = p_yz a) /\
  (p_wx b = F32.neg (p_wx a) /\ p_wy b = F32.neg (p_wy a) /\
   p_wz b = F32.neg (p_wz a)) /\
  (F32.is_nan (p_ww a) = false /\ F32.is_nan (p_wx a) = false /\
   F32.is_nan (p_wy a) = false /\ F32.is_nan (p_wz a) = false /\
   F32.is_nan (p_xx a) = false /\ F32.is_nan (p_xy a) = false /\
   F32.is_nan (p_xz a) = false /\ F32.is_nan (p_yy a) = false /\
   F32.is_nan (p_yz a) = false /\ F32.is_nan (p_zz a) = false).
Proof.
  intros (Fw & Fx & Fy & Fz) a b. subst a b. unfold quaternionComputeProducts.
  rewrite !write_same, quaternionConjugate_at.
  unfold conjugate.
  cbn [p_ww p_wx p_wy p_wz p_xx p_xy p_xz p_yy p_yz p_zz q_w q_x q_y q_z].
  rewrite !mul_neg_neg, !mul_neg_r.
  repeat split; now apply finite_mul_not_nan.
Qed.

(** The theorem at q = (0.5, 2, -1, 0). *)
Lemma quaternionComputeProducts_conjugate_witness :
  let h : heap quaternion :=
    fun _ => {| q_w := half; q_x := two; q_y := F32.neg one; q_z := F32.zero |} in
  let hp : heap quaternionProducts :=
    fun _ => mk_products one one one one one one one one one one in
  let a := quaternionComputeProducts (Caller 0) (Caller 2) h hp (Caller 2) in
  let b := quaternionComputeProducts (Caller 1) (Caller 2)
             (quaternionConjugate (Caller 0) (Caller 1) h) hp (Caller 2) in
  p_wx b = F32.neg (p_wx a) /\ p_wy b = F32.neg (p_wy a) /\ p_wz b = F32.neg (p_wz a).
Proof.
  intros h hp.
  refine (proj1 (proj2 (proj2
            (quaternionComputeProducts_conjugate (Caller 0) (Caller 1) (Caller 2) h hp _)))).
  repeat split.
Defined.

Lemma quaternionInitVector_at i h :
  quaternionInitVector i h i
  = {| q_w := F32.zero; q_x := F32.zero; q_y := F32.zero; q_z := F32.zero |}.
Proof.
  unfold quaternionInitVector.
  rewrite set_z_at, set_y_at, set_x_at, set_w_at. reflexivity.
Qed.

Lemma add_zero_l a : F32.is_nan a = false -> F32.eq (F32.add F32.zero a) a = true.
Proof.
  destruct a as [s|s| |s m e]; try discriminate; intros _.
  - destruct s; reflexivity.
  - destruct s; reflexivity.
  - apply keeps_eq. left. split; [reflexivity|eauto].
Qed.

Lemma add_zero_r a : F32.is_nan a = false -> F32.eq (F32.add a F32.zero) a = true.
Proof. intros N. rewrite add_comm. now apply add_zero_l. Qed.

(** Property X18.  The zero quaternion.  What [quaternionInitVector] stores
    (w = x = y = z = 0) is neutral for [quaternionAdd] on both sides: for a
    [q] without NaN components, quaternionAdd(zero, q, o) and
    quaternionAdd(q, zero, o) leave in [o] components that compare equal
    ([==]) to those of [q], whichever of the three pointers coincide.  Its
    [quaternionNorm] and [quaternionModulus] are +0, and
    [quaternionNormalize] leaves it, and every other object, as it is. *)
Theorem quaternion_zero_additive (i q o : ptr) (h : heap quaternion) :
  let h1 := quaternionInitVector i h in
  F32.is_nan (q_w (h1 q)) = false -> F32.is_nan (q_x (h1 q)) = false ->
  F32.is_nan (q_y (h1 q)) = false -> F32.is_nan (q_z (h1 q)) = false ->
  float_eq_quaternion (quaternionAdd i q o h1 o) (h1 q) /\
  float_eq_quaternion (quaternionAdd q i o h1 o) (h1 q) /\
  quaternionNorm i h1 = F32.zero /\ quaternionModulus i h1 = F32.zero /\
  forall p, quaternionNormalize i h1 p = h1 p.
Proof.
  intros h1 Nw Nx Ny Nz.
  assert (I : h1 i = {| q_w := F32.zero; q_x := F32.zero; q_y := F32.zero; q_z := F32.zero |})
    by apply quaternionInitVector_at.
  assert (M : quaternionModulus i h1 = F32.zero).
  { unfold quaternionModulus, quaternionNorm. rewrite I. reflexivity. }
  split; [|split; [|split; [|split]]].
  - rewrite quaternionAdd_at, I. unfold float_eq_quaternion; cbn [q_w q_x q_y q_z].
    repeat split; now apply add_zero_l.
  - rewrite quaternionAdd_at, I. unfold float_eq_quaternion; cbn [q_w q_x q_y q_z].
    repeat split; now apply add_zero_r.
  - unfold quaternionNorm. rewrite I. reflexivity.
  - exact M.
  - intros p. unfold quaternionNormalize. rewrite M. reflexivity.
Qed.

(** The theorem at q = (0.5, 2, -1, +infinity). *)
Lemma quaternion_zero_additive_witness :
  let h : heap quaternion :=
    fun _ => {| q_w := half; q_x := two; q_y := F32.neg one;
                q_z := S754_infinity false |} in
  let h1 := quaternionInitVector (Caller 0) h in
  float_eq_quaternion (quaternionAdd (Caller 0) (Caller 1) (Caller 2) h1 (Caller 2))
                      (h1 (Caller 1)).
Proof.
  intros h h1.
  refine (proj1 (quaternion_zero_additive (Caller 0) (Caller 1) (Caller 2) h _ _ _ _));
    reflexivity.
Defined.

Lemma finite_div_infinity a s : F32.finite a = true -> is_zero (F32.div a (S754_infinity s)).
Proof. destruct a; try discriminate; intros _; eexists; reflexivity. Qed.

(** Property X19.  Normalising when the squares overflow.  If every
    component is finite but the modulus that [quaternionNormalize] computes
    is +infinity (the sum of the squares overflows), each component is
    divided by +infinity and becomes a zero: the quaternion is left null,
    not of unit length.  The same holds for [normalizeV] and the length it
    computes, also when [src] and [dest] are the same vector. *)
Theorem normalize_overflow :
  (forall q h,
     quaternionModulus q h = S754_infinity false ->
     F32.finite (q_w (h q)) = true -> F32.finite (q_x (h q)) = true ->
     F32.finite (q_y (h q)) = true -> F32.finite (q_z (h q)) = true ->
     let r := quaternionNormalize q h q in
     is_zero (q_w r) /\ is_zero (q_x r) /\ is_zero (q_y r) /\ is_zero (q_z r)) /\
  (forall src dest h,
     vector_length (h src) = S754_infinity false ->
     F32.finite (vec_X (h src)) = true -> F32.finite (vec_Y (h src)) = true ->
     F32.finite (vec_Z (h src)) = true ->
     let r := normalizeV src dest h dest in
     is_zero (vec_X r) /\ is_zero (vec_Y r) /\ is_zero (vec_Z r)).
Proof.
  split.
  - intros q h M Fw Fx Fy Fz r. subst r. unfold quaternionNormalize. rewrite M.
    change (F32.eq (S754_infinity false) F32.zero) with false. cbv iota zeta.
    unfold set_z, set_y, set_x, set_w. rewrite !write_same. cbn [q_w q_x q_y q_z].
    repeat split; now apply finite_div_infinity.
  - intros src dest h L FX FY FZ r. subst r. unfold normalizeV. rewrite L.
    change (F32.ne (S754_infinity false) F32.zero) with true. cbv iota zeta.
    unfold set_Z, set_Y, set_X. rewrite !write_same. cbn [vec_X vec_Y vec_Z].
    destruct (ptr_cases src dest) as [->|N].
    + rewrite !write_same. cbn [vec_X vec_Y vec_Z].
      repeat split; now apply finite_div_infinity.
    + rewrite !write_other by exact N.
      repeat split; now apply finite_div_infinity.
Qed.

(** The theorem at w = 2^64, whose square overflows. *)
Lemma normalize_overflow_witness :
  let h : heap quaternion :=
    fun _ => {| q_w := S754_finite false 8388608 41; q_x := one;
                q_y := F32.zero; q_z := F32.zero |} in
  let r := quaternionNormalize (Caller 0) h (Caller 0) in
  is_zero (q_w r) /\ is_zero (q_x r) /\ is_zero (q_y r) /\ is_zero (q_z r).
Proof.
  intros h. apply (proj1 normalize_overflow (Caller 0) h); vm_compute; reflexivity.
Defined.

Lemma zero_mul_number_l s b : number b -> is_zero (F32.mul (S754_zero s) b).
Proof.
  intros [_ F]. destruct b as [sb|sb| |sb m e]; try discriminate; eexists; reflexivity.
Qed.

Lemma zero_mul_number_r s b : number b -> is_zero (F32.mul b (S754_zero s)).
Proof.
  intros [_ F]. destruct b as [sb|sb| |sb m e]; try discriminate; eexists; reflexivity.
Qed.

Lemma keeps_number a r : number a -> keeps a r -> number r.
Proof.
  intros N [[-> _]|[[s ->] _]]; [exact N | split; reflexivity].
Qed.

Lemma keeps_trans a b c : keeps a b -> keeps b c -> keeps a c.
Proof.
  intros [[-> Fa]|[Zb Za]] [[-> Fb]|[Zc Zb']].
  - left. auto.
  - right. split; auto.
  - destruct Fb as (s & m & e & ->). destruct Zb as [s' Zb]. discriminate.
  - right. split; auto.
Qed.

#[local] Hint Resolve zero_mul_number_l zero_mul_number_r : quat.

Lemma hamilton_unit_l u q :
  q_w u = one -> is_zero (q_x u) -> is_zero (q_y u) -> is_zero (q_z u) ->
  number_quaternion q ->
  keeps (q_w q) (q_w (hamilton u q)) /\ keeps (q_x q) (q_x (hamilton u q)) /\
  keeps (q_y q) (q_y (hamilton u q)) /\ keeps (q_z q) (q_z (hamilton u q)).
Proof.
  destruct u as [uw ux uy uz]; cbn [q_w q_x q_y q_z].
  intros -> [s1 ->] [s2 ->] [s3 ->] (Nw & Nx & Ny & Nz).
  unfold hamilton; cbn [q_w q_x q_y q_z].
  repeat split; auto 10 with quat.
Qed.

Lemma hamilton_unit_r u q :
  q_w u = one -> is_zero (q_x u) -> is_zero (q_y u) -> is_zero (q_z u) ->
  number_quaternion q ->
  keeps (q_w q) (q_w (hamilton q u)) /\ keeps (q_x q) (q_x (hamilton q u)) /\
  keeps (q_y q) (q_y (hamilton q u)) /\ keeps (q_z q) (q_z (hamilton q u)).
Proof.
  destruct u as [uw ux uy uz]; cbn [q_w q_x q_y q_z].
  intros -> [s1 ->] [s2 ->] [s3 ->] (Nw & Nx & Ny & Nz).
  unfold hamilton; cbn [q_w q_x q_y q_z].
  repeat split; auto 10 with quat.
Qed.

Lemma keeps_number_quaternion q r :
  number_quaternion q ->
  keeps (q_w q) (q_w r) /\ keeps (q_x q) (q_x r) /\
  keeps (q_y q) (q_y r) /\ keeps (q_z q) (q_z r) ->
  number_quaternion r.
Proof.
  intros (Nw & Nx & Ny & Nz) (A & B & C & D).
  split; [|split; [|split]]; (eapply keeps_number; [|eassumption]; assumption).
Qed.

Lemma identity_is_unit :
  q_w identity_quaternion = one /\ is_zero (q_x identity_quaternion) /\
  is_zero (q_y identity_quaternion) /\ is_zero (q_z identity_quaternion).
Proof.
  split; [reflexivity|]. split; [|split]; exists false; reflexivity.
Qed.

Lemma conjugate_identity_is_unit :
  q_w (conjugate identity_quaternion) = one /\
  is_zero (q_x (conjugate identity_quaternion)) /\
  is_zero (q_y (conjugate identity_quaternion)) /\
  is_zero (q_z (conjugate identity_quaternion)).
Proof.
  split; [reflexivity|]. split; [|split]; exists true; reflexivity.
Qed.

Lemma transform_identity_values v :
  number (q_x v) -> number (q_y v) -> number (q_z v) ->
  let v0 := {| q_w := F32.zero; q_x := q_x v; q_y := q_y v; q_z := q_z v |} in
  let i := identity_quaternion in
  (forall r, r = hamilton (hamilton i v0) (conjugate i) \/
             r = hamilton (hamilton (conjugate i) v0) i ->
     is_zero (q_w r) /\ F32.eq (q_x r) (q_x v) = true /\
     F32.eq (q_y r) (q_y v) = true /\ F32.eq (q_z r) (q_z v) = true).
Proof.
  intros Nx Ny Nz v0 i r Hr.
  assert (N0 : number_quaternion v0).
  { unfold number_quaternion, v0; cbn [q_w q_x q_y q_z].
    split; [split; reflexivity | split; [|split]; assumption]. }
  destruct identity_is_unit as (I1 & I2 & I3 & I4).
  destruct conjugate_identity_is_unit as (J1 & J2 & J3 & J4).
  fold i in I1, I2, I3, I4, J1, J2, J3, J4.
  assert (K : keeps (q_w v0) (q_w r) /\ keeps (q_x v0) (q_x r) /\
              keeps (q_y v0) (q_y r) /\ keeps (q_z v0) (q_z r)).
  { destruct Hr as [-> | ->].
    - pose proof (hamilton_unit_l i v0 I1 I2 I3 I4 N0) as P.
      pose proof (keeps_number_quaternion _ _ N0 P) as N1.
      pose proof (hamilton_unit_r (conjugate i) _ J1 J2 J3 J4 N1) as P'.
      destruct P as (A & B & C & D). destruct P' as (A' & B' & C' & D').
      split; [|split; [|split]]; eapply keeps_trans; eassumption.
    - pose proof (hamilton_unit_l (conjugate i) v0 J1 J2 J3 J4 N0) as P.
      pose proof (keeps_number_quaternion _ _ N0 P) as N1.
      pose proof (hamilton_unit_r i _ I1 I2 I3 I4 N1) as P'.
      destruct P as (A & B & C & D). destruct P' as (A' & B' & C' & D').
      split; [|split; [|split]]; eapply keeps_trans; eassumption. }
  destruct K as (Kw & Kx & Ky & Kz). cbn [q_w q_x q_y q_z v0] in *.
  split; [|split; [|split]]; try (now apply keeps_eq).
  destruct Kw as [[_ (s & m & e & E)]|[Z0 _]]; [discriminate | exact Z0].
Qed.

(** Property X20.  Frame transforms by the identity attitude.  With the
    reference set by [quaternionInitQuaternion] and a vector, held in a
    different object, whose x, y and z are finite numbers of the format,
    [quaternionTransformVectorBodyToEarth] and
    [quaternionTransformVectorEarthToBody] leave the vector unchanged as
    float values: w becomes a zero and x, y, z compare equal ([==]) to what
    they were. *)
Theorem frame_transform_identity (a b : nat) (h : heap quaternion) :
  a <> b ->
  number (q_x (h (Caller a))) -> number (q_y (h (Caller a))) ->
  number (q_z (h (Caller a))) ->
  let v := h (Caller a) in
  let h1 := quaternionInitQuaternion (Caller b) h in
  let e := quaternionTransformVectorBodyToEarth (Caller a) (Caller b) h1 (Caller a) in
  let f := quaternionTransformVectorEarthToBody (Caller a) (Caller b) h1 (Caller a) in
  (is_zero (q_w e) /\ F32.eq (q_x e) (q_x v) = true /\
   F32.eq (q_y e) (q_y v) = true /\ F32.eq (q_z e) (q_z v) = true) /\
  (is_zero (q_w f) /\ F32.eq (q_x f) (q_x v) = true /\
   F32.eq (q_y f) (q_y v) = true /\ F32.eq (q_z f) (q_z v) = true).
Proof.
  intros Hab Nx Ny Nz v h1 e f.
  assert (Hp : Caller a <> Caller b) by congruence.
  assert (Hq : Caller b <> Caller a) by congruence.
  assert (V : h1 (Caller a) = h (Caller a)).
  { unfold h1, quaternionInitQuaternion.
    now rewrite set_z_other, set_y_other, set_x_other, set_w_other. }
  assert (I : h1 (Caller b) = identity_quaternion) by apply quaternionInitQuaternion_at.
  split; apply (transform_identity_values (h (Caller a)) Nx Ny Nz); [left|right].
  - unfold e, quaternionTransformVectorBodyToEarth, qVectorBuffer, qReferenceConjugate.
    change (F32.of_int 0) with F32.zero.
    heap_simpl. rewrite set_w_at, I, V. reflexivity.
  - unfold f, quaternionTransformVectorEarthToBody, qVectorBuffer, qReferenceConjugate.
    change (F32.of_int 0) with F32.zero.
    heap_simpl. rewrite set_w_at, I, V. reflexivity.
Qed.

(** The theorem at the vector (2, -1, 0). *)
Lemma frame_transform_identity_witness :
  let h : heap quaternion :=
    fun _ => {| q_w := half; q_x := two; q_y := F32.neg one; q_z := F32.zero |} in
  let h1 := quaternionInitQuaternion (Caller 1) h in
  let e := quaternionTransformVectorBodyToEarth (Caller 0) (Caller 1) h1 (Caller 0) in
  is_zero (q_w e) /\ F32.eq (q_x e) two = true /\
  F32.eq (q_y e) (F32.neg one) = true /\ F32.eq (q_z e) F32.zero = true.
Proof.
  intros h.
  refine (proj1 (frame_transform_identity 0 1 h _ _ _ _));
    try (split; reflexivity); discriminate.
Defined.

(* ================================================================== *)
(** * Running statistics of a constant stream *)

Lemma of_int_positive n :
  0 < n -> (exists m e, F32.of_int n = S754_finite false m e) \/
           F32.of_int n = S754_infinity false.
Proof.
  intros H. destruct n as [|p|p]; try lia.
  unfold F32.of_int, F32.prec, F32.emax, binary_normalize.
  destruct (binary_round_shape false p 0 ltac:(lia)) as [(m & e & -> & _)| ->]; eauto.
Qed.

Lemma zero_div_count z n : is_zero z -> 0 < n -> is_zero (F32.div z (F32.of_int n)).
Proof.
  intros [s ->] H.
  destruct (of_int_positive n H) as [(m & e & ->)| ->]; eexists; reflexivity.
Qed.

Lemma plus_zero_div_count n : 0 < n -> F32.div F32.zero (F32.of_int n) = F32.zero.
Proof.
  intros H. destruct (of_int_positive n H) as [(m & e & ->)| ->]; reflexivity.
Qed.

Lemma sub_keeps x r : keeps x r -> is_zero (F32.sub x r).
Proof.
  intros [[-> (s & m & e & ->)]|[[s1 ->] [s2 ->]]].
  - unfold F32.sub, SFsub. cbv zeta. rewrite Z.sub_diag. eexists; reflexivity.
  - destruct s1, s2; eexists; reflexivity.
Qed.

Lemma zero_mul z1 z2 : is_zero z1 -> is_zero z2 -> is_zero (F32.mul z1 z2).
Proof. intros [s1 ->] [s2 ->]. eexists; reflexivity. Qed.

Lemma plus_zero_add z : is_zero z -> F32.add F32.zero z = F32.zero.
Proof. intros [s ->]. destruct s; reflexivity. Qed.

Lemma constant_first x dev :
  F32.finite x = true -> constant_state x 1 (devPush (devClear dev) x).
Proof.
  intros F. unfold constant_state, devPush, devClear. cbn.
  repeat split; auto. now apply keeps_refl. lia.
Qed.

Lemma constant_step x k d :
  1 <= k < 2 ^ 31 - 1 -> constant_state x k d -> constant_state x (k + 1) (devPush d x).
Proof.
  intros Hk (Hn & HM & HE & HS & _). unfold devPush. rewrite Hn.
  rewrite wrap32_id
    by (unfold Int.int32, Int.in_range; change (2 ^ (32 - 1)) with (2 ^ 31); lia).
  destruct (Z.eqb_spec (k + 1) 1) as [E|_]; [lia|].
  pose proof (sub_keeps x _ HM) as D.
  pose proof (zero_div_count _ (k + 1) D ltac:(lia)) as Q.
  pose proof (keeps_add_r _ _ _ HM Q) as M'.
  pose proof (sub_keeps x _ M') as D'.
  pose proof (zero_mul _ _ D D') as P.
  unfold constant_state. cbn [m_n m_oldM m_newM m_oldS m_newS].
  rewrite HS, (plus_zero_add _ P). repeat split; auto.
Qed.

Lemma constant_fold x n : forall k d,
  1 <= k -> k + Z.of_nat n < 2 ^ 31 -> constant_state x k d ->
  constant_state x (k + Z.of_nat n) (fold_left devPush (repeat x n) d).
Proof.
  induction n as [|n IH]; intros k d Hk Hb St.
  - simpl. now rewrite Z.add_0_r.
  - cbn [repeat fold_left].
    replace (k + Z.of_nat (S n)) with ((k + 1) + Z.of_nat n) by lia.
    apply IH; try lia. apply constant_step; [lia | exact St].
Qed.

(** Property X21.  A constant stream.  After [devClear] and n pushes
    (fewer than 2^31) of one finite value x, [devVariance] and
    [devStandardDeviation] are exactly +0, and from the first push on the
    running mean compares equal to x: pushing the same sample again and
    again accumulates no rounding error. *)
Theorem dev_constant_stream (dev : stdev_t) (x : float) (n : nat) :
  F32.finite x = true -> Z.of_nat n < 2 ^ 31 ->
  let d := devPushAll dev (repeat x n) in
  devVariance d = F32.zero /\ devStandardDeviation d = F32.zero /\
  ((1 <= n)%nat -> F32.eq (m_newM d) x = true).
Proof.
  intros F B d.
  assert (V : devVariance d = F32.zero).
  { subst d. destruct n as [|n]; [reflexivity|].
    unfold devPushAll. cbn [repeat fold_left].
    assert (B' : 1 + Z.of_nat n < 2 ^ 31) by lia.
    pose proof (constant_fold x n 1 _ (Z.le_refl 1) B' (constant_first x dev F))
      as (Hn & _ & _ & _ & HS).
    unfold devVariance. rewrite Hn.
    destruct (Z.gtb_spec (1 + Z.of_nat n) 1) as [G|G]; [|reflexivity].
    rewrite HS by lia.
    replace (1 + Z.of_nat n - 1) with (Z.of_nat n) by lia.
    rewrite wrap32_id
      by (unfold Int.int32, Int.in_range; change (2 ^ (32 - 1)) with (2 ^ 31); lia).
    apply plus_zero_div_count. lia. }
  split; [exact V|]. split.
  - unfold devStandardDeviation. rewrite V. reflexivity.
  - intros H. subst d. destruct n as [|n]; [lia|].
    unfold devPushAll. cbn [repeat fold_left].
    assert (B' : 1 + Z.of_nat n < 2 ^ 31) by lia.
    pose proof (constant_fold x n 1 _ (Z.le_refl 1) B' (constant_first x dev F))
      as (_ & HM & HE & _).
    rewrite HE. now apply keeps_eq.
Qed.

(** The theorem at four pushes of 2.0f. *)
Lemma dev_constant_stream_witness :
  let d := devPushAll (mk_stdev F32.zero F32.zero F32.zero F32.zero 0) (repeat two 4) in
  devVariance d = F32.zero /\ devStandardDeviation d = F32.zero /\
  ((1 <= 4)%nat -> F32.eq (m_newM d) two = true).
Proof.
  apply (dev_constant_stream (mk_stdev F32.zero F32.zero F32.zero F32.zero 0) two 4 eq_refl).
  reflexivity.
Defined.

(* ================================================================== *)
(** * Arc tangent and arc cosine *)

Lemma fabsf_neg y : F32.fabsf (F32.neg y) = F32.fabsf y.
Proof. destruct y; reflexivity. Qed.

Lemma lt_neg_zero y : F32.lt (F32.neg y) F32.zero = F32.gt y F32.zero.
Proof. destruct y as [s|s| |s m e]; try reflexivity; destruct s; reflexivity. Qed.

Lemma gt_lt_zero y : F32.gt y F32.zero = true -> F32.lt y F32.zero = false.
Proof. destruct y as [s|s| |s m e]; try discriminate; destruct s; try discriminate; reflexivity. Qed.

Lemma lt_gt_zero y : F32.lt y F32.zero = true -> F32.gt y F32.zero = false.
Proof. destruct y as [s|s| |s m e]; try discriminate; destruct s; try discriminate; reflexivity. Qed.

Lemma zero_sign_tests y :
  is_zero y -> F32.lt y F32.zero = false /\ F32.lt (F32.neg y) F32.zero = false.
Proof. intros [s ->]. destruct s; split; reflexivity. Qed.

(** Property X22.  [atan2_approx] is odd in y.  For every x and every y
    that compares below or above zero, atan2_approx(-y, x) is
    -atan2_approx(y, x), bit for bit.  The sign of a zero y is ignored:
    atan2_approx(-0, x) is atan2_approx(+0, x). *)
Theorem atan2_approx_odd (y x : float) :
  (F32.lt y F32.zero = true \/ F32.gt y F32.zero = true ->
   atan2_approx (F32.neg y) x = F32.neg (atan2_approx y x)) /\
  (is_zero y -> atan2_approx (F32.neg y) x = atan2_approx y x).
Proof.
  unfold atan2_approx, atan2_approx_run. rewrite fabsf_neg.
  destruct (F32.ne (MAX (F32.fabsf x) (F32.fabsf y)) F32.zero); cbv zeta beta iota;
    cbn [fst]; rewrite lt_neg_zero.
  - split.
    + intros [L|G].
      * rewrite L, (lt_gt_zero y L). now rewrite neg_involutive.
      * rewrite G, (gt_lt_zero y G). reflexivity.
    + intros Z0. destruct (zero_sign_tests y Z0) as [L1 L2].
      rewrite lt_neg_zero in L2. now rewrite L1, L2.
  - split.
    + intros [L|G].
      * rewrite L, (lt_gt_zero y L). now rewrite neg_involutive.
      * rewrite G, (gt_lt_zero y G). reflexivity.
    + intros Z0. destruct (zero_sign_tests y Z0) as [L1 L2].
      rewrite lt_neg_zero in L2. now rewrite L1, L2.
Qed.

(** The theorem at y = 1, x = 2. *)
Lemma atan2_approx_odd_witness :
  atan2_approx (F32.neg one) two = F32.neg (atan2_approx one two).
Proof.
  apply (proj1 (atan2_approx_odd one two)). right. reflexivity.
Defined.

Lemma sub_lt_negative sa ma ea sb mb eb :
  bounded 24 128 ma ea = true -> bounded 24 128 mb eb = true ->
  F32.lt (S754_finite sa ma ea) (S754_finite sb mb eb) = true ->
  (exists m e, F32.sub (S754_finite sa ma ea) (S754_finite sb mb eb) = S754_finite true m e)
  \/ F32.sub (S754_finite sa ma ea) (S754_finite sb mb eb) = S754_infinity true.
Proof.
  intros Va Vb L.
  pose proof (lt_scaled (S754_finite sa ma ea) (S754_finite sb mb eb) Va Vb eq_refl eq_refl L) as S.
  destruct (bounded_facts _ _ Va) as (Ea & _).
  destruct (bounded_facts _ _ Vb) as (Eb & _).
  pose proof (sub_exact_value sa ma ea sb mb eb ltac:(lia) ltac:(lia)) as X.
  cbv zeta in X.
  unfold F32.sub, F32.prec, F32.emax, SFsub. cbv zeta.
  set (D := cond_Zopp sa (Zpos (fst (shl_align ma ea (Z.min ea eb))))
            - cond_Zopp sb (Zpos (fst (shl_align mb eb (Z.min ea eb))))) in *.
  assert (P : 0 < 2 ^ (Z.min ea eb + 149)) by (apply pow2_pos; lia).
  assert (D < 0) by nia.
  destruct D as [|p|p]; try lia. unfold binary_normalize.
  destruct (binary_round_shape true p (Z.min ea eb) ltac:(lia))
    as [(m' & e' & -> & _)| ->]; eauto.
Qed.

(** Property X23.  [acos_approx] outside [-1, 1].  For every value x of the
    format with fabsf(x) > 1, the infinities included, 1 - fabsf(x) is
    negative, its square root is a NaN and so is the result; a NaN argument
    also gives a NaN. *)
Theorem acos_approx_domain (x : float) :
  (F32.valid x = true -> F32.gt (F32.fabsf x) one = true -> acos_approx x = S754_nan) /\
  (F32.is_nan x = true -> acos_approx x = S754_nan).
Proof.
  split.
  - intros V G. unfold acos_approx. cbv zeta.
    assert (E : F32.sqrtf (F32.sub one (F32.fabsf x)) = S754_nan).
    { destruct x as [s|s| |s m e]; try discriminate.
      - reflexivity.
      - cbn [F32.fabsf SFabs] in *.
        destruct (sub_lt_negative false 8388608 (-23) false m e eq_refl V G)
          as [(m' & e' & R)|R]; unfold one; rewrite R; reflexivity. }
    rewrite E. change (F32.mul S754_nan ?y) with S754_nan.
    destruct (F32.lt x F32.zero); reflexivity.
  - intros N. destruct x; try discriminate. reflexivity.
Qed.

(** The theorem at acos_approx(2.0f). *)
Lemma acos_approx_domain_witness : acos_approx two = S754_nan.
Proof.
  apply (proj1 (acos_approx_domain two)); reflexivity.
Defined.
